(** * A shallow embedding of the container library
      (ForwardList.h, Vector.h, HashMap.h)

    The three headers are embedded one module each.  Conventions:

    - Integers have the widths of the LP64 data model: [size_t] is 64 bits
      and [unsigned] is 32 bits.  Their values are natural numbers ([N])
      below the modulus, and the arithmetic of the source is written with
      its wrap-around ([SizeT], [UInt]).
    - A run of a member function either returns or hits one of the [fault]s
      below.  [OutOfRange] is the one C++ exception the library throws; the
      other constructors mark undefined behaviour (a null or out-of-buffer
      dereference, an integer division by zero, a float that does not convert
      to an integer).
    - A node pointer [Node<T>*] is modelled by the chain that starts at that
      node: [NULL] is the empty chain, and two pointers into one chain are
      equal exactly when the chains they start are equally long.
    - The element type of a [Vector] comes with its default constructor and
      its copy assignment (class [Element]): every [_data[i] = x] of the
      source goes through [T::operator=].  For the scalar types it stores
      the value; for a [ForwardList], the type of the map's buckets, it
      rebuilds the chain in reverse order.
    - Member functions that are ill-formed when they are instantiated have
      no run-time behaviour; the rules they break (access to a private
      member, assignment through a pointer to const) are embedded as a
      check of their bodies ([ForwardList_h.Static]).
    - [float] is IEEE 754 binary32.  A finite value is a sign and a rational
      magnitude; every conversion, division and multiplication rounds the
      exact result to 24 bits, to nearest and to even on a tie, and gives an
      infinity from [2^128] on; the expressions are evaluated in [float]
      ([FLT_EVAL_METHOD] 0).  The infinities and the NaN are values of
      their own. *)

From Stdlib Require Import NArith ZArith QArith Qpower Qround Lia Lqa.
From Stdlib Require Import SpecFloat.
From stdpp Require Import base list.

Local Open Scope N_scope.

Inductive fault : Set :=
| OutOfRange     (* std::out_of_range, thrown by Vector::at *)
| NullDeref      (* read through a null pointer *)
| OutOfBounds    (* read or write outside the allocated buffer *)
| DivByZero      (* integer % 0 *)
| FloatToInt     (* (size_t) of an infinity, a NaN or a value out of range *)
| NoProgress.    (* a loop that has not left after the allotted rounds *)

Inductive result (A : Type) : Type :=
| Ok (a : A)
| Raise (e : fault).
Arguments Ok {A} a.
Arguments Raise {A} e.

Definition bind {A B : Type} (r : result A) (k : A -> result B) : result B :=
  match r with
  | Ok a => k a
  | Raise e => Raise e
  end.

Notation "x <- e ;; k" := (bind e (fun x => k))
  (at level 100, e at next level, right associativity).

(** ** size_t *)
Module SizeT.
Definition modulus : N := 18446744073709551616.   (* 2^64 *)
Definition max : N := 18446744073709551615.       (* SIZE_MAX *)
Definition wrap (x : N) : N := x mod modulus.
Definition add (a b : N) : N := wrap (a + b).
Definition mul (a b : N) : N := wrap (a * b).
(** [a - b] for [a] and [b] below the modulus. *)
Definition sub (a b : N) : N := wrap (a + modulus - b).

Lemma wrap_small (x : N) : x <= max -> wrap x = x.
Proof. intros H. apply N.mod_small. unfold max, modulus in *. lia. Qed.

Lemma add_small (a b : N) : a + b <= max -> add a b = a + b.
Proof. apply wrap_small. Qed.

Lemma mul_small (a b : N) : a * b <= max -> mul a b = a * b.
Proof. apply wrap_small. Qed.

Lemma sub_zero_one : sub 0 1 = max.
Proof. reflexivity. Qed.

Lemma sub_pos (a : N) : 0 < a <= max -> sub a 1 = a - 1.
Proof.
  unfold sub, wrap, max, modulus. intros [Ha Hb].
  replace (a + 18446744073709551616 - 1)
    with ((a - 1) + 1 * 18446744073709551616) by lia.
  rewrite N.Div0.mod_add. apply N.mod_small. lia.
Qed.
End SizeT.

(** ** unsigned *)
Module UInt.
Definition modulus : N := 4294967296.   (* 2^32 *)
Definition wrap (x : N) : N := x mod modulus.
End UInt.

(** [a % b] on unsigned operands. *)
Definition modulo (a b : N) : result N :=
  if b =? 0 then Raise DivByZero else Ok (a mod b).

(** ** Loops
    A loop over a state [St] is given by its round: [inl s'] goes on with the
    state [s'], [inr r] leaves with [r].  [iterate p] runs it for at most [p]
    rounds, [p] in binary, so that a bound as large as the range of a
    machine integer can be allotted. *)
Fixpoint iterate {St R : Type} (p : positive) (round : St -> St + R) (s : St)
  : St + R :=
  match p with
  | xH => round s
  | xO q =>
      match iterate q round s with
      | inl s' => iterate q round s'
      | inr r => inr r
      end
  | xI q =>
      match round s with
      | inl s' =>
          match iterate q round s' with
          | inl s'' => iterate q round s''
          | inr r => inr r
          end
      | inr r => inr r
      end
  end.

(** The same loop with the rounds counted in unary, for the proofs. *)
Fixpoint iter_nat {St R : Type} (n : nat) (round : St -> St + R) (s : St)
  : St + R :=
  match n with
  | O => inl s
  | S k =>
      match round s with
      | inl s' => iter_nat k round s'
      | inr r => inr r
      end
  end.

Lemma iter_nat_add {St R : Type} (a b : nat) (round : St -> St + R) (s : St) :
  iter_nat (a + b) round s
  = match iter_nat a round s with
    | inl s' => iter_nat b round s'
    | inr r => inr r
    end.
Proof.
  revert s. induction a as [|a IH]; intros s; simpl; [reflexivity|].
  destruct (round s) as [s'|r]; [apply IH | reflexivity].
Qed.

Lemma iterate_iter_nat {St R : Type} (p : positive) (round : St -> St + R)
    (s : St) :
  iterate p round s = iter_nat (Pos.to_nat p) round s.
Proof.
  revert s. induction p as [q IH|q IH|]; intros s; simpl iterate.
  - rewrite Pos2Nat.inj_xI. set (n := Pos.to_nat q) in *.
    replace (S (2 * n)) with (1 + (n + n))%nat by lia.
    rewrite iter_nat_add. simpl iter_nat at 1.
    destruct (round s) as [s'|r]; [|reflexivity].
    rewrite iter_nat_add, <- IH.
    destruct (iterate q round s') as [s''|r]; [apply IH | reflexivity].
  - rewrite Pos2Nat.inj_xO. set (n := Pos.to_nat q) in *.
    replace (2 * n)%nat with (n + n)%nat by lia.
    rewrite iter_nat_add, <- IH.
    destruct (iterate q round s) as [s'|r]; [apply IH | reflexivity].
  - simpl. destruct (round s); reflexivity.
Qed.

Lemma iterate_leaves {St R : Type} (p : positive) (round : St -> St + R)
    (s : St) (r : R) :
  round s = inr r -> iterate p round s = inr r.
Proof.
  intros H. rewrite iterate_iter_nat.
  destruct (Pos2Nat.is_succ p) as [n ->]. simpl. now rewrite H.
Qed.

Arguments iterate : simpl never.
(* ================================================================== *)
(** * ForwardList.h *)
(* ================================================================== *)
Module ForwardList_h.
Section ForwardList.
Context {T : Type}.
(** [head] is the chain of nodes reachable from the head pointer, in link
    order; [_size] is the counter the class keeps next to it. *)
Record ForwardList : Type := mkList { head : list T; _size : N }.

(** [List_Iterator]: the field [current], a node pointer. *)
Definition iterator : Type := list T.

Definition deref (it : iterator) : result T :=
  match it with
  | [] => Raise NullDeref
  | x :: _ => Ok x
  end.

(** [operator++]: [current = current->next]. *)
Definition incr (it : iterator) : result iterator :=
  match it with
  | [] => Raise NullDeref
  | _ :: next => Ok next
  end.

(** [operator==] on positions, [current == rhs.current].  Two nodes of one
    chain are the same node exactly when as many nodes follow them, and no
    node follows [NULL]; positions in different chains are told apart by
    their callers (the map compares the buckets as well). *)
Definition iterator_eq (it rhs : iterator) : bool :=
  Nat.eqb (length it) (length rhs).

Definition default : ForwardList := mkList [] 0.
Definition begin (l : ForwardList) : iterator := head l.
Definition end_ (l : ForwardList) : iterator := [].
Definition empty (l : ForwardList) : bool :=
  match head l with [] => true | _ => false end.
Definition size (l : ForwardList) : N := _size l.

Definition front (l : ForwardList) : result T := deref (head l).

Definition push_front (info : T) (l : ForwardList) : ForwardList :=
  mkList (info :: head l) (SizeT.add (_size l) 1).

Definition pop_front (l : ForwardList) : result ForwardList :=
  match head l with
  | [] => Raise NullDeref
  | _ :: temp => Ok (mkList temp (SizeT.sub (_size l) 1))
  end.

Definition clear (l : ForwardList) : ForwardList := mkList [] 0.

(** ** The constructors *)

(** [ForwardList(n, val)]: [n] times [push_front(val)] on the empty list. *)
Definition ctor (n : N) (val : T) : ForwardList :=
  N.iter n (push_front val) default.

(** The loop [while (itr != rhs.cend()) { push_front( *itr); ++itr; }] of the
    copy constructor and of the copy assignment, from [itr] on. *)
Fixpoint push_all (itr : iterator) (l : ForwardList) : ForwardList :=
  match itr with
  | [] => l
  | x :: next => push_all next (push_front x l)
  end.

(** [ForwardList(const ForwardList& rhs)]. *)
Definition copy_ctor (rhs : ForwardList) : ForwardList :=
  push_all (begin rhs) default.

(** [operator=(const ForwardList& rhs)] on an object other than [rhs]:
    [clear()] when the list is not empty, then the loop. *)
Definition copy_assign (this rhs : ForwardList) : ForwardList :=
  push_all (begin rhs) (if empty this then this else clear this).

(** The counter [_size] holds the number of nodes. *)
Definition counted (l : ForwardList) : Prop :=
  _size l = N.of_nat (length (head l)).

Lemma push_all_head (itr : iterator) (l : ForwardList) :
  head (push_all itr l) = rev itr ++ head l.
Proof.
  revert l. induction itr as [|x next IH]; intros l; simpl; [reflexivity|].
  rewrite IH. simpl. now rewrite <- app_assoc.
Qed.

Lemma push_all_size (itr : iterator) (l : ForwardList) :
  _size l + N.of_nat (length itr) <= SizeT.max ->
  _size (push_all itr l) = _size l + N.of_nat (length itr).
Proof.
  revert l. induction itr as [|x next IH]; intros l Hs; simpl in *.
  - lia.
  - rewrite IH; simpl; rewrite SizeT.add_small by lia; lia.
Qed.

Lemma ctor_iter (n : N) (val : T) :
  n <= SizeT.max ->
  head (N.iter n (push_front val) default) = replicate (N.to_nat n) val
  /\ _size (N.iter n (push_front val) default) = n.
Proof.
  induction n as [|n IH] using N.peano_ind; intros Hn; [now split|].
  rewrite N.iter_succ, N2Nat.inj_succ. destruct IH as [IHh IHs]; [lia|].
  simpl. rewrite IHh, IHs. split; [reflexivity|].
  rewrite SizeT.add_small; lia.
Qed.

(** X1.  The fill constructor builds a chain of [n] nodes that all hold
    [val], and sets the size counter to [n]. *)
Theorem ctor_fills (n : N) (val : T) (Hn : n <= SizeT.max) :
  head (ctor n val) = replicate (N.to_nat n) val
  /\ size (ctor n val) = n
  /\ counted (ctor n val)
  /\ (empty (ctor n val) = true <-> n = 0).
Proof.
  destruct (ctor_iter n val Hn) as [Hh Hs]. unfold ctor, size, counted, empty.
  rewrite Hh, Hs, length_replicate, N2Nat.id.
  split; [reflexivity|]. split; [reflexivity|]. split; [reflexivity|].
  destruct (N.to_nat n) as [|k] eqn:E; simpl.
  - split; [lia | reflexivity].
  - split; [discriminate | lia].
Qed.

(** X2.  The copy constructor and the copy assignment push the source's
    elements to the front one by one: the copy holds them in reverse order,
    with the size counter at the number of nodes.  A copy of the copy has the
    order of the source again. *)
Theorem copy_reverses (this rhs : ForwardList)
    (Hlen : N.of_nat (length (head rhs)) <= SizeT.max)
    (Hthis : counted this) :
  head (copy_ctor rhs) = rev (head rhs)
  /\ counted (copy_ctor rhs)
  /\ head (copy_assign this rhs) = rev (head rhs)
  /\ counted (copy_assign this rhs)
  /\ head (copy_ctor (copy_ctor rhs)) = head rhs.
Proof.
  assert (Hc : head (copy_ctor rhs) = rev (head rhs)).
  { unfold copy_ctor, begin. rewrite push_all_head. simpl. apply app_nil_r. }
  assert (Hbase : head (if empty this then this else clear this) = []
                  /\ _size (if empty this then this else clear this) = 0).
  { unfold empty, counted in *. destruct (head this) eqn:E; simpl.
    - rewrite E. split; [reflexivity|]. rewrite Hthis. reflexivity.
    - split; reflexivity. }
  destruct Hbase as [Hb1 Hb2].
  split; [exact Hc|]. split.
  { unfold counted. rewrite Hc, length_rev. unfold copy_ctor, begin.
    rewrite push_all_size; simpl; lia. }
  split.
  { unfold copy_assign, begin. rewrite push_all_head, Hb1. apply app_nil_r. }
  split.
  { unfold counted, copy_assign, begin.
    rewrite push_all_head, Hb1, app_nil_r, length_rev.
    rewrite push_all_size; rewrite Hb2; lia. }
  unfold copy_ctor at 1. unfold begin. rewrite push_all_head, Hc. simpl.
  rewrite app_nil_r. apply rev_involutive.
Qed.

(** X5.  [push_front] (below [SIZE_MAX] nodes), [pop_front] and [clear] keep
    the size counter at the number of nodes; [pop_front] after
    [push_front(x)] gives the list back, and [front()] after [push_front(x)]
    is [x]. *)
Theorem size_counts_the_nodes (l : ForwardList)
    (Hc : counted l) (Hlen : _size l < SizeT.max) :
  (forall x, counted (push_front x l)
             /\ pop_front (push_front x l) = Ok l
             /\ front (push_front x l) = Ok x)
  /\ (forall l', pop_front l = Ok l' -> counted l')
  /\ counted (clear l).
Proof.
  destruct l as [hd sz]. unfold counted in *. simpl in *.
  split; [|split].
  - intros x. unfold push_front, pop_front, front. simpl.
    rewrite SizeT.add_small by lia. split; [lia|]. split; [|reflexivity].
    rewrite SizeT.sub_pos by lia. do 2 f_equal. lia.
  - intros l'. unfold pop_front. simpl.
    destruct hd as [|x tl]; [discriminate|].
    intros [= <-]. simpl in *. rewrite SizeT.sub_pos by lia. lia.
  - reflexivity.
Qed.

End ForwardList.

Arguments ForwardList T : clear implicits.
Arguments iterator T : clear implicits.

(** ** Member access in [remove], [insert_after] and [erase_after]

    The three member functions take a [const_iterator] and reach into it:
    [itr.current->next].  Whether the body of a member function of a class
    template may be used is settled when it is instantiated, from the
    declarations of the header; nothing runs before that.  The declarations
    and the bodies are written down below as the header has them, with the
    two rules of the language they meet: a private member is named only by
    the members of its class, and a member reached through a pointer to
    const is not assigned to. *)
Module Static.

Inductive class_name : Set :=
| class_Node
| class_ForwardList
| class_List_Iterator.

#[local] Instance class_name_eq_dec : EqDecision class_name.
Proof. solve_decision. Defined.

(** The data members: [Node::data], [Node::next], [ForwardList::head],
    [ForwardList::_size], [List_Iterator::current]. *)
Inductive member : Set :=
| Node_data
| Node_next
| ForwardList_head
| ForwardList_size
| List_Iterator_current.

Definition class_of (m : member) : class_name :=
  match m with
  | Node_data | Node_next => class_Node
  | ForwardList_head | ForwardList_size => class_ForwardList
  | List_Iterator_current => class_List_Iterator
  end.

Inductive access : Set := public | private.

(** [struct Node] declares its members public; [head] and [_size] stand
    before the first access specifier of [class ForwardList]; [current]
    stands under [private:] in [List_Iterator]. *)
Definition access_of (m : member) : access :=
  match m with
  | Node_data | Node_next => public
  | ForwardList_head | ForwardList_size => private
  | List_Iterator_current => private
  end.

(** [List_Iterator] is declared inside [ForwardList].  No class of the
    header declares a class or a member function its friend. *)
Definition enclosing (c : class_name) : option class_name :=
  match c with
  | class_List_Iterator => Some class_ForwardList
  | class_Node | class_ForwardList => None
  end.

(** A private member may be named by the members of its class.  A nested
    class is a member of the class around it; the members of the class
    around it have no special access to the members of the nested class. *)
Definition accessible (scope : class_name) (m : member) : bool :=
  match access_of m with
  | public => true
  | private =>
      bool_decide (scope = class_of m)
      || bool_decide (enclosing scope = Some (class_of m))
  end.

(** The types that matter here.  The flag says whether the pointer points to
    const: [Node<T>*] and [iterator] have [false], [const Node<T>*] and
    [const_iterator], whose [ptr_type] is [const Node<T>*], have [true]. *)
Inductive type : Set :=
| Node_ptr (to_const : bool)
| List_Iterator (to_const : bool)
| other_type.

Definition member_type (object : type) (m : member) : type :=
  match m, object with
  | List_Iterator_current, List_Iterator c => Node_ptr c
  | Node_next, _ => Node_ptr false
  | ForwardList_head, _ => Node_ptr false
  | _, _ => other_type
  end.

(** The parameters and local variables of the member functions below. *)
Inductive variable : Set :=
| var_itr | var_temp | var_newNode | var_info | var_val.

Inductive expr : Set :=
| local (x : variable)
| this_member (m : member)        (* [m], which is [this->m] *)
| dot (e : expr) (m : member)     (* [e.m] *)
| arrow (e : expr) (m : member)   (* [e->m] *)
| assign (lhs rhs : expr)         (* [lhs = rhs] *)
| constant                        (* [NULL], or a call without operands *)
| unary (e : expr)                (* [delete e], [++e], [e--], a call [f(e)] *)
| binary (e1 e2 : expr).          (* [e1 != e2], [new Node<T>(e1, e2)] *)

Inductive diagnostic : Set :=
| is_private (m : member) (scope : class_name)
| assigns_read_only (lhs : expr).

(** What an expression is found to be: the diagnostics for it, its type, and
    whether it designates something const. *)
Fixpoint check (scope : class_name) (locals : variable -> type) (e : expr)
  : list diagnostic * type * bool :=
  let name m := if accessible scope m then [] else [is_private m scope] in
  match e with
  | local x => ([], locals x, false)
  | this_member m => (name m, member_type other_type m, false)
  | dot e m =>
      let '(d, t, c) := check scope locals e in
      (d ++ name m, member_type t m, c)
  | arrow e m =>
      let '(d, t, _) := check scope locals e in
      (d ++ name m, member_type t m,
       match t with
       | Node_ptr to_const => to_const
       | _ => false
       end)
  | assign lhs rhs =>
      let '(dl, t, c) := check scope locals lhs in
      let '(dr, _, _) := check scope locals rhs in
      (dl ++ dr ++ (if c then [assigns_read_only lhs] else []), t, false)
  | constant => ([], other_type, false)
  | unary e => let '(d, _, _) := check scope locals e in (d, other_type, false)
  | binary e1 e2 =>
      let '(d1, _, _) := check scope locals e1 in
      let '(d2, _, _) := check scope locals e2 in
      (d1 ++ d2, other_type, false)
  end.

(** A member function: the class it is a member of, the types of its
    parameters and locals, and the expressions of its body in the order of
    the source.  The statements around the expressions add nothing to the
    two rules. *)
Record member_function : Set := mkFunction {
  scope : class_name;
  locals : variable -> type;
  body : list expr
}.

Definition diagnostics (f : member_function) : list diagnostic :=
  flat_map (fun e => fst (fst (check (scope f) (locals f) e))) (body f).

Definition well_formed (f : member_function) : bool :=
  match diagnostics f with
  | [] => true
  | _ :: _ => false
  end.

(** [itr] is a [const_iterator] in the three member functions; [temp] and
    [newNode] are [Node<T>*]. *)
Definition list_locals (x : variable) : type :=
  match x with
  | var_itr => List_Iterator true
  | var_temp | var_newNode => Node_ptr false
  | var_info | var_val => other_type
  end.

(** [itr.current->next]. *)
Definition after_itr : expr :=
  arrow (dot (local var_itr) List_Iterator_current) Node_next.

(** [remove(val)]:
    [auto itr = cbegin();
     while (itr.current->next != NULL) {
       if (itr.current->next->data == val) erase_after(itr);
       else ++itr;
     }] *)
Definition remove : member_function :=
  mkFunction class_ForwardList list_locals
    [ constant;
      binary after_itr constant;
      binary (arrow after_itr Node_data) (local var_val);
      unary (local var_itr);
      unary (local var_itr) ].

(** [insert_after(itr, info)]:
    [auto newNode = new Node<T>(info, itr.current->next);
     itr.current->next = newNode;
     _size++;
     return iterator(newNode);] *)
Definition insert_after : member_function :=
  mkFunction class_ForwardList list_locals
    [ binary (local var_info) after_itr;
      assign after_itr (local var_newNode);
      unary (this_member ForwardList_size);
      unary (local var_newNode) ].

(** [erase_after(itr)]:
    [auto temp = itr.current->next->next;
     delete itr.current->next;
     itr.current->next = temp;
     _size--;
     return iterator(temp);] *)
Definition erase_after : member_function :=
  mkFunction class_ForwardList list_locals
    [ arrow after_itr Node_next;
      unary after_itr;
      assign after_itr (local var_temp);
      unary (this_member ForwardList_size);
      unary (local var_temp) ].

(** [push_front(info)]:
    [auto newNode = new Node<T>(info, head); head = newNode; _size++;] *)
Definition push_front : member_function :=
  mkFunction class_ForwardList list_locals
    [ binary (local var_info) (this_member ForwardList_head);
      assign (this_member ForwardList_head) (local var_newNode);
      unary (this_member ForwardList_size) ].

(** [pop_front()]:
    [auto temp = head->next; delete head; head = temp; _size--;] *)
Definition pop_front : member_function :=
  mkFunction class_ForwardList list_locals
    [ arrow (this_member ForwardList_head) Node_next;
      unary (this_member ForwardList_head);
      assign (this_member ForwardList_head) (local var_temp);
      unary (this_member ForwardList_size) ].

(** [List_Iterator::operator++()]: [current = current->next; return *this;] *)
Definition operator_incr : member_function :=
  mkFunction class_List_Iterator list_locals
    [ assign (this_member List_Iterator_current)
             (arrow (this_member List_Iterator_current) Node_next);
      constant ].

End Static.

(** C9.  [remove] cannot be instantiated, so no program calls it and no node
    is ever unlinked by it: its loop names [itr.current], a private member
    of [List_Iterator], from a member function of [ForwardList], and it
    calls [erase_after], which names [current] as well and assigns to
    [itr.current->next] through the [const Node<T>*] of a [const_iterator].
    The members the rest of the library uses ([push_front], [pop_front],
    the iterator's [operator++]) pass the same check. *)
Theorem remove_is_ill_formed :
  Static.diagnostics Static.remove
  = [Static.is_private Static.List_Iterator_current Static.class_ForwardList;
     Static.is_private Static.List_Iterator_current Static.class_ForwardList]
  /\ Static.well_formed Static.remove = false
  /\ Static.diagnostics Static.erase_after
     = [Static.is_private Static.List_Iterator_current Static.class_ForwardList;
        Static.is_private Static.List_Iterator_current Static.class_ForwardList;
        Static.is_private Static.List_Iterator_current Static.class_ForwardList;
        Static.assigns_read_only Static.after_itr]
  /\ Static.well_formed Static.erase_after = false
  /\ Static.well_formed Static.push_front = true
  /\ Static.well_formed Static.pop_front = true
  /\ Static.well_formed Static.operator_incr = true.
Proof. repeat split. Qed.

(** X3.  [insert_after] and [erase_after] cannot be instantiated either:
    each names the private [current] of its [const_iterator] argument and
    assigns to [itr.current->next], which is reached through a pointer to
    const. *)
Theorem insert_after_is_ill_formed :
  Static.diagnostics Static.insert_after
  = [Static.is_private Static.List_Iterator_current Static.class_ForwardList;
     Static.is_private Static.List_Iterator_current Static.class_ForwardList;
     Static.assigns_read_only Static.after_itr]
  /\ Static.well_formed Static.insert_after = false
  /\ Static.well_formed Static.erase_after = false
  /\ (forall m : Static.member,
        Static.accessible Static.class_ForwardList m = false
        <-> m = Static.List_Iterator_current)
  /\ (forall m : Static.member,
        Static.accessible Static.class_List_Iterator m = true).
Proof.
  split; [reflexivity|]. split; [reflexivity|]. split; [reflexivity|].
  split; intros m; destruct m; split; (reflexivity || discriminate).
Qed.

(** Witness for X1: three nodes that hold 7. *)
Lemma ctor_fills_witness :
  3 <= SizeT.max
  /\ head (ctor 3 7) = replicate (N.to_nat 3) 7
  /\ size (ctor 3 7) = 3
  /\ counted (ctor 3 7)
  /\ (empty (ctor 3 7) = true <-> 3 = 0).
Proof.
  assert (H : 3 <= SizeT.max) by (unfold SizeT.max; lia).
  split; [exact H|]. exact (ctor_fills 3 7 H).
Defined.

(** Witness for X2: the list 1, 2, 3 copied into an empty list. *)
Lemma copy_reverses_witness :
  N.of_nat (length (head (mkList [1; 2; 3] 3))) <= SizeT.max
  /\ counted (@default N)
  /\ head (copy_ctor (mkList [1; 2; 3] 3)) = rev (head (mkList [1; 2; 3] 3))
  /\ counted (copy_ctor (mkList [1; 2; 3] 3))
  /\ head (copy_assign default (mkList [1; 2; 3] 3))
     = rev (head (mkList [1; 2; 3] 3))
  /\ counted (copy_assign default (mkList [1; 2; 3] 3))
  /\ head (copy_ctor (copy_ctor (mkList [1; 2; 3] 3)))
     = head (mkList [1; 2; 3] 3).
Proof.
  assert (H1 : N.of_nat (length (head (mkList [1; 2; 3] 3))) <= SizeT.max)
    by (unfold SizeT.max; simpl; lia).
  assert (H2 : counted (@default N)) by reflexivity.
  split; [exact H1|]. split; [exact H2|].
  exact (copy_reverses default (mkList [1; 2; 3] 3) H1 H2).
Defined.

(** Witness for X5: the list 1, 2. *)
Lemma size_counts_the_nodes_witness :
  counted (mkList [1; 2] 2)
  /\ _size (mkList [1; 2] 2) < SizeT.max
  /\ (forall x, counted (push_front x (mkList [1; 2] 2))
                /\ pop_front (push_front x (mkList [1; 2] 2))
                   = Ok (mkList [1; 2] 2)
                /\ front (push_front x (mkList [1; 2] 2)) = Ok x)
  /\ (forall l', pop_front (mkList [1; 2] 2) = Ok l' -> counted l')
  /\ counted (clear (mkList [1; 2] 2)).
Proof.
  assert (H1 : counted (mkList [1; 2] 2)) by reflexivity.
  assert (H2 : _size (mkList [1; 2] 2) < SizeT.max)
    by (unfold SizeT.max; simpl; lia).
  split; [exact H1|]. split; [exact H2|].
  exact (size_counts_the_nodes (mkList [1; 2] 2) H1 H2).
Defined.

End ForwardList_h.

(* ================================================================== *)
(** * Vector.h *)
(* ================================================================== *)
Module Vector_h.

(** What the class template uses of its element type [T]: the default
    constructor [T()], the copy assignment [T::operator=] ([assign x y] is
    what [x] holds after [x = y]), and [sizeof(T)]. *)
Class Element (T : Type) : Type := {
  T_default : T;
  assign : T -> T -> T;
  size_of : positive
}.

(** A scalar element type, here [size_t]: assignment stores the value that
    is assigned.  [new T[n]] leaves the cells of a scalar type without a
    value; they are given one here, and no statement below depends on it. *)
#[export] Instance scalar : Element N :=
  {| T_default := 0; assign := fun _ x => x; size_of := 8 |}.

(** The element type the map stores in its bucket array: a [ForwardList],
    with its default constructor and its copy assignment (between two
    objects), and the size of a pointer and a [size_t]. *)
#[export] Instance chain {T : Type} : Element (ForwardList_h.ForwardList T) :=
  {| T_default := ForwardList_h.default;
     assign := ForwardList_h.copy_assign;
     size_of := 16 |}.

Section Vector.
Context {T : Type} `{!Element T}.

(** [T*]: the address of a heap buffer, [None] for [nullptr]. *)
Definition ptr : Type := option N.
Definition nullptr : ptr := None.

(** [cells] is the content of the buffer [_data] points to, one entry per
    allocated cell (live or not); a null [_data] has no cells. *)
Record Vector : Type := mkVector {
  _data : ptr;
  cells : list T;
  currentSize : N;
  currentCapacity : N
}.

(** The class invariant every constructor and member function keeps. *)
Definition wf (v : Vector) : Prop :=
  N.of_nat (length (cells v)) = currentCapacity v
  /\ currentSize v <= currentCapacity v
  /\ (_data v = nullptr -> currentCapacity v = 0).

(** The element type is one whose assignment stores the value assigned, as
    the scalar types and the structs of scalars do. *)
Definition stores_value : Prop := forall old x : T, assign old x = x.

(** A cell of [new T[n]] after [cell = x]. *)
Definition fresh (x : T) : T := assign T_default x.

(** [Vector() = default]. *)
Definition default : Vector := mkVector nullptr [] 0 0.

(** [Vector(size, info)]: [new T[size]], then [_data[i] = info] for every
    cell; [a] is the address [new T[size]] returns when [size] is not
    zero. *)
Definition ctor (a : N) (size : N) (info : T) : Vector :=
  mkVector (if size =? 0 then nullptr else Some a)
           (replicate (N.to_nat size) (fresh info)) size size.

(** [_data[ndx]], the unchecked [operator[]]. *)
Definition index (v : Vector) (ndx : N) : result T :=
  match _data v with
  | None => Raise NullDeref
  | Some _ =>
      match cells v !! N.to_nat ndx with
      | Some x => Ok x
      | None => Raise OutOfBounds
      end
  end.

(** A member function applied to the element [_data[ndx]] in place. *)
Definition update (v : Vector) (ndx : N) (f : T -> T) : result Vector :=
  x <- index v ndx ;;
  Ok (mkVector (_data v) (<[N.to_nat ndx := f x]> (cells v))
               (currentSize v) (currentCapacity v)).

(** [at(index)]: the guard is [index > currentSize - 1] on [size_t]. *)
Definition at_ (v : Vector) (ndx : N) : result T :=
  if SizeT.sub (currentSize v) 1 <? ndx
  then Raise OutOfRange
  else index v ndx.

Definition empty (v : Vector) : bool := currentSize v =? 0.
Definition size (v : Vector) : N := currentSize v.
Definition capacity (v : Vector) : N := currentCapacity v.

(** [clear()]: [currentSize = 0], the buffer and its cells stay. *)
Definition clear (v : Vector) : Vector :=
  mkVector (_data v) (cells v) 0 (currentCapacity v).

Definition pop_back (v : Vector) : Vector :=
  if empty v then v
  else mkVector (_data v) (cells v) (SizeT.sub (currentSize v) 1)
                (currentCapacity v).

(** What the copy loops [_data[i] = other._data[i]] and
    [temp[i] = _data[i]], for [i < n], read: the first [n] cells of
    [other]. *)
Definition copy_cells (other : Vector) (n : N) : result (list T) :=
  if n =? 0 then Ok []
  else match _data other with
       | None => Raise NullDeref
       | Some _ =>
           if n <=? N.of_nat (length (cells other))
           then Ok (take (N.to_nat n) (cells other))
           else Raise OutOfBounds
       end.

(** [Vector(const Vector& other)]: the cells of the new buffer are made by
    [new T[currentCapacity]] and then assigned to; [a] is the address
    [new T[]] returns when the copy is not empty. *)
Definition copy_ctor (a : N) (other : Vector) : result Vector :=
  let sz := size other in
  cs <- copy_cells other sz ;;
  Ok (mkVector (if sz =? 0 then nullptr else Some a) (fresh <$> cs) sz sz).

(** [operator=(const Vector& other)]: the old buffer is released, then the
    same steps as the copy constructor.  What the assigned-to object held
    does not reach the result. *)
Definition copy_assign (a : N) (this other : Vector) : result Vector :=
  copy_ctor a other.

(** [operator=(Vector&& other)]: the new value of [*this] and of [other]. *)
Definition move_assign (this other : Vector) : Vector * Vector :=
  (mkVector (_data other) (cells other) (currentSize other)
            (currentCapacity other),
   mkVector nullptr [] 0 0).

(** [operator==]: [_data == rhs._data]. *)
Definition operator_eq (v rhs : Vector) : bool :=
  bool_decide (_data v = _data rhs).

Definition operator_ne (v rhs : Vector) : bool := negb (operator_eq v rhs).

(** [begin()] is [_data], [end()] is [_data + currentSize]: positions in one
    buffer are modelled by their offset from [_data]. *)
Definition begin (v : Vector) : N := 0.
Definition end_ (v : Vector) : N := currentSize v.

(** ** Growth, insertion and removal *)

(** The elements of the vector: the first [currentSize] cells. *)
Definition live (v : Vector) : list T :=
  take (N.to_nat (currentSize v)) (cells v).

(** [_data[ndx] = x]. *)
Definition write (v : Vector) (ndx : N) (x : T) : result Vector :=
  update v ndx (fun old => assign old x).

(** [front()] is [_data[0]], [back()] is [_data[currentSize - 1]]. *)
Definition front (v : Vector) : result T := index v 0.
Definition back (v : Vector) : result T :=
  index v (SizeT.sub (currentSize v) 1).

(** [increaseCapacity(cap)]; [a] is the address [new T[cap]] returns.  The
    cells of the new buffer are made by [new T[cap]]; the first
    [currentSize] of them are then assigned the elements,
    [temp[i] = _data[i]]. *)
Definition increaseCapacity (a : N) (cap : N) (v : Vector) : result Vector :=
  let cap := if cap =? 0 then 1 else cap in
  if currentCapacity v <? cap
  then
    cs <- copy_cells v (currentSize v) ;;
    if currentSize v <=? cap
    then Ok (mkVector (Some a)
               ((fresh <$> cs)
                ++ replicate (N.to_nat (cap - currentSize v)) T_default)
               (currentSize v) cap)
    else Raise OutOfBounds
  else Ok v.

(** [reserve(cap)]. *)
Definition reserve (a : N) (cap : N) (v : Vector) : result Vector :=
  if currentCapacity v <? cap then increaseCapacity a cap v else Ok v.

(** [shrink_to_fit()]; [new T[0]] returns an address too. *)
Definition shrink_to_fit (a : N) (v : Vector) : result Vector :=
  if currentSize v <? currentCapacity v
  then
    cs <- copy_cells v (currentSize v) ;;
    Ok (mkVector (Some a) (fresh <$> cs) (currentSize v) (currentSize v))
  else Ok v.

(** [push_back(value)]. *)
Definition push_back (a : N) (value : T) (v : Vector) : result Vector :=
  v1 <- (if currentCapacity v <=? currentSize v
         then increaseCapacity a (SizeT.mul 2 (currentCapacity v)) v
         else Ok v) ;;
  v2 <- write v1 (currentSize v1) value ;;
  Ok (mkVector (_data v2) (cells v2) (SizeT.add (currentSize v2) 1)
        (currentCapacity v2)).




(** The loop [while (ptr != end) { ptr[0] = ptr[1]; ptr++; }] of [erase];
    [ptr] and [last] are offsets from [_data], and [last], the offset of
    [back()], is -1 on an empty vector.  Every round moves [ptr] up and reads
    the cell after it, so the loop is over after at most as many rounds as
    there are cells. *)
Fixpoint erase_loop (rounds : nat) (ptr : N) (last : Z) (v : Vector)
  : result Vector :=
  if (Z.of_N ptr =? last)%Z then Ok v
  else match rounds with
       | O => Raise NoProgress
       | S r =>
           x <- index v (ptr + 1) ;;
           v' <- write v ptr x ;;
           erase_loop r (ptr + 1) last v'
       end.

(** [erase(pos)], [pos] an offset from [_data]: the vector afterwards and
    the returned position. *)
Definition erase (pos : N) (v : Vector) : result (Vector * N) :=
  let last := (Z.of_N (currentSize v) - 1)%Z in
  let isLast := (Z.of_N pos =? last)%Z in
  v' <- erase_loop (S (length (cells v))) pos last v ;;
  let v'' := mkVector (_data v') (cells v') (SizeT.sub (currentSize v') 1)
               (currentCapacity v') in
  Ok (v'', if isLast then end_ v'' else pos).

(** The address of the cell at offset [z] of the buffer at [d]: pointers
    to elements are compared by their addresses. *)
Definition address (d : ptr) (z : Z) : Z :=
  (match d with
   | None => 0
   | Some a => Z.of_N a
   end + z * Z.pos size_of)%Z.

(** [ptr[0]] for the offset [z] in the buffer of [v]. *)
Definition read (v : Vector) (z : Z) : result T :=
  if (z <? 0)%Z
  then match _data v with
       | None => Raise NullDeref
       | Some _ => Raise OutOfBounds
       end
  else index v (Z.to_N z).

(** The loop [while (ptr != end) { ptr[1] = ptr[0]; ptr--; }] of [insert];
    [ptr] is an offset in the buffer of [v], [stop] is the address [end]
    holds.  The loop hands back the offset it has left with.  Every round
    moves [ptr] down and reads the cell it points to, so the loop is over
    after at most [ptr + 2] rounds. *)
Fixpoint insert_loop (rounds : nat) (ptr : Z) (stop : Z) (v : Vector)
  : result (Vector * Z) :=
  if (address (_data v) ptr =? stop)%Z then Ok (v, ptr)
  else match rounds with
       | O => Raise NoProgress
       | S r =>
           x <- read v ptr ;;
           v' <- write v (Z.to_N (ptr + 1)) x ;;
           insert_loop r (ptr - 1)%Z stop v'
       end.

(** [insert(pos, value)], [pos] an offset from the [_data] of the call: the
    vector afterwards and the returned position.  [end] is computed from
    [pos], which points into the buffer the vector had when [insert] was
    called; [ptr] from the buffer it has after [increaseCapacity].  When the
    loop is left, [ptr] and [end] are the same address: [end[1] = value]
    writes the cell after [ptr], and [++end] is its position. *)
Definition insert (a : N) (pos : N) (value : T) (v : Vector)
  : result (Vector * N) :=
  let stop := address (_data v) (Z.of_N pos - 1) in
  v1 <- (if currentSize v =? currentCapacity v
         then increaseCapacity a (SizeT.mul 2 (currentCapacity v)) v
         else Ok v) ;;
  r <- insert_loop (S (N.to_nat (currentSize v1)))
         (Z.of_N (currentSize v1) - 1)%Z stop v1 ;;
  let '(v2, ptr) := r in
  v3 <- write v2 (Z.to_N (ptr + 1)) value ;;
  Ok (mkVector (_data v3) (cells v3) (SizeT.add (currentSize v3) 1)
        (currentCapacity v3), Z.to_N (ptr + 1)).

Lemma index_not_OutOfRange (v : Vector) (ndx : N) :
  index v ndx <> Raise OutOfRange.
Proof.
  unfold index. destruct (_data v); [|discriminate].
  destruct (cells v !! N.to_nat ndx); discriminate.
Qed.

(** On a vector that holds at least one element the guard of [at] is the
    range check. *)
Lemma at_nonempty (v : Vector) (ndx : N) :
  0 < currentSize v <= SizeT.max ->
  at_ v ndx = Raise OutOfRange <-> currentSize v <= ndx.
Proof.
  intros Hs. unfold at_. rewrite SizeT.sub_pos by exact Hs.
  destruct (N.ltb_spec (currentSize v - 1) ndx) as [Hlt|Hge].
  - split; [lia | reflexivity].
  - split; [|lia]. intros H. now apply index_not_OutOfRange in H.
Qed.

Lemma at_in_range (v : Vector) (ndx : N) :
  wf v -> currentSize v <= SizeT.max -> ndx < currentSize v ->
  exists x, at_ v ndx = Ok x /\ cells v !! N.to_nat ndx = Some x.
Proof.
  intros (Hlen & Hcap & Hnull) Hmax Hlt. unfold at_.
  rewrite SizeT.sub_pos by lia.
  destruct (N.ltb_spec (currentSize v - 1) ndx) as [?|_]; [lia|].
  unfold index. destruct (_data v) as [a|] eqn:Hd.
  - destruct (lookup_lt_is_Some_2 (cells v) (N.to_nat ndx)) as [x Hx]; [lia|].
    rewrite Hx. eauto.
  - specialize (Hnull eq_refl). lia.
Qed.

(** On a vector of size 0 the guard never fires, whatever the index. *)
Lemma at_empty_no_throw (v : Vector) (ndx : N) :
  currentSize v = 0 -> ndx <= SizeT.max -> at_ v ndx = index v ndx.
Proof.
  intros Hs Hn. unfold at_. rewrite Hs, SizeT.sub_zero_one.
  destruct (N.ltb_spec SizeT.max ndx); [lia | reflexivity].
Qed.

Lemma operator_eq_spec (v rhs : Vector) :
  operator_eq v rhs = true <-> _data v = _data rhs.
Proof. unfold operator_eq. apply bool_decide_eq_true. Qed.

Lemma copy_ctor_wf (a : N) (other : Vector) :
  wf other ->
  copy_ctor a other
  = Ok (mkVector (if size other =? 0 then nullptr else Some a)
                 (fresh <$> take (N.to_nat (size other)) (cells other))
                 (size other) (size other)).
Proof.
  intros (Hlen & Hcap & Hnull). unfold copy_ctor, copy_cells, size.
  destruct (N.eqb_spec (currentSize other) 0) as [Hz|Hnz]; simpl.
  - now rewrite Hz.
  - destruct (_data other) as [b|]; [|specialize (Hnull eq_refl); lia].
    destruct (N.leb_spec (currentSize other) (N.of_nat (length (cells other))));
      [reflexivity | lia].
Qed.

(** Where assignment stores the value, assigning a list of values to fresh
    cells gives the list. *)
Lemma fresh_values (l : list T) : stores_value -> fresh <$> l = l.
Proof.
  intros Hval. induction l as [|x l IH]; [reflexivity|].
  rewrite fmap_cons, IH. unfold fresh. now rewrite Hval.
Qed.

(** C10 (amended).  [==] compares the buffer addresses.  A copy-constructed
    or copy-assigned vector gets a buffer of its own when the source has
    elements and a null buffer when the source has none; so the copy compares
    unequal to its source exactly when the source has a buffer, in particular
    whenever the source is not empty, and equal when the source's buffer is
    null.  Each cell of the copy is a new [T] that was assigned the source's
    element, which is that element when assignment stores the value.  Two
    default-constructed vectors compare equal.  [a] is the address the
    allocation returns: it is not the address of the source's live
    buffer. *)
Theorem copy_compares_by_buffer (a : N) (this other : Vector)
    (Hwf : wf other) (Hfresh : _data other <> Some a) :
  (forall v rhs : Vector, operator_eq v rhs = true <-> _data v = _data rhs)
  /\ (exists w : Vector,
        copy_ctor a other = Ok w
        /\ copy_assign a this other = Ok w
        /\ cells w = fresh <$> take (N.to_nat (size other)) (cells other)
        /\ (stores_value ->
            cells w = take (N.to_nat (size other)) (cells other))
        /\ (operator_eq w other = false <-> _data other <> nullptr)
        /\ (0 < size other -> operator_eq w other = false))
  /\ operator_eq default default = true.
Proof.
  split; [exact operator_eq_spec|]. split; [|reflexivity].
  eexists. unfold copy_assign. rewrite copy_ctor_wf by exact Hwf.
  split; [reflexivity|]. split; [reflexivity|]. split; [reflexivity|].
  split; [intros Hval; simpl; now apply fresh_values|].
  destruct Hwf as (Hlen & Hcap & Hnull).
  assert (Hne : forall x y : Vector,
             operator_eq x y = false <-> _data x <> _data y).
  { intros x y. unfold operator_eq. apply bool_decide_eq_false. }
  unfold size in *. simpl.
  destruct (N.eqb_spec (currentSize other) 0) as [Hz|Hnz].
  - split; [|lia]. rewrite Hne. simpl. unfold nullptr. split; congruence.
  - assert (Hd : _data other <> nullptr).
    { intros Hd. specialize (Hnull Hd). lia. }
    assert (Hf : operator_eq
                   (mkVector (Some a)
                      (fresh <$> take (N.to_nat (currentSize other))
                                   (cells other))
                      (currentSize other) (currentSize other)) other = false).
    { apply Hne. simpl. congruence. }
    split; [|intros _; exact Hf].
    split; [intros _; exact Hd | intros _; exact Hf].
Qed.

Lemma index_wf (v : Vector) (ndx : N) :
  wf v -> ndx < currentCapacity v ->
  exists x, index v ndx = Ok x /\ cells v !! N.to_nat ndx = Some x.
Proof.
  intros (Hlen & _ & Hnull) Hlt. unfold index.
  destruct (_data v) as [b|]; [|specialize (Hnull eq_refl); lia].
  destruct (lookup_lt_is_Some_2 (cells v) (N.to_nat ndx)) as [x Hx]; [lia|].
  rewrite Hx. eauto.
Qed.

Lemma write_wf (v : Vector) (ndx : N) (x old : T) :
  wf v -> cells v !! N.to_nat ndx = Some old ->
  write v ndx x
  = Ok (mkVector (_data v) (<[N.to_nat ndx := assign old x]> (cells v))
          (currentSize v) (currentCapacity v)).
Proof.
  intros Hwf Hold. pose proof (lookup_lt_Some _ _ _ Hold) as Hlt.
  pose proof Hwf as (Hlen & _ & _).
  destruct (index_wf v ndx Hwf) as (y & Hy & Hc); [lia|].
  unfold write, update. rewrite Hy. simpl. congruence.
Qed.

Lemma wf_cells (v : Vector) (cs : list T) (sz : N) :
  wf v -> length cs = length (cells v) -> sz <= currentCapacity v ->
  wf (mkVector (_data v) cs sz (currentCapacity v)).
Proof.
  intros (Hlen & Hcap & Hnull) Hl Hsz. unfold wf. simpl.
  split; [lia|]. split; [exact Hsz | exact Hnull].
Qed.

Lemma copy_cells_live (v : Vector) :
  wf v -> copy_cells v (currentSize v) = Ok (live v).
Proof.
  intros (Hlen & Hcap & Hnull). unfold copy_cells, live.
  destruct (N.eqb_spec (currentSize v) 0) as [-> |Hnz]; [reflexivity|].
  destruct (_data v) as [b|]; [|specialize (Hnull eq_refl); lia].
  destruct (N.leb_spec (currentSize v) (N.of_nat (length (cells v))));
    [reflexivity | lia].
Qed.

Lemma live_length (v : Vector) :
  wf v -> length (live v) = N.to_nat (currentSize v).
Proof.
  intros (Hlen & Hcap & _). unfold live. rewrite length_take. lia.
Qed.

Lemma live_lookup (v : Vector) (i : nat) (x : T) :
  live v !! i = Some x ->
  cells v !! i = Some x /\ (i < N.to_nat (currentSize v))%nat.
Proof.
  unfold live. intros H. apply lookup_take_Some in H. exact H.
Qed.

(** [increaseCapacity] to a capacity above the current one; a request of 0
    is a request of 1. *)
Lemma increaseCapacity_grows (a cap : N) (v : Vector) :
  wf v -> currentCapacity v < N.max 1 cap ->
  exists v',
    increaseCapacity a cap v = Ok v'
    /\ _data v' = Some a
    /\ cells v'
       = (fresh <$> live v)
         ++ replicate (N.to_nat (N.max 1 cap - currentSize v)) T_default
    /\ currentSize v' = currentSize v
    /\ currentCapacity v' = N.max 1 cap
    /\ live v' = fresh <$> live v
    /\ wf v'.
Proof.
  intros Hwf Hlt. pose proof Hwf as (Hlen & Hcap & Hnull).
  unfold increaseCapacity.
  replace (if cap =? 0 then 1 else cap) with (N.max 1 cap)
    by (destruct (N.eqb_spec cap 0); lia).
  destruct (N.ltb_spec (currentCapacity v) (N.max 1 cap)) as [_|?]; [|lia].
  rewrite copy_cells_live by exact Hwf. simpl.
  destruct (N.leb_spec (currentSize v) (N.max 1 cap)) as [_|?]; [|lia].
  eexists. split; [reflexivity|]. simpl.
  split; [reflexivity|]. split; [reflexivity|]. split; [reflexivity|].
  split; [reflexivity|].
  pose proof (live_length v Hwf) as Hl. split.
  - unfold live at 1. simpl. rewrite <- Hl.
    rewrite <- (length_fmap fresh). now rewrite take_app_length.
  - unfold wf. simpl. rewrite length_app, length_replicate, length_fmap, Hl.
    split; [lia|]. split; [lia | discriminate].
Qed.

(** X6.  [reserve(cap)] never shrinks: the capacity afterwards is the larger
    of the old capacity and [cap], and the size is as before.  When it has
    to grow, the elements move to a new buffer, each as a new [T] that is
    assigned the old element; otherwise nothing is touched.  So where
    assignment stores the value the elements are as before. *)
Theorem reserve_keeps_elements (a cap : N) (v : Vector) (Hwf : wf v) :
  exists v',
    reserve a cap v = Ok v'
    /\ live v' = (if capacity v <? cap then fresh <$> live v else live v)
    /\ (stores_value -> live v' = live v)
    /\ size v' = size v
    /\ capacity v' = N.max (capacity v) cap
    /\ wf v'.
Proof.
  unfold reserve, size, capacity.
  destruct (N.ltb_spec (currentCapacity v) cap) as [Hlt|Hge].
  - destruct (increaseCapacity_grows a cap v Hwf)
      as (v' & -> & _ & _ & Hs & Hc & Hl & Hwf'); [lia|].
    exists v'. split; [reflexivity|]. split; [exact Hl|].
    split; [intros Hval; rewrite Hl; now apply fresh_values|].
    split; [exact Hs|]. split; [lia | exact Hwf'].
  - exists v. split; [reflexivity|]. split; [reflexivity|].
    split; [reflexivity|]. split; [reflexivity|]. split; [lia | exact Hwf].
Qed.

(** Writing the cell after the last element and counting it in. *)
Lemma append_cell (v : Vector) (x c : T) :
  wf v -> cells v !! N.to_nat (currentSize v) = Some c ->
  currentCapacity v <= SizeT.max ->
  exists v',
    (v2 <- write v (currentSize v) x ;;
     Ok (mkVector (_data v2) (cells v2) (SizeT.add (currentSize v2) 1)
           (currentCapacity v2))) = Ok v'
    /\ _data v' = _data v
    /\ live v' = live v ++ [assign c x]
    /\ currentSize v' = currentSize v + 1
    /\ currentCapacity v' = currentCapacity v
    /\ cells v' = <[N.to_nat (currentSize v) := assign c x]> (cells v)
    /\ wf v'.
Proof.
  intros Hwf Hc Hmax. pose proof Hwf as (Hlen & Hcap & Hnull).
  pose proof (lookup_lt_Some _ _ _ Hc) as Hlt.
  rewrite (write_wf v _ x c) by assumption. simpl. eexists.
  split; [reflexivity|].
  simpl. rewrite SizeT.add_small by lia.
  split; [reflexivity|]. split.
  - unfold live. simpl.
    replace (N.to_nat (currentSize v + 1)) with (S (N.to_nat (currentSize v)))
      by lia.
    rewrite (take_S_r _ _ (assign c x)) by (apply list_lookup_insert_eq; lia).
    now rewrite take_insert_ge by lia.
  - split; [reflexivity|]. split; [reflexivity|]. split; [reflexivity|].
    unfold wf. simpl. rewrite length_insert.
    split; [exact Hlen|]. split; [lia | exact Hnull].
Qed.

(** [push_back] on a vector whose capacity can be doubled.  [c] is what the
    cell that receives the value held: a cell of the old buffer when there
    was room, a [T()] of the new buffer otherwise. *)
Lemma push_back_wf (a : N) (x : T) (v : Vector) :
  wf v -> currentCapacity v * 2 <= SizeT.max ->
  exists v' c,
    push_back a x v = Ok v'
    /\ (if currentSize v <? currentCapacity v
        then cells v !! N.to_nat (currentSize v) = Some c
        else c = T_default)
    /\ live v'
       = (if currentSize v <? currentCapacity v then live v
          else fresh <$> live v) ++ [assign c x]
    /\ currentSize v' = currentSize v + 1
    /\ currentCapacity v'
       = (if currentSize v <? currentCapacity v then currentCapacity v
          else N.max 1 (2 * currentCapacity v))
    /\ _data v'
       = (if currentSize v <? currentCapacity v then _data v else Some a)
    /\ wf v'.
Proof.
  intros Hwf Hmax. pose proof Hwf as (Hlen & Hcap & Hnull). unfold push_back.
  destruct (N.ltb_spec (currentSize v) (currentCapacity v)) as [Hlt|Hge].
  - destruct (N.leb_spec (currentCapacity v) (currentSize v)) as [?|_]; [lia|].
    simpl.
    destruct (lookup_lt_is_Some_2 (cells v) (N.to_nat (currentSize v)))
      as [c Hc]; [lia|].
    destruct (append_cell v x c Hwf Hc)
      as (v' & -> & Hd & Hl & Hs & Hcc & _ & Hw); [lia|].
    exists v', c. split; [reflexivity|]. split; [exact Hc|].
    split; [exact Hl|]. split; [exact Hs|].
    split; [exact Hcc|]. split; [exact Hd | exact Hw].
  - destruct (N.leb_spec (currentCapacity v) (currentSize v)) as [_|?]; [|lia].
    rewrite SizeT.mul_small by lia.
    destruct (increaseCapacity_grows a (2 * currentCapacity v) v Hwf)
      as (v1 & -> & Hd1 & Hcs1 & Hs1 & Hc1 & Hl1 & Hwf1); [lia|].
    simpl.
    assert (Hc : cells v1 !! N.to_nat (currentSize v1) = Some T_default).
    { rewrite Hcs1, Hs1, lookup_app_r
        by (rewrite length_fmap, live_length by exact Hwf; lia).
      rewrite length_fmap, live_length, Nat.sub_diag by exact Hwf.
      apply lookup_replicate. split; [reflexivity | lia]. }
    destruct (append_cell v1 x T_default Hwf1 Hc)
      as (v' & -> & Hd & Hl & Hs & Hcc & _ & Hw);
      [unfold SizeT.max in *; lia|].
    exists v', T_default. split; [reflexivity|]. split; [reflexivity|].
    split; [now rewrite Hl, Hl1|].
    split; [lia|]. split; [lia|]. split; [congruence | exact Hw].
Qed.

(** X7.  [push_back(x)] appends: the cell after the last element is
    assigned [x] and counted in, so [back()] is that cell and [pop_back]
    gives the elements before it back.  A full vector grows first, to twice
    its capacity, or to capacity 1 from capacity 0: its elements move to a
    new buffer, each as a new [T] that is assigned the old element, and the
    cell that receives [x] is a [T()]; a vector with room keeps its buffer
    and its elements.  Where assignment stores the value, the elements
    afterwards are the old ones followed by [x]. *)
Theorem push_back_appends (a : N) (x : T) (v : Vector) (Hwf : wf v)
    (Hcap : currentCapacity v * 2 <= SizeT.max) :
  exists v' c,
    push_back a x v = Ok v'
    /\ (if size v <? capacity v
        then cells v !! N.to_nat (size v) = Some c
        else c = T_default)
    /\ live v'
       = (if size v <? capacity v then live v else fresh <$> live v)
         ++ [assign c x]
    /\ size v' = size v + 1
    /\ capacity v'
       = (if size v <? capacity v then capacity v
          else N.max 1 (2 * capacity v))
    /\ _data v' = (if size v <? capacity v then _data v else Some a)
    /\ wf v'
    /\ back v' = Ok (assign c x)
    /\ live (pop_back v')
       = (if size v <? capacity v then live v else fresh <$> live v)
    /\ (stores_value ->
        live v' = live v ++ [x] /\ back v' = Ok x
        /\ live (pop_back v') = live v).
Proof.
  destruct (push_back_wf a x v Hwf Hcap)
    as (v' & c & Hp & Hcell & Hl & Hs & Hc & Hd & Hw).
  exists v', c. unfold size, capacity.
  split; [exact Hp|]. split; [exact Hcell|]. split; [exact Hl|].
  split; [exact Hs|]. split; [exact Hc|]. split; [exact Hd|].
  split; [exact Hw|].
  pose proof Hwf as (Hlen & Hsc & _).
  pose proof (live_length v Hwf) as Hll.
  set (kept := if currentSize v <? currentCapacity v then live v
               else fresh <$> live v) in *.
  assert (Hk : length kept = N.to_nat (currentSize v)).
  { unfold kept. destruct (currentSize v <? currentCapacity v);
      [|rewrite length_fmap]; exact Hll. }
  assert (Hsub : SizeT.sub (currentSize v') 1 = currentSize v).
  { rewrite SizeT.sub_pos by (unfold SizeT.max in *; lia). lia. }
  assert (Hback : back v' = Ok (assign c x)).
  { unfold back. rewrite Hsub.
    assert (Hx : live v' !! N.to_nat (currentSize v) = Some (assign c x)).
    { rewrite Hl, lookup_app_r by lia. rewrite Hk, Nat.sub_diag. reflexivity. }
    apply live_lookup in Hx. destruct Hx as [Hx _].
    unfold index. destruct Hw as (Hlen' & _ & Hnull).
    destruct (_data v') as [b|].
    + now rewrite Hx.
    + apply lookup_lt_Some in Hx. specialize (Hnull eq_refl). lia. }
  assert (Hpop : live (pop_back v') = kept).
  { unfold pop_back, empty.
    destruct (N.eqb_spec (currentSize v') 0) as [?|_]; [lia|].
    unfold live at 1. simpl. rewrite Hsub.
    assert (Ht : take (N.to_nat (currentSize v)) (live v') = kept).
    { rewrite Hl, <- Hk. apply take_app_length. }
    rewrite <- Ht. unfold live. rewrite take_take. f_equal. lia. }
  split; [exact Hback|]. split; [exact Hpop|].
  intros Hval.
  assert (Hkv : kept = live v).
  { unfold kept. destruct (currentSize v <? currentCapacity v);
      [reflexivity | now apply fresh_values]. }
  rewrite Hback, Hpop, Hl, Hkv, Hval. auto.
Qed.







(** X10.  [shrink_to_fit()] leaves a capacity equal to the size.  When the
    capacity was above the size the elements move to a new buffer of that
    size, each as a new [T] that is assigned the old element; otherwise
    nothing is touched.  So where assignment stores the value the elements
    are as before. *)
Theorem shrink_to_fit_keeps_elements (a : N) (v : Vector) (Hwf : wf v) :
  exists v',
    shrink_to_fit a v = Ok v'
    /\ live v' = (if size v <? capacity v then fresh <$> live v else live v)
    /\ (stores_value -> live v' = live v)
    /\ size v' = size v
    /\ capacity v' = size v
    /\ wf v'.
Proof.
  pose proof Hwf as (Hlen & Hsc & Hnull).
  pose proof (live_length v Hwf) as Hll.
  unfold shrink_to_fit, size, capacity.
  destruct (N.ltb_spec (currentSize v) (currentCapacity v)) as [Hlt|Hge].
  - rewrite copy_cells_live by exact Hwf. simpl. eexists.
    split; [reflexivity|]. simpl.
    assert (Hl : live (mkVector (Some a) (fresh <$> live v) (currentSize v)
                         (currentSize v)) = fresh <$> live v).
    { unfold live at 1. simpl. apply take_ge. rewrite length_fmap. lia. }
    split; [exact Hl|].
    split; [intros Hval; rewrite Hl; now apply fresh_values|].
    split; [reflexivity|]. split; [reflexivity|]. unfold wf. simpl.
    rewrite length_fmap. split; [lia|]. split; [lia | discriminate].
  - exists v. split; [reflexivity|]. split; [reflexivity|].
    split; [reflexivity|].
    split; [reflexivity|]. split; [lia | exact Hwf].
Qed.

(** What the loop of [erase] leaves in the cells it runs over: each is
    assigned the one after it, [ptr[0] = ptr[1]]. *)
Definition shift_down (l : list T) : list T := zip_with assign l (drop 1 l).

(** What the loop of [insert] leaves in the cells after the one it stops
    at: each is assigned the one before it, [ptr[1] = ptr[0]]. *)
Definition shift_up (l : list T) : list T := zip_with assign (drop 1 l) l.

Lemma zip_assign_values (l k : list T) :
  stores_value -> zip_with assign l k = take (length l) k.
Proof.
  intros Hval. revert k. induction l as [|x l IH]; intros [|y k];
    try reflexivity.
  simpl. now rewrite IH, Hval.
Qed.

Lemma shift_down_values (l : list T) : stores_value -> shift_down l = drop 1 l.
Proof.
  intros Hval. unfold shift_down. rewrite zip_assign_values by exact Hval.
  apply take_ge. rewrite length_drop. lia.
Qed.

Lemma shift_up_values (l : list T) :
  stores_value -> shift_up l = take (length l - 1) l.
Proof.
  intros Hval. unfold shift_up. rewrite zip_assign_values by exact Hval.
  now rewrite length_drop.
Qed.

(** The loop of [erase] over the cells from [ptr] to the last element, [l]
    and then [c]. *)
Lemma erase_loop_shifts (l : list T) (c : T) :
  forall (v : Vector) (pre post : list T) (last : Z) (rounds : nat),
    wf v -> cells v = pre ++ (l ++ [c]) ++ post ->
    last = Z.of_nat (length pre + length l) -> (length l < rounds)%nat ->
    erase_loop rounds (N.of_nat (length pre)) last v
    = Ok (mkVector (_data v) (pre ++ (shift_down (l ++ [c]) ++ [c]) ++ post)
            (currentSize v) (currentCapacity v)).
Proof.
  induction l as [|x l IH]; intros v pre post last rounds Hwf Hcs Hlast Hr;
    pose proof Hwf as (Hlen & Hsc & Hnull);
    destruct rounds as [|r]; try (simpl in Hr; lia); simpl erase_loop.
  - destruct (Z.eqb_spec (Z.of_N (N.of_nat (length pre))) last) as [_|Hne];
      [|simpl in Hlast; lia].
    unfold shift_down. simpl. simpl in Hcs. rewrite <- Hcs. now destruct v.
  - destruct (Z.eqb_spec (Z.of_N (N.of_nat (length pre))) last) as [He|_];
      [simpl in Hlast; lia|].
    assert (Hne : exists y rest, l ++ [c] = y :: rest)
      by (destruct l; simpl; eauto).
    destruct Hne as (y & rest & El).
    assert (Hx : cells v !! length pre = Some x).
    { rewrite Hcs, lookup_app_r by lia. rewrite Nat.sub_diag. reflexivity. }
    assert (Hy : cells v !! S (length pre) = Some y).
    { rewrite Hcs, lookup_app_r by lia.
      replace (S (length pre) - length pre)%nat with 1%nat by lia.
      simpl. rewrite El. reflexivity. }
    unfold index.
    destruct (_data v) as [b|] eqn:Hd;
      [|apply lookup_lt_Some in Hx; specialize (Hnull eq_refl); lia].
    replace (N.to_nat (N.of_nat (length pre) + 1)) with (S (length pre))
      by lia.
    rewrite Hy. cbn [bind].
    rewrite (write_wf v _ y x) by (rewrite ?Nat2N.id; assumption).
    cbn [bind]. rewrite Nat2N.id.
    replace (N.of_nat (length pre) + 1)
      with (N.of_nat (length (pre ++ [assign x y])))
      by (rewrite length_app; simpl; lia).
    assert (Hcs1 : <[length pre := assign x y]> (cells v)
                   = (pre ++ [assign x y]) ++ (l ++ [c]) ++ post).
    { rewrite Hcs.
      replace (length pre) with (length pre + 0)%nat at 1 by lia.
      rewrite insert_app_r. rewrite <- (app_assoc pre). reflexivity. }
    rewrite (IH _ (pre ++ [assign x y]) post last r).
    + simpl. rewrite Hd. do 2 f_equal.
      unfold shift_down. simpl. rewrite El. simpl.
      now rewrite <- app_assoc.
    + apply (wf_cells v); [exact Hwf | apply length_insert | exact Hsc].
    + exact Hcs1.
    + rewrite length_app. simpl in *. lia.
    + simpl in Hr. lia.
Qed.

(** The loop of [erase] from a position after the last element does not
    meet it inside the buffer: it reads the cell after the last cell of the
    buffer. *)
Lemma erase_loop_reads_past (rounds : nat) (v : Vector) (ptr : N) (last : Z) :
  wf v -> (last < Z.of_N ptr)%Z ->
  (length (cells v) <= N.to_nat ptr + rounds)%nat -> (1 <= rounds)%nat ->
  erase_loop rounds ptr last v
  = Raise (match _data v with None => NullDeref | Some _ => OutOfBounds end).
Proof.
  revert v ptr. induction rounds as [|r IH]; intros v ptr Hwf Hlast Hlen Hr;
    [lia|].
  pose proof Hwf as (Hl & Hsc & Hnull). simpl erase_loop.
  destruct (Z.eqb_spec (Z.of_N ptr) last) as [?|_]; [lia|].
  destruct (N.lt_ge_cases (ptr + 1) (currentCapacity v)) as [Hin|Hout].
  - destruct (index_wf v (ptr + 1) Hwf Hin) as (x & -> & _). simpl.
    destruct (lookup_lt_is_Some_2 (cells v) (N.to_nat ptr)) as [c Hc]; [lia|].
    rewrite (write_wf v ptr x c) by assumption. simpl.
    match goal with
    | |- erase_loop _ _ _ ?v' = _ => pose proof (IH v' (ptr + 1)) as IH'
    end.
    simpl in IH'. apply IH'; try lia.
    + apply (wf_cells v); [exact Hwf | apply length_insert | exact Hsc].
    + rewrite length_insert. lia.
  - unfold index. destruct (_data v) as [b|]; [|reflexivity].
    rewrite lookup_ge_None_2 by lia. reflexivity.
Qed.

(** X11.  [erase(pos)] at the position of an element: the elements before
    it stay; each cell from [pos] up to the last but one is assigned the
    element after it; the size goes down by one, the buffer and the
    capacity stay, and the returned position is [pos], which is [end()]
    when the last element was erased.  Where assignment stores the value,
    the elements afterwards are the old ones without the one at [pos]. *)
Theorem erase_removes_element (pos : N) (v : Vector) (Hwf : wf v)
    (Hpos : pos < size v) (Hmax : size v <= SizeT.max) :
  exists v',
    erase pos v = Ok (v', pos)
    /\ live v'
       = take (N.to_nat pos) (live v)
         ++ shift_down (drop (N.to_nat pos) (live v))
    /\ (stores_value ->
        live v'
        = take (N.to_nat pos) (live v) ++ drop (S (N.to_nat pos)) (live v))
    /\ size v' = size v - 1
    /\ capacity v' = capacity v
    /\ _data v' = _data v
    /\ wf v'
    /\ (pos = size v - 1 -> pos = end_ v').
Proof.
  pose proof Hwf as (Hlen & Hsc & Hnull). unfold size, capacity in *.
  pose proof (live_length v Hwf) as Hll.
  set (p := N.to_nat pos). set (n := N.to_nat (currentSize v)).
  assert (Hrun : exists l c, drop p (live v) = l ++ [c]).
  { destruct (drop p (live v)) as [|z L] eqn:E using rev_ind.
    - apply (f_equal length) in E. rewrite length_drop in E.
      simpl in E. unfold p in E. lia.
    - eauto. }
  destruct Hrun as (l & c & Hrun).
  assert (Hl : (p + length l + 1 = n)%nat).
  { apply (f_equal length) in Hrun.
    rewrite length_drop, length_app in Hrun. simpl in Hrun.
    unfold p, n in *. lia. }
  assert (Hcs : cells v = take p (live v) ++ (l ++ [c]) ++ drop n (cells v)).
  { rewrite <- Hrun, app_assoc, take_drop. unfold live. fold n.
    now rewrite take_drop. }
  assert (Hpre : length (take p (live v)) = p).
  { rewrite length_take. unfold p. lia. }
  unfold erase.
  pose proof (erase_loop_shifts l c v (take p (live v)) (drop n (cells v))
                (Z.of_N (currentSize v) - 1) (S (length (cells v))) Hwf Hcs)
    as Hloop.
  rewrite Hpre in Hloop. unfold p in Hloop at 2. rewrite N2Nat.id in Hloop.
  rewrite Hloop by (unfold n in *; lia). cbn [bind]. simpl.
  rewrite SizeT.sub_pos by lia.
  assert (Hret : (if (Z.of_N pos =? Z.of_N (currentSize v) - 1)%Z
                  then currentSize v - 1 else pos) = pos).
  { destruct (Z.eqb_spec (Z.of_N pos) (Z.of_N (currentSize v) - 1)); lia. }
  unfold end_ at 1. simpl. rewrite Hret.
  eexists. split; [reflexivity|]. simpl.
  assert (Hsd : length (shift_down (l ++ [c])) = length l).
  { unfold shift_down. rewrite length_zip_with, length_drop, length_app.
    simpl. lia. }
  assert (Hlive : live (mkVector (_data v)
                          (take p (live v)
                           ++ (shift_down (l ++ [c]) ++ [c])
                           ++ drop n (cells v))
                          (currentSize v - 1) (currentCapacity v))
                  = take p (live v) ++ shift_down (l ++ [c])).
  { unfold live at 1. simpl. rewrite <- !app_assoc, app_assoc.
    apply take_app_length'. rewrite length_app, Hpre, Hsd.
    unfold n in *. lia. }
  split; [rewrite Hlive, Hrun; reflexivity|].
  split.
  { intros Hval. rewrite Hlive, <- Hrun, shift_down_values by exact Hval.
    rewrite drop_drop. f_equal. f_equal. lia. }
  split; [reflexivity|]. split; [reflexivity|]. split; [reflexivity|].
  split; [|unfold end_; simpl; lia].
  unfold wf. simpl.
  rewrite !length_app, Hpre, Hsd, length_drop. simpl.
  split; [unfold n in *; lia|]. split; [lia | exact Hnull].
Qed.

(** X12.  [erase] at [end()], or at any position from the size on (every
    position of an empty vector), reads outside the buffer: the loop that
    moves the elements down starts after the last element, so it never
    meets it, and goes on to read the cell after the last cell of the
    buffer (through the null pointer when the vector has no buffer). *)
Theorem erase_at_end_reads_past_buffer (pos : N) (v : Vector) (Hwf : wf v)
    (Hpos : size v <= pos) :
  erase pos v
  = Raise (match _data v with None => NullDeref | Some _ => OutOfBounds end).
Proof.
  unfold erase, size in *.
  rewrite erase_loop_reads_past; [reflexivity | exact Hwf | lia | lia | lia].
Qed.

Lemma address_inj (d : ptr) (z z' : Z) :
  address d z = address d z' -> z = z'.
Proof. unfold address. nia. Qed.

(** The loop of [insert] when [end] points into the buffer of the vector,
    over the cells from [pos] to the last element, [l], and the cell [t]
    after it. *)
Lemma insert_loop_shifts (l : list T) :
  forall (v : Vector) (pre post : list T) (t : T) (rounds : nat),
    wf v -> cells v = pre ++ (l ++ [t]) ++ post ->
    (length l < rounds)%nat ->
    insert_loop rounds (Z.of_nat (length pre + length l) - 1)
      (address (_data v) (Z.of_nat (length pre) - 1)) v
    = Ok (mkVector (_data v)
            (pre ++ (take 1 (l ++ [t]) ++ shift_up (l ++ [t])) ++ post)
            (currentSize v) (currentCapacity v),
          (Z.of_nat (length pre) - 1)%Z).
Proof.
  induction l as [|c l IH] using rev_ind;
    intros v pre post t rounds Hwf Hcs Hr;
    pose proof Hwf as (Hlen & Hsc & Hnull);
    destruct rounds as [|r]; try (rewrite ?length_app in Hr; simpl in Hr; lia);
    simpl insert_loop.
  - rewrite Nat.add_0_r, Z.eqb_refl. unfold shift_up. simpl.
    simpl in Hcs. rewrite <- Hcs. now destruct v.
  - rewrite length_app in *. simpl length in *.
    destruct (Z.eqb_spec
                (address (_data v)
                   (Z.of_nat (length pre + (length l + 1)) - 1))
                (address (_data v) (Z.of_nat (length pre) - 1))) as [E|_];
      [apply address_inj in E; lia|].
    set (m := (length pre + length l)%nat).
    assert (Hc : cells v !! m = Some c).
    { rewrite Hcs, lookup_app_r by (unfold m; lia).
      rewrite <- !app_assoc, lookup_app_r by (unfold m; lia).
      replace (m - length pre - length l)%nat with O by (unfold m; lia).
      reflexivity. }
    assert (Ht : cells v !! S m = Some t).
    { rewrite Hcs, lookup_app_r by (unfold m; lia).
      rewrite <- !app_assoc, lookup_app_r by (unfold m; lia).
      replace (S m - length pre - length l)%nat with 1%nat by (unfold m; lia).
      reflexivity. }
    replace (Z.of_nat (length pre + (length l + 1)) - 1)%Z with (Z.of_nat m)
      by (unfold m; lia).
    unfold read. destruct (Z.ltb_spec (Z.of_nat m) 0) as [?|_]; [lia|].
    unfold index.
    destruct (_data v) as [b|] eqn:Hd;
      [|apply lookup_lt_Some in Hc; specialize (Hnull eq_refl); lia].
    replace (N.to_nat (Z.to_N (Z.of_nat m))) with m by lia.
    rewrite Hc. cbn [bind].
    rewrite (write_wf v _ c t)
      by (assumption
          || (replace (N.to_nat (Z.to_N (Z.of_nat m + 1))) with (S m) by lia;
              exact Ht)).
    cbn [bind].
    replace (N.to_nat (Z.to_N (Z.of_nat m + 1))) with (S m) by lia.
    assert (Hcs1 : <[S m := assign t c]> (cells v)
                   = pre ++ (l ++ [c]) ++ assign t c :: post).
    { rewrite Hcs, !app_assoc.
      replace (S m) with (length (((pre ++ l) ++ [c])) + 0)%nat
        by (rewrite !length_app; simpl; unfold m; lia).
      rewrite <- (app_assoc _ [t] post). rewrite insert_app_r. reflexivity. }
    pose proof (IH (mkVector (Some b) (<[S m := assign t c]> (cells v))
                      (currentSize v) (currentCapacity v))
                  pre (assign t c :: post) c r) as IH'.
    simpl in IH'.
    replace (Z.of_nat m - 1)%Z with (Z.of_nat (length pre + length l) - 1)%Z
      by (unfold m; lia).
    rewrite Hd, IH'.
    + do 3 f_equal.
      assert (Hne : exists y rest, l ++ [c] = y :: rest).
      { destruct l; simpl; eauto. }
      destruct Hne as (y & rest & El).
      assert (Hrest : length rest = length l).
      { apply (f_equal length) in El. rewrite length_app in El.
        simpl in El. lia. }
      assert (E : zip_with assign (rest ++ [t]) ((y :: rest) ++ [t])
                  = zip_with assign rest (y :: rest) ++ [assign t c]).
      { rewrite <- El.
        assert (E1 : zip_with assign rest (l ++ [c])
                     = zip_with assign rest l).
        { rewrite <- (app_nil_r rest) at 1.
          rewrite zip_with_app by exact Hrest.
          simpl. now rewrite app_nil_r. }
        rewrite E1, <- app_assoc, zip_with_app by exact Hrest.
        reflexivity. }
      rewrite El. unfold shift_up.
      change (drop 1 ((y :: rest) ++ [t])) with (rest ++ [t]).
      change (drop 1 (y :: rest)) with rest.
      rewrite E. simpl. rewrite <- !app_assoc. reflexivity.
    + rewrite <- Hd.
      apply (wf_cells v); [exact Hwf | apply length_insert | exact Hsc].
    + exact Hcs1.
    + lia.
Qed.

(** The loop of [insert] when it meets [end] at no cell of the buffer and
    not at the position before the buffer either: it reads the cell before
    the buffer. *)
Lemma insert_loop_reads_before (rounds : nat) (v : Vector) (ptr stop : Z) :
  wf v -> _data v <> nullptr ->
  (forall z, (-1 <= z <= ptr)%Z -> address (_data v) z <> stop) ->
  (-1 <= ptr)%Z -> (ptr + 1 < Z.of_N (currentCapacity v))%Z ->
  (ptr + 1 < Z.of_nat rounds)%Z ->
  insert_loop rounds ptr stop v = Raise OutOfBounds.
Proof.
  revert v ptr. induction rounds as [|r IH];
    intros v ptr Hwf Hnn Hne Hlo Hhi Hr; [lia|].
  pose proof Hwf as (Hlen & Hsc & Hnull). simpl insert_loop.
  destruct (Z.eqb_spec (address (_data v) ptr) stop) as [E|_];
    [now apply Hne in E; [|lia]|].
  unfold read. destruct (Z.ltb_spec ptr 0) as [Hneg|Hpos].
  - destruct (_data v); [reflexivity | now destruct Hnn].
  - destruct (index_wf v (Z.to_N ptr) Hwf) as (x & -> & _); [lia|].
    simpl.
    destruct (lookup_lt_is_Some_2 (cells v) (N.to_nat (Z.to_N (ptr + 1))))
      as [c Hc]; [lia|].
    rewrite (write_wf v _ x c) by assumption. simpl.
    match goal with
    | |- insert_loop _ _ _ ?v' = _ => pose proof (IH v' (ptr - 1)%Z) as IH'
    end.
    simpl in IH'. apply IH'; try (assumption || lia).
    + apply (wf_cells v); [exact Hwf | apply length_insert | exact Hsc].
    + intros z Hz. apply Hne. lia.
Qed.

(** X13.  [insert(pos, value)] into a vector that has room (its size is
    below its capacity), at a position up to [end()]: the elements before
    [pos] stay; every cell after [pos], up to the one after the last
    element, is assigned the cell before it; the cell at [pos] is then
    assigned [value]; the size goes up by one, the buffer stays, and the
    returned position is [pos].  Where assignment stores the value, the
    elements afterwards are the old ones with [value] put in at [pos]. *)
Theorem insert_with_room (a pos : N) (value : T) (v : Vector)
    (Hwf : wf v) (Hroom : size v < capacity v) (Hpos : pos <= size v)
    (Hmax : capacity v <= SizeT.max) :
  exists v' c,
    insert a pos value v = Ok (v', pos)
    /\ cells v !! N.to_nat pos = Some c
    /\ live v'
       = take (N.to_nat pos) (live v)
         ++ assign c value
            :: shift_up (drop (N.to_nat pos)
                           (take (S (N.to_nat (size v))) (cells v)))
    /\ (stores_value ->
        live v'
        = take (N.to_nat pos) (live v) ++ value :: drop (N.to_nat pos) (live v))
    /\ size v' = size v + 1
    /\ capacity v' = capacity v
    /\ _data v' = _data v
    /\ wf v'.
Proof.
  pose proof Hwf as (Hlen & Hsc & Hnull). unfold size, capacity in *.
  pose proof (live_length v Hwf) as Hll.
  set (p := N.to_nat pos) in *. set (n := N.to_nat (currentSize v)) in *.
  destruct (lookup_lt_is_Some_2 (cells v) n) as [t Ht]; [unfold n; lia|].
  set (pre := take p (live v)). set (l := drop p (live v)).
  set (post := drop (S n) (cells v)).
  assert (Hpre : length pre = p).
  { unfold pre. rewrite length_take. unfold p, n in *. lia. }
  assert (Hl : length l = (n - p)%nat).
  { unfold l. rewrite length_drop. unfold n. lia. }
  assert (Hrun : take (S n) (cells v) = pre ++ l ++ [t]).
  { rewrite (take_S_r _ _ t Ht). unfold pre, l. fold n.
    rewrite app_assoc, take_drop. reflexivity. }
  assert (Hcs : cells v = pre ++ (l ++ [t]) ++ post).
  { rewrite app_assoc, <- Hrun. unfold post. now rewrite take_drop. }
  assert (Hc : exists c rest, l ++ [t] = c :: rest
                              /\ cells v !! p = Some c).
  { destruct (l ++ [t]) as [|c rest] eqn:E; [now destruct l|].
    exists c, rest. split; [reflexivity|].
    rewrite Hcs, lookup_app_r by lia.
    rewrite Hpre, Nat.sub_diag. reflexivity. }
  destruct Hc as (c & rest & Ec & Hc).
  unfold insert.
  destruct (N.eqb_spec (currentSize v) (currentCapacity v)) as [?|_]; [lia|].
  cbn [bind].
  pose proof (insert_loop_shifts l v pre post t (S (N.to_nat (currentSize v)))
                Hwf Hcs) as Hloop.
  rewrite Hpre, Hl in Hloop.
  replace (Z.of_nat (p + (n - p)) - 1)%Z
    with (Z.of_N (currentSize v) - 1)%Z in Hloop by (unfold p, n in *; lia).
  replace (Z.of_nat p - 1)%Z with (Z.of_N pos - 1)%Z in Hloop
    by (unfold p; lia).
  rewrite Hloop by (unfold n; lia). cbn [bind].
  replace (Z.to_N (Z.of_N pos - 1 + 1)) with pos by lia.
  set (cs := pre ++ (take 1 (l ++ [t]) ++ shift_up (l ++ [t])) ++ post).
  assert (Hsu : length (shift_up (l ++ [t])) = length l).
  { unfold shift_up. rewrite length_zip_with, length_drop, length_app.
    simpl. lia. }
  assert (Hcsl : length cs = length (cells v)).
  { unfold cs. rewrite Hcs, !length_app, Hsu, length_take, length_app.
    cbn [length]. lia. }
  assert (Hw : wf (mkVector (_data v) cs (currentSize v) (currentCapacity v)))
    by (apply (wf_cells v); assumption).
  assert (Hcp : cs !! N.to_nat pos = Some c).
  { unfold cs. fold p. rewrite lookup_app_r by lia.
    rewrite Hpre, Nat.sub_diag, Ec. reflexivity. }
  rewrite (write_wf _ pos value c Hw Hcp). cbn [bind]. simpl.
  rewrite SizeT.add_small by lia.
  eexists _, c. split; [reflexivity|]. split; [exact Hc|]. simpl.
  assert (Hlive : live (mkVector (_data v) (<[N.to_nat pos := assign c value]> cs)
                          (currentSize v + 1) (currentCapacity v))
                  = pre ++ assign c value :: shift_up (l ++ [t])).
  { unfold live. simpl. unfold cs. fold p.
    replace p with (length pre + 0)%nat at 1 by lia.
    rewrite insert_app_r, Ec. simpl.
    change (pre ++ assign c value :: shift_up (c :: rest) ++ post)
      with (pre ++ (assign c value :: shift_up (c :: rest)) ++ post).
    rewrite app_assoc. apply take_app_length'.
    rewrite length_app. simpl. rewrite <- Ec, Hsu. unfold p, n in *. lia. }
  split; [rewrite Hlive, Hrun, drop_app_length' by (symmetry; exact Hpre);
          reflexivity|].
  split.
  { intros Hval. rewrite Hlive, Hval, shift_up_values by exact Hval.
    rewrite length_app. simpl.
    replace (length l + 1 - 1)%nat with (length l) by lia.
    now rewrite take_app_length. }
  split; [reflexivity|]. split; [reflexivity|]. split; [reflexivity|].
  unfold wf. simpl. rewrite length_insert, Hcsl.
  split; [exact Hlen|]. split; [lia | exact Hnull].
Qed.

(** The buffer of [n] cells at address [a] and the buffer of [m] cells at
    address [b] do not overlap. *)
Definition apart (a n b m : N) : Prop :=
  (address (Some a) (Z.of_N n) <= Z.of_N b
   \/ address (Some b) (Z.of_N m) <= Z.of_N a)%Z.

(** X14.  [insert] into a vector whose size equals its capacity (any vector
    the fill or the copy constructor has built, a vector [push_back] has
    just filled up) grows the vector first, into a new buffer, and computes
    [end] from [pos], which points into the released one.  The new buffer
    is allocated while the old one is live, so the two do not overlap: the
    loop that moves the elements up meets [end] at no cell of the new
    buffer and reads the cell before it, outside the buffer.  [pos] is taken
    not to be the address of the new buffer, which it is only as [end()] of
    a released buffer that ends where the new one begins. *)
Theorem insert_when_full_reads_before_buffer (a pos old : N) (value : T)
    (v : Vector) (Hwf : wf v) (Hfull : size v = capacity v)
    (Hcap : 1 <= capacity v) (Hmax : capacity v * 2 <= SizeT.max)
    (Hpos : pos <= size v) (Hold : _data v = Some old)
    (Hapart : apart a (2 * capacity v) old (capacity v))
    (Hgap : address (_data v) (Z.of_N pos) <> Z.of_N a) :
  insert a pos value v = Raise OutOfBounds.
Proof.
  pose proof Hwf as (Hlen & Hsc & Hnull). unfold size, capacity in *.
  unfold insert. rewrite Hfull, N.eqb_refl.
  rewrite SizeT.mul_small by lia.
  destruct (increaseCapacity_grows a (2 * currentCapacity v) v Hwf)
    as (v1 & -> & Hd1 & _ & Hs1 & Hc1 & _ & Hw1); [lia|].
  cbn [bind].
  rewrite insert_loop_reads_before; [reflexivity | exact Hw1 | | | | |].
  - rewrite Hd1. discriminate.
  - intros z Hz. rewrite Hd1, Hold. unfold apart, address in *.
    rewrite Hold in Hgap. set (s := Z.pos size_of) in *.
    assert (Hs : (0 < s)%Z) by (unfold s; lia).
    assert (Hp : (Z.of_N pos * s <= Z.of_N (currentCapacity v) * s)%Z)
      by (apply Z.mul_le_mono_nonneg_r; lia).
    assert (Hz1 : (0 <= (z + 1) * s <= Z.of_N (currentCapacity v) * s)%Z).
    { split; [apply Z.mul_nonneg_nonneg; lia|].
      apply Z.mul_le_mono_nonneg_r; lia. }
    assert (Hz2 : (0 <= z -> s <= (z + 1) * s)%Z) by nia.
    assert (Hc2 : (Z.of_N (2 * currentCapacity v) * s
                   = 2 * (Z.of_N (currentCapacity v) * s))%Z) by lia.
    assert (Hcs : (s <= Z.of_N (currentCapacity v) * s)%Z) by nia.
    replace ((Z.of_N pos - 1) * s)%Z with (Z.of_N pos * s - s)%Z by lia.
    replace (z * s)%Z with ((z + 1) * s - s)%Z by lia.
    destruct (Z.eq_dec z (-1)%Z) as [-> |Hz0].
    + replace ((-1 + 1) * s)%Z with 0%Z by lia. lia.
    + specialize (Hz2 ltac:(lia)). lia.
  - lia.
  - lia.
  - lia.
Qed.

(** X15.  [Vector(n, x)] makes a buffer of exactly [n] cells (no buffer at
    all when [n] is 0) and assigns [x] to each: every element is a new [T]
    that was assigned [x], which [at(i)] returns for every index below [n];
    when [n] is not 0, [at(i)] throws for every index from [n] on.  Where
    assignment stores the value the elements are [n] copies of [x]. *)
Theorem ctor_holds_copies (a n : N) (x : T) (Hn : n <= SizeT.max) :
  wf (ctor a n x)
  /\ live (ctor a n x) = replicate (N.to_nat n) (fresh x)
  /\ size (ctor a n x) = n
  /\ capacity (ctor a n x) = n
  /\ (forall i, i < n -> at_ (ctor a n x) i = Ok (fresh x))
  /\ (forall i, 0 < n <= i -> at_ (ctor a n x) i = Raise OutOfRange)
  /\ (_data (ctor a n x) = nullptr <-> n = 0)
  /\ (stores_value ->
      live (ctor a n x) = replicate (N.to_nat n) x
      /\ forall i, i < n -> at_ (ctor a n x) i = Ok x).
Proof.
  assert (Hwf : wf (ctor a n x)).
  { unfold wf, ctor. simpl. rewrite length_replicate.
    split; [lia|]. split; [lia|].
    destruct (N.eqb_spec n 0); [easy | discriminate]. }
  assert (Hlive : live (ctor a n x) = replicate (N.to_nat n) (fresh x)).
  { unfold live, ctor. simpl. apply take_ge. rewrite length_replicate. lia. }
  assert (Hat : forall i, i < n -> at_ (ctor a n x) i = Ok (fresh x)).
  { intros i Hi.
    destruct (at_in_range (ctor a n x) i Hwf Hn Hi) as (y & -> & Hy).
    simpl in Hy. apply lookup_replicate in Hy. destruct Hy as [-> _].
    reflexivity. }
  split; [exact Hwf|]. split; [exact Hlive|].
  split; [reflexivity|]. split; [reflexivity|]. split; [exact Hat|].
  split; [|split].
  - intros i [Hpos Hge]. apply at_nonempty; [simpl; lia | exact Hge].
  - unfold ctor. simpl. destruct (N.eqb_spec n 0) as [-> |Hne].
    + split; reflexivity.
    + split; [discriminate | contradiction].
  - intros Hval. assert (Hx : fresh x = x) by apply Hval.
    rewrite Hlive, Hx. split; [reflexivity|].
    intros i Hi. rewrite Hat by exact Hi. now rewrite Hx.
Qed.

End Vector.
Arguments Vector T : clear implicits.


(** A [ForwardList] is not: the vector of two lists that
    [Vector<ForwardList<size_t>>(2, l)] builds from the list 1, 2, 3 holds
    the list 3, 2, 1 twice, and a reallocation turns each around again. *)
Lemma chain_elements_are_reversed :
  let l := ForwardList_h.mkList [1; 2; 3] 3 in
  let r := ForwardList_h.mkList [3; 2; 1] 3 in
  cells (ctor 5 2 l) = [r; r]
  /\ (exists v, reserve 9 4 (ctor 5 2 l) = Ok v /\ live v = [l; l])
  /\ ~ @stores_value (ForwardList_h.ForwardList N) _.
Proof.
  split; [reflexivity|]. split; [eexists; split; reflexivity|].
  intros H.
  specialize (H ForwardList_h.default (ForwardList_h.mkList [1; 2] 2)).
  discriminate H.
Qed.

(** Witness for C10: a three-element vector at address 5 copied to address 9. *)
Lemma copy_compares_by_buffer_witness :
  wf (ctor 5 3 7)
  /\ _data (ctor 5 3 7) <> Some 9
  /\ (forall v rhs : Vector N, operator_eq v rhs = true <-> _data v = _data rhs)
  /\ (exists w : Vector N,
        copy_ctor 9 (ctor 5 3 7) = Ok w
        /\ copy_assign 9 default (ctor 5 3 7) = Ok w
        /\ cells w
           = fresh <$> take (N.to_nat (size (ctor 5 3 7))) (cells (ctor 5 3 7))
        /\ (@stores_value N _ ->
            cells w
            = take (N.to_nat (size (ctor 5 3 7))) (cells (ctor 5 3 7)))
        /\ (operator_eq w (ctor 5 3 7) = false
            <-> _data (ctor 5 3 7) <> nullptr)
        /\ (0 < size (ctor 5 3 7) -> operator_eq w (ctor 5 3 7) = false))
  /\ operator_eq (@default N) default = true.
Proof.
  assert (H1 : wf (ctor 5 3 7))
    by (unfold wf; simpl; repeat split; [lia | discriminate]).
  assert (H2 : _data (ctor 5 3 7) <> Some 9) by (simpl; discriminate).
  split; [exact H1|]. split; [exact H2|].
  exact (copy_compares_by_buffer 9 default (ctor 5 3 7) H1 H2).
Defined.

(** C10 as stated fails on a source without a buffer: the copy of a
    default-constructed vector (by constructor or by assignment) holds the
    same, empty, sequence and compares equal to its source. *)
Lemma copy_of_null_source_compares_equal :
  exists w : Vector N,
    copy_ctor 1 default = Ok w
    /\ copy_assign 1 (ctor 2 1 7) default = Ok w
    /\ cells w = cells default
    /\ operator_eq w default = true.
Proof. exists default. repeat split. Qed.

(** C7. On an empty vector [at] raises no [OutOfRange]: the guard compares
    the index with [currentSize - 1], which is [SIZE_MAX] when the size is
    0.  A default-constructed vector reads through its null buffer; a vector
    emptied by [pop_back] or [clear] hands out the stale cell. *)
Theorem at_empty_is_unchecked :
  at_ (@default N) 0 = Raise NullDeref
  /\ at_ (@default N) 5 = Raise NullDeref
  /\ at_ (pop_back (ctor 1 1 7)) 0 = Ok 7
  /\ at_ (clear (ctor 1 2 7)) 1 = Ok 7
  /\ at_ (ctor 1 2 7) 2 = Raise OutOfRange.
Proof. repeat split. Qed.

(** The vector that holds 1, 2, 3 in a buffer of three cells at address 40,
    and the same elements in a buffer of four cells. *)
Definition three : Vector N := mkVector (Some 40) [1; 2; 3] 3 3.
Definition three_of_four : Vector N := mkVector (Some 40) [1; 2; 3; 0] 3 4.

Lemma three_wf : wf three.
Proof. unfold wf; simpl; repeat split; discriminate. Qed.

Lemma three_of_four_wf : wf three_of_four.
Proof. unfold wf; simpl; repeat split; [lia | discriminate]. Qed.

(** Witness for X6: [reserve(10)] on the vector 1, 2, 3. *)
Lemma reserve_keeps_elements_witness :
  wf three
  /\ exists v',
       reserve 96 10 three = Ok v'
       /\ live v' = (if capacity three <? 10 then fresh <$> live three
                     else live three)
       /\ (@stores_value N _ -> live v' = live three)
       /\ size v' = size three
       /\ capacity v' = N.max (capacity three) 10
       /\ wf v'.
Proof.
  split; [exact three_wf|]. exact (reserve_keeps_elements 96 10 three three_wf).
Defined.

(** Witness for X7: [push_back(4)] on the full vector 1, 2, 3. *)
Lemma push_back_appends_witness :
  wf three
  /\ currentCapacity three * 2 <= SizeT.max
  /\ exists v' c,
       push_back 96 4 three = Ok v'
       /\ (if size three <? capacity three
           then cells three !! N.to_nat (size three) = Some c
           else c = T_default)
       /\ live v'
          = (if size three <? capacity three then live three
             else fresh <$> live three) ++ [assign c 4]
       /\ size v' = size three + 1
       /\ capacity v'
          = (if size three <? capacity three then capacity three
             else N.max 1 (2 * capacity three))
       /\ _data v'
          = (if size three <? capacity three then _data three else Some 96)
       /\ wf v'
       /\ back v' = Ok (assign c 4)
       /\ live (pop_back v')
          = (if size three <? capacity three then live three
             else fresh <$> live three)
       /\ (@stores_value N _ ->
           live v' = live three ++ [4] /\ back v' = Ok 4
           /\ live (pop_back v') = live three).
Proof.
  assert (H2 : currentCapacity three * 2 <= SizeT.max)
    by (unfold SizeT.max; simpl; lia).
  split; [exact three_wf|]. split; [exact H2|].
  exact (push_back_appends 96 4 three three_wf H2).
Defined.



(** Witness for X10: [shrink_to_fit()] on 1, 2, 3 in four cells. *)
Lemma shrink_to_fit_keeps_elements_witness :
  wf three_of_four
  /\ exists v',
       shrink_to_fit 96 three_of_four = Ok v'
       /\ live v'
          = (if size three_of_four <? capacity three_of_four
             then fresh <$> live three_of_four else live three_of_four)
       /\ (@stores_value N _ -> live v' = live three_of_four)
       /\ size v' = size three_of_four
       /\ capacity v' = size three_of_four
       /\ wf v'.
Proof.
  split; [exact three_of_four_wf|].
  exact (shrink_to_fit_keeps_elements 96 three_of_four three_of_four_wf).
Defined.

(** Witness for X11: [erase] at the position of the 2 in 1, 2, 3. *)
Lemma erase_removes_element_witness :
  wf three
  /\ 1 < size three
  /\ size three <= SizeT.max
  /\ exists v',
       erase 1 three = Ok (v', 1)
       /\ live v'
          = take (N.to_nat 1) (live three)
            ++ shift_down (drop (N.to_nat 1) (live three))
       /\ (@stores_value N _ ->
           live v'
           = take (N.to_nat 1) (live three)
             ++ drop (S (N.to_nat 1)) (live three))
       /\ size v' = size three - 1
       /\ capacity v' = capacity three
       /\ _data v' = _data three
       /\ wf v'
       /\ (1 = size three - 1 -> 1 = end_ v').
Proof.
  assert (H2 : 1 < size three) by (simpl; lia).
  assert (H3 : size three <= SizeT.max) by (unfold SizeT.max; simpl; lia).
  split; [exact three_wf|]. split; [exact H2|]. split; [exact H3|].
  exact (erase_removes_element 1 three three_wf H2 H3).
Defined.

(** Witness for X12: [erase(end())] on the vector 1, 2, 3. *)
Lemma erase_at_end_reads_past_buffer_witness :
  wf three
  /\ size three <= 3
  /\ erase 3 three
     = Raise (match _data three with
              | None => NullDeref
              | Some _ => OutOfBounds
              end).
Proof.
  assert (H2 : size three <= 3) by (simpl; lia).
  split; [exact three_wf|]. split; [exact H2|].
  exact (erase_at_end_reads_past_buffer 3 three three_wf H2).
Defined.

(** Witness for X13: 9 inserted before the 2 of 1, 2, 3 in four cells. *)
Lemma insert_with_room_witness :
  wf three_of_four
  /\ size three_of_four < capacity three_of_four
  /\ 1 <= size three_of_four
  /\ capacity three_of_four <= SizeT.max
  /\ exists v' c,
       insert 96 1 9 three_of_four = Ok (v', 1)
       /\ cells three_of_four !! N.to_nat 1 = Some c
       /\ live v'
          = take (N.to_nat 1) (live three_of_four)
            ++ assign c 9
               :: shift_up (drop (N.to_nat 1)
                              (take (S (N.to_nat (size three_of_four)))
                                 (cells three_of_four)))
       /\ (@stores_value N _ ->
           live v'
           = take (N.to_nat 1) (live three_of_four)
             ++ 9 :: drop (N.to_nat 1) (live three_of_four))
       /\ size v' = size three_of_four + 1
       /\ capacity v' = capacity three_of_four
       /\ _data v' = _data three_of_four
       /\ wf v'.
Proof.
  assert (H2 : size three_of_four < capacity three_of_four) by (simpl; lia).
  assert (H3 : 1 <= size three_of_four) by (simpl; lia).
  assert (H4 : capacity three_of_four <= SizeT.max)
    by (unfold SizeT.max; simpl; lia).
  split; [exact three_of_four_wf|]. split; [exact H2|]. split; [exact H3|].
  split; [exact H4|].
  exact (insert_with_room 96 1 9 three_of_four three_of_four_wf H2 H3 H4).
Defined.

(** Witness for X14: [insert] before the 2 of the full vector 1, 2, 3, whose
    24 bytes lie at address 40, when the new buffer is at address 96. *)
Lemma insert_when_full_reads_before_buffer_witness :
  wf three
  /\ size three = capacity three
  /\ 1 <= capacity three
  /\ capacity three * 2 <= SizeT.max
  /\ 1 <= size three
  /\ _data three = Some 40
  /\ @apart N _ 96 (2 * capacity three) 40 (capacity three)
  /\ @address N _ (_data three) (Z.of_N 1) <> Z.of_N 96
  /\ insert 96 1 9 three = Raise OutOfBounds.
Proof.
  assert (H2 : size three = capacity three) by reflexivity.
  assert (H3 : 1 <= capacity three) by (simpl; lia).
  assert (H4 : capacity three * 2 <= SizeT.max)
    by (unfold SizeT.max; simpl; lia).
  assert (H5 : 1 <= size three) by (simpl; lia).
  assert (H6 : _data three = Some 40) by reflexivity.
  assert (H7 : @apart N _ 96 (2 * capacity three) 40 (capacity three))
    by (right; vm_compute; discriminate).
  assert (H8 : @address N _ (_data three) (Z.of_N 1) <> Z.of_N 96)
    by (vm_compute; discriminate).
  split; [exact three_wf|]. split; [exact H2|]. split; [exact H3|].
  split; [exact H4|]. split; [exact H5|]. split; [exact H6|].
  split; [exact H7|]. split; [exact H8|].
  exact (insert_when_full_reads_before_buffer 96 1 40 9 three three_wf
           H2 H3 H4 H5 H6 H7 H8).
Defined.

(** Witness for X15: [Vector<size_t> v(3, 7)] at address 40. *)
Lemma ctor_holds_copies_witness :
  3 <= SizeT.max
  /\ wf (ctor 40 3 7)
  /\ live (ctor 40 3 7) = replicate (N.to_nat 3) (fresh 7)
  /\ size (ctor 40 3 7) = 3
  /\ capacity (ctor 40 3 7) = 3
  /\ (forall i, i < 3 -> at_ (ctor 40 3 7) i = Ok (fresh 7))
  /\ (forall i, 0 < 3 <= i -> at_ (ctor 40 3 7) i = Raise OutOfRange)
  /\ (_data (ctor 40 3 7) = nullptr <-> 3 = 0)
  /\ (@stores_value N _ ->
      live (ctor 40 3 7) = replicate (N.to_nat 3) 7
      /\ forall i, i < 3 -> at_ (ctor 40 3 7) i = Ok 7).
Proof.
  assert (H : 3 <= SizeT.max) by (unfold SizeT.max; lia).
  split; [exact H|]. exact (ctor_holds_copies 40 3 7 H).
Defined.

End Vector_h.

(* ================================================================== *)
(** * HashMap.h *)
(* ================================================================== *)
Module HashMap_h.
Module FL := ForwardList_h.
Module Vec := Vector_h.
(** The buckets are [ForwardList]s. *)
#[local] Existing Instance Vec.chain.

(** ** nextPrime *)

(** One round of the [for] loop, entered with the counter [i]:
    [for (unsigned i = 2; i <= num/2; ++i)
       if (num % i == 0) { num++; isPrime = false; break; }]
    The loop leaves with [true] when it breaks and with [false] when its
    condition fails; [++i] is on 32 bits. *)
Definition trial_round (num i : N) : N + result bool :=
  if i <=? num / 2
  then match modulo num i with
       | Raise e => inr (Raise e)
       | Ok 0 => inr (Ok true)
       | Ok _ => inl (UInt.wrap (i + 1))
       end
  else inr (Ok false).

(** The [for] loop.  The counter takes each of its 2^32 values at most once
    before the loop has left. *)
Definition trial (num : N) : result bool :=
  match iterate 4294967296 (trial_round num) 2 with
  | inr r => r
  | inl _ => Raise NoProgress
  end.

(** One round of the [while (!isPrime)] loop: a candidate the [for] loop
    breaks on has been incremented (on 64 bits) and the loop goes on; any
    other candidate is returned. *)
Definition round (num : N) : N + result N :=
  match trial num with
  | Raise e => inr (Raise e)
  | Ok true => inl (SizeT.add num 1)
  | Ok false => inr (Ok num)
  end.

(** [nextPrime(num)].  The candidate takes each of its 2^64 values at most
    once before the loop has left. *)
Definition nextPrime (num : N) : result N :=
  if num <=? 1 then Ok 2
  else match iterate 18446744073709551616 round num with
       | inr r => r
       | inl _ => Raise NoProgress
       end.

Arguments trial : simpl never.
Arguments nextPrime : simpl never.

Definition is_prime (p : N) : Prop :=
  2 <= p /\ forall d, 1 < d < p -> ~ (d | p).

(** [is_prime] is primality as the standard library defines it. *)
Lemma is_prime_Z_prime (p : N) :
  is_prime p <-> Z.prime (Z.of_N p).
Proof.
  unfold is_prime, Z.prime.
  split; intros [H2 H]; (split; [lia|]).
  - intros n Hn [k Hk]. apply (H (Z.to_N n)); [lia|].
    exists (Z.to_N k). nia.
  - intros d Hd [k Hk]. apply (H (Z.of_N d)); [lia|].
    exists (Z.of_N k). nia.
Qed.

(** A proper divisor is at most half the number. *)
Lemma divisor_le_half (d p : N) :
  1 < d < p -> (d | p) -> 2 <= d <= p / 2.
Proof.
  intros Hd [k Hk]. split; [lia|].
  assert (Hk2 : 2 <= k) by nia.
  apply N.div_le_lower_bound; nia.
Qed.

Lemma half_lt (num : N) : 2 <= num -> num / 2 < num.
Proof. intros H. apply N.div_lt; lia. Qed.

(** What [n] rounds of the [for] loop from the counter [i] amount to. *)
Lemma trial_rounds (num : N) (n : nat) (i : N) :
  1 <= i < UInt.modulus ->
  match iter_nat n (trial_round num) i with
  | inl i' =>
      (forall d, i <= d < i + N.of_nat n -> d <= num / 2 /\ num mod d <> 0)
      /\ i + N.of_nat n <= UInt.modulus
      /\ i' = UInt.wrap (i + N.of_nat n)
  | inr (Ok true) =>
      exists d, i <= d <= num / 2 /\ num mod d = 0
  | inr (Ok false) =>
      (forall d, i <= d <= num / 2 -> num mod d <> 0)
      /\ num / 2 < UInt.modulus - 1
  | inr (Raise e) =>
      e = DivByZero
      /\ (forall d, i <= d < UInt.modulus -> num mod d <> 0)
      /\ UInt.modulus - 1 <= num / 2
  end.
Proof.
  unfold UInt.modulus. revert i. induction n as [|n IH]; intros i Hi.
  - simpl. split; [intros d Hd; lia|]. split; [lia|].
    unfold UInt.wrap, UInt.modulus. rewrite N.add_0_r.
    symmetry. apply N.mod_small. lia.
  - simpl iter_nat. unfold trial_round at 1.
    destruct (N.leb_spec i (num / 2)) as [Hle|Hgt]; cbv beta iota.
    2:{ split; [intros d Hd; lia | lia]. }
    unfold modulo. destruct (N.eqb_spec i 0) as [?|_]; [lia|].
    cbv beta iota.
    destruct (num mod i) as [|r] eqn:Hr; cbv beta iota.
    { exists i. lia. }
    assert (Hnz : num mod i <> 0) by (rewrite Hr; discriminate).
    destruct (N.eq_dec (i + 1) 4294967296) as [Hw|Hnw].
    + assert (Hw0 : UInt.wrap (i + 1) = 0) by (rewrite Hw; reflexivity).
      rewrite Hw0.
      destruct n as [|n]; simpl iter_nat.
      * split; [intros d Hd; replace d with i by lia; split; assumption|].
        split; [lia|]. replace (i + N.of_nat 1) with 4294967296 by lia.
        reflexivity.
      * unfold trial_round at 1.
        replace (0 <=? num / 2) with true by (symmetry; apply N.leb_le; lia).
        simpl. split; [reflexivity|].
        split; [intros d Hd; replace d with i by lia; assumption | lia].
    + assert (Hw1 : UInt.wrap (i + 1) = i + 1)
        by (apply N.mod_small; unfold UInt.modulus; lia).
      rewrite Hw1.
      specialize (IH (i + 1)). 
      destruct (iter_nat n (trial_round num) (i + 1)) as [i'|[[|]|e]].
      * destruct IH as (Hd & Hb & ->); [lia|].
        split; [|split; [lia | f_equal; lia]].
        intros d Hdr. destruct (N.eq_dec d i) as [-> |?]; [now split|].
        apply Hd. lia.
      * destruct IH as (d & Hd & Hm); [lia|]. exists d. lia.
      * destruct IH as (Hd & Hb); [lia|]. split; [|exact Hb].
        intros d Hdr. destruct (N.eq_dec d i) as [-> |?]; [assumption|].
        apply Hd. lia.
      * destruct IH as (-> & Hd & Hb); [lia|]. split; [reflexivity|].
        split; [|exact Hb].
        intros d Hdr. destruct (N.eq_dec d i) as [-> |?]; [assumption|].
        apply Hd. lia.
Qed.

(** The [for] loop on any candidate: it breaks on a divisor between 2 and
    half the candidate; it runs to its end when there is none and half the
    candidate is below the largest [unsigned]; otherwise the counter wraps to
    0 and [num % i] divides by it. *)
Lemma trial_spec (num : N) :
  match trial num with
  | Ok true => exists d, 2 <= d <= num / 2 /\ num mod d = 0
  | Ok false =>
      (forall d, 2 <= d <= num / 2 -> num mod d <> 0)
      /\ num / 2 < UInt.modulus - 1
  | Raise e =>
      e = DivByZero
      /\ (forall d, 2 <= d < UInt.modulus -> num mod d <> 0)
      /\ UInt.modulus - 1 <= num / 2
  end.
Proof.
  unfold trial. rewrite iterate_iter_nat.
  pose proof (trial_rounds num (Pos.to_nat 4294967296) 2) as H.
  rewrite positive_nat_N in H. unfold UInt.modulus in *.
  destruct (iter_nat (Pos.to_nat 4294967296) (trial_round num) 2)
    as [i'|[[|]|e]]; try (apply H; lia).
  destruct H as (_ & Hb & _); lia.
Qed.

Lemma trial_prime (num : N) :
  2 <= num -> trial num = Ok false -> is_prime num.
Proof.
  intros H2 Ht. pose proof (trial_spec num) as H. rewrite Ht in H.
  destruct H as [H _]. split; [exact H2|]. intros d Hd Hdiv.
  apply (H d); [now apply divisor_le_half|].
  apply N.Lcm0.mod_divide. exact Hdiv.
Qed.

Lemma trial_composite (num : N) :
  2 <= num -> trial num = Ok true -> ~ is_prime num.
Proof.
  intros H2 Ht [_ Hp]. pose proof (trial_spec num) as H. rewrite Ht in H.
  destruct H as (d & Hd & Hm). apply (Hp d).
  - pose proof (half_lt num H2). lia.
  - apply N.Lcm0.mod_divide. exact Hm.
Qed.

(** The largest candidate the [for] loop runs to its end on: 2^33 - 3. *)
Definition trial_max : N := 8589934589.

Lemma trial_in_range (num : N) :
  num <= trial_max -> exists b, trial num = Ok b.
Proof.
  intros Hr. pose proof (trial_spec num) as H.
  destruct (trial num) as [b|e]; [now exists b|].
  destruct H as (_ & _ & H). unfold UInt.modulus, trial_max in *.
  assert (num / 2 <= 8589934589 / 2) by (apply N.Div0.div_le_mono; lia).
  change (8589934589 / 2) with 4294967294 in *. lia.
Qed.

(** The [while] loop from a candidate [num] on, when a prime [q] lies ahead
    within the range of the [for] loop: the first prime from [num] on is
    returned. *)
Lemma rounds_in_range (q : N) (n : nat) (num : N) :
  is_prime q -> q <= trial_max -> 2 <= num <= q ->
  q - num < N.of_nat n ->
  exists p,
    iter_nat n round num = inr (Ok p)
    /\ is_prime p /\ num <= p <= q
    /\ forall c, num <= c < p -> ~ is_prime c.
Proof.
  intros Hq Hqr. revert num. induction n as [|n IH]; intros num Hnum Hn.
  - lia.
  - simpl iter_nat. unfold round at 1.
    destruct (trial_in_range num) as [b Hb]; [lia|]. rewrite Hb.
    destruct b.
    + assert (Hc : ~ is_prime num) by (apply trial_composite; [lia|exact Hb]).
      assert (num <> q) by (intros ->; contradiction).
      rewrite SizeT.add_small
        by (unfold SizeT.max, trial_max in *; lia).
      destruct (IH (num + 1)) as (p & Hp & Hpr & Hpb & Hmin); [lia | lia|].
      exists p. split; [exact Hp|]. split; [exact Hpr|]. split; [lia|].
      intros c Hcr. destruct (N.eq_dec c num) as [-> |?]; [exact Hc|].
      apply Hmin. lia.
    + exists num. split; [reflexivity|].
      split; [apply trial_prime; [lia | exact Hb]|]. split; [lia|].
      intros c Hcr. lia.
Qed.

Lemma is_prime_2 : is_prime 2.
Proof. split; [lia|]. intros d Hd. lia. Qed.

(** [nextPrime] on an input with a prime ahead in the range of the [for]
    loop. *)
Lemma nextPrime_in_range (n q : N) :
  is_prime q -> n <= q -> q <= trial_max ->
  exists p,
    nextPrime n = Ok p
    /\ is_prime p /\ n <= p <= q
    /\ forall q', is_prime q' -> n <= q' -> p <= q'.
Proof.
  intros Hq Hn Hqr. unfold nextPrime.
  destruct (N.leb_spec n 1) as [Hle|Hgt].
  - exists 2. split; [reflexivity|]. split; [exact is_prime_2|].
    destruct Hq as [Hq2 _]. split; [lia|]. intros q' [Hq' _] _. exact Hq'.
  - rewrite iterate_iter_nat.
    destruct (rounds_in_range q (Pos.to_nat 18446744073709551616) n Hq Hqr)
      as (p & -> & Hp & Hpb & Hmin); [lia | |].
    { rewrite positive_nat_N. unfold trial_max in Hqr. lia. }
    exists p. split; [reflexivity|]. split; [exact Hp|]. split; [exact Hpb|].
    intros q' Hq' Hnq'.
    destruct (N.le_gt_cases p q') as [?|Hlt]; [assumption|].
    destruct (Hmin q'); [lia | exact Hq'].
Qed.

(** The loops of [nextPrime] leave within the allotted rounds: on every
    [size_t] input it returns a value or divides by zero. *)
Lemma trial_leaves (num : N) :
  (exists b, trial num = Ok b) \/ trial num = Raise DivByZero.
Proof.
  pose proof (trial_spec num) as H. destruct (trial num) as [b|e].
  - left. now exists b.
  - right. now destruct H as [-> _].
Qed.

Lemma round_zero : round 0 = inr (Ok 0).
Proof. vm_compute. reflexivity. Qed.

Lemma rounds_leave (n : nat) (num : N) :
  num <= SizeT.max -> SizeT.max - num + 1 < N.of_nat n ->
  (exists p, iter_nat n round num = inr (Ok p))
  \/ iter_nat n round num = inr (Raise DivByZero).
Proof.
  revert num. induction n as [|n IH]; intros num Hmax Hn; [lia|].
  cbn [iter_nat]. unfold round at 1 3.
  destruct (trial_leaves num) as [[[|] ->]| ->].
  - destruct (N.eq_dec num SizeT.max) as [-> |Hne].
    + change (SizeT.add SizeT.max 1) with 0.
      destruct n as [|n]; [lia|]. cbn [iter_nat]. rewrite round_zero.
      left. now exists 0.
    + rewrite SizeT.add_small by lia. apply IH; lia.
  - left. now exists num.
  - now right.
Qed.

Lemma nextPrime_leaves (n : N) :
  n <= SizeT.max ->
  (exists p, nextPrime n = Ok p) \/ nextPrime n = Raise DivByZero.
Proof.
  intros Hn. unfold nextPrime. destruct (N.leb_spec n 1) as [_|Hgt].
  - left. now exists 2.
  - rewrite iterate_iter_nat.
    destruct (rounds_leave (Pos.to_nat 18446744073709551616) n Hn)
      as [[p ->]| ->].
    + rewrite positive_nat_N. unfold SizeT.max. lia.
    + left. now exists p.
    + now right.
Qed.

(** Trial division by [d, d + 1, ...] as long as the square of the divisor
    does not exceed [p]; it is used to establish that two given numbers are
    prime. *)
Fixpoint no_divisor_from (count : nat) (d p : N) : bool :=
  match count with
  | O => p <? d * d
  | S c =>
      if p <? d * d then true
      else if p mod d =? 0 then false
      else no_divisor_from c (d + 1) p
  end.

Lemma no_divisor_from_spec (count : nat) (d p : N) :
  no_divisor_from count d p = true ->
  forall e, d <= e -> e * e <= p -> p mod e <> 0.
Proof.
  revert d. induction count as [|c IH]; intros d; simpl.
  - intros H e Hde He. apply N.ltb_lt in H. nia.
  - destruct (N.ltb_spec p (d * d)) as [Hlt|Hge].
    + intros _ e Hde He. nia.
    + destruct (N.eqb_spec (p mod d) 0) as [?|Hnz]; [discriminate|].
      intros H e Hde He. destruct (N.eq_dec e d) as [-> |Hne]; [exact Hnz|].
      apply (IH (d + 1) H); lia.
Qed.

(** A number without a divisor up to its square root is prime. *)
Lemma no_divisor_prime (count : nat) (p : N) :
  2 <= p -> no_divisor_from count 2 p = true -> is_prime p.
Proof.
  intros H2 H. pose proof (no_divisor_from_spec _ _ _ H) as Hnd.
  split; [exact H2|]. intros d Hd [k Hk].
  destruct (N.le_gt_cases (d * d) p) as [Hsq|Hsq].
  - apply (Hnd d); [lia | exact Hsq|].
    rewrite Hk. apply N.Div0.mod_mul.
  - apply (Hnd k); [nia | nia|].
    rewrite Hk, N.mul_comm. apply N.Div0.mod_mul.
Qed.

(** The largest prime the [for] loop runs to its end on, 2^33 - 9, and the
    prime that follows it, 2^33 + 17. *)
Definition prime_max : N := 8589934583.
Definition prime_beyond : N := 8589934609.

Lemma prime_max_prime : is_prime prime_max.
Proof.
  apply (no_divisor_prime (N.to_nat 92700)); [unfold prime_max; lia|].
  vm_compute. reflexivity.
Qed.

Lemma prime_beyond_prime : is_prime prime_beyond.
Proof.
  apply (no_divisor_prime (N.to_nat 92700)); [unfold prime_beyond; lia|].
  vm_compute. reflexivity.
Qed.

(** On a prime from 2^33 - 2 on, the counter of the [for] loop passes its
    largest value without having met a divisor, wraps to 0, and [num % i]
    divides by it. *)
Lemma nextPrime_counter_wraps (p : N) :
  is_prime p -> trial_max < p -> nextPrime p = Raise DivByZero.
Proof.
  intros Hp Hr. unfold nextPrime, trial_max in *.
  destruct (N.leb_spec p 1) as [?|_]; [lia|].
  rewrite (iterate_leaves _ round p (Raise DivByZero)); [reflexivity|].
  unfold round. pose proof (trial_spec p) as H.
  destruct (trial p) as [[|]|e].
  - exfalso. destruct H as (d & Hd & Hm). destruct Hp as [H2 Hp].
    apply (Hp d).
    + pose proof (half_lt p H2). lia.
    + apply N.Lcm0.mod_divide. exact Hm.
  - exfalso. destruct H as [_ H]. unfold UInt.modulus in H.
    assert (8589934590 / 2 <= p / 2) by (apply N.Div0.div_le_mono; lia).
    change (8589934590 / 2) with 4294967295 in *. lia.
  - destruct H as [-> _]. reflexivity.
Qed.

(** C8 (amended).  For every input up to the prime 2^33 - 9, [nextPrime]
    returns the smallest prime that is not below the input; it is found by
    counting up from the input, the [for] loop breaking on each candidate
    before it (a divisor between 2 and half the candidate) and running to
    its end on it.  The listed inputs give the listed primes. *)
Theorem nextPrime_smallest_prime (n : N) (Hn : n <= prime_max) :
  (exists p,
     nextPrime n = Ok p
     /\ is_prime p /\ n <= p
     /\ (forall q, is_prime q -> n <= q -> p <= q)
     /\ trial p = Ok false
     /\ forall c, N.max n 2 <= c < p ->
          trial c = Ok true
          /\ exists i, 2 <= i <= c / 2 /\ c mod i = 0)
  /\ (nextPrime 0 = Ok 2 /\ nextPrime 1 = Ok 2 /\ nextPrime 2 = Ok 2
      /\ nextPrime 3 = Ok 3 /\ nextPrime 4 = Ok 5 /\ nextPrime 10 = Ok 11
      /\ nextPrime 25 = Ok 29).
Proof.
  split; [|repeat split; vm_compute; reflexivity].
  destruct (nextPrime_in_range n prime_max prime_max_prime Hn)
    as (p & Hnp & Hp & Hpb & Hmin); [unfold prime_max, trial_max; lia|].
  assert (Hr : forall c, c <= p -> c <= trial_max)
    by (unfold prime_max, trial_max in *; lia).
  exists p. split; [exact Hnp|]. split; [exact Hp|]. split; [lia|].
  split; [exact Hmin|]. split.
  - destruct (trial_in_range p) as [[|] Hb]; [apply Hr; lia | | exact Hb].
    exfalso. apply (trial_composite p); [apply Hp | exact Hb | exact Hp].
  - intros c Hc.
    destruct (trial_in_range c) as [[|] Hb]; [apply Hr; lia | |].
    + split; [exact Hb|]. pose proof (trial_spec c) as H.
      now rewrite Hb in H.
    + exfalso. apply trial_prime in Hb; [|lia].
      specialize (Hmin c Hb). lia.
Qed.

(** Witness for C8: the input 25. *)
Lemma nextPrime_smallest_prime_witness :
  25 <= prime_max
  /\ (exists p,
        nextPrime 25 = Ok p
        /\ is_prime p /\ 25 <= p
        /\ (forall q, is_prime q -> 25 <= q -> p <= q)
        /\ trial p = Ok false
        /\ forall c, N.max 25 2 <= c < p ->
             trial c = Ok true
             /\ exists i, 2 <= i <= c / 2 /\ c mod i = 0)
  /\ (nextPrime 0 = Ok 2 /\ nextPrime 1 = Ok 2 /\ nextPrime 2 = Ok 2
      /\ nextPrime 3 = Ok 3 /\ nextPrime 4 = Ok 5 /\ nextPrime 10 = Ok 11
      /\ nextPrime 25 = Ok 29).
Proof.
  assert (H : 25 <= prime_max) by (unfold prime_max; lia).
  split; [exact H|]. exact (nextPrime_smallest_prime 25 H).
Defined.

(** C8 as stated fails on large inputs.  [nextPrime(SIZE_MAX)]: the
    candidate 2^64 - 1 is divisible by 3, [num++] wraps to 0, the [for] loop
    does not run on 0, and 0 is returned.  [nextPrime(2^33 + 17)]: the
    candidate is prime, and the 32-bit counter wraps to 0 before it has
    passed the half of it; [num % i] divides by 0. *)
Lemma nextPrime_fails_beyond_range :
  nextPrime SizeT.max = Ok 0
  /\ is_prime prime_beyond
  /\ nextPrime prime_beyond = Raise DivByZero.
Proof.
  split; [vm_compute; reflexivity|]. split; [exact prime_beyond_prime|].
  apply nextPrime_counter_wraps; [exact prime_beyond_prime|].
  unfold trial_max, prime_beyond. lia.
Qed.

(** ** Pair *)
Record Pair (T1 T2 : Type) : Type := mkPair { first : T1; second : T2 }.
Arguments mkPair {T1 T2} first second.
Arguments first {T1 T2} p.
Arguments second {T1 T2} p.

(** ** float
    IEEE 754 binary32, the [float] of the platforms with 64-bit [size_t]:
    24 bits of precision, exponents of the last place from -149 on, values
    below [2^128].  Every operation gives the binary32 number nearest to the
    exact result, the one with the even last bit when two are equally near;
    a result of [2^128] or more is an infinity.  The expressions of the map
    are evaluated in [float].

    A finite value is kept as its sign and its magnitude, a rational number;
    a magnitude of 0 is one of the two zeros. *)
Inductive float : Type :=
| NaN
| Inf (neg : bool)
| Fin (neg : bool) (mag : Q).

Local Open Scope Q_scope.

Definition pow2 (e : Z) : Q := 2 ^ e.

(** For [0 < x], the [e] with [2^e <= x < 2^(e+1)]. *)
Definition ilog2 (x : Q) : Z :=
  let d := (Z.log2 (Qnum x) - Z.log2 (Zpos (Qden x)))%Z in
  if Qle_bool (pow2 d) x then d else (d - 1)%Z.

(** The integer nearest to [x], the even one of two that are equally near. *)
Definition nearest_even (x : Q) : Z :=
  let f := Qfloor x in
  match Qcompare (x - inject_Z f) (1 # 2) with
  | Lt => f
  | Gt => (f + 1)%Z
  | Eq => if Z.even f then f else (f + 1)%Z
  end.

(** The exponent of the last place of the binary32 numbers around [x]:
    24 bits from the leading one, and never below -149. *)
Definition lsb (x : Q) : Z := Z.max (ilog2 x - 23) (-149).

(** The magnitude [x] rounded to 24 bits. *)
Definition rnd (x : Q) : Q :=
  if Qle_bool x 0 then 0
  else Qred (inject_Z (nearest_even (x / pow2 (lsb x))) * pow2 (lsb x)).

(** The float for the exact result [x] with sign [neg]. *)
Definition rounded (neg : bool) (x : Q) : float :=
  let r := rnd x in
  if Qle_bool (pow2 128) r then Inf neg else Fin neg r.

(** The value of a [size_t] as a rational number. *)
Definition Qof (n : N) : Q := inject_Z (Z.of_N n).

(** [(float)n] for a [size_t]. *)
Definition of_size (n : N) : float := rounded false (Qof n).

(** The literals [1.0] and [2]. *)
Definition one : float := Fin false 1.
Definition two : float := Fin false 2.

(** [x / y]. *)
Definition fdiv (x y : float) : float :=
  match x, y with
  | NaN, _ | _, NaN => NaN
  | Inf _, Inf _ => NaN
  | Inf s, Fin t _ => Inf (xorb s t)
  | Fin s _, Inf t => Fin (xorb s t) 0
  | Fin s a, Fin t b =>
      if Qeq_bool b 0
      then if Qeq_bool a 0 then NaN else Inf (xorb s t)
      else rounded (xorb s t) (a / b)
  end.

(** [x * y]. *)
Definition fmul (x y : float) : float :=
  match x, y with
  | NaN, _ | _, NaN => NaN
  | Inf s, Inf t => Inf (xorb s t)
  | Inf s, Fin t b => if Qeq_bool b 0 then NaN else Inf (xorb s t)
  | Fin s a, Inf t => if Qeq_bool a 0 then NaN else Inf (xorb s t)
  | Fin s a, Fin t b => rounded (xorb s t) (a * b)
  end.

(** The comparisons; every comparison with a NaN is false, and the two
    zeros are equal. *)
Definition signed (neg : bool) (mag : Q) : Q := if neg then - mag else mag.

Definition fcompare (x y : float) : option comparison :=
  match x, y with
  | NaN, _ | _, NaN => None
  | Inf s, Inf t =>
      Some (if s then (if t then Eq else Lt) else (if t then Gt else Eq))
  | Inf s, Fin _ _ => Some (if s then Lt else Gt)
  | Fin _ _, Inf t => Some (if t then Gt else Lt)
  | Fin s a, Fin t b => Some (Qcompare (signed s a) (signed t b))
  end.

(** [x < y], [x <= y], [x >= y]. *)
Definition flt (x y : float) : bool :=
  match fcompare x y with
  | Some Lt => true
  | _ => false
  end.

Definition fle (x y : float) : bool :=
  match fcompare x y with
  | Some Lt | Some Eq => true
  | _ => false
  end.

Definition fge (x y : float) : bool := fle y x.

(** [(size_t)x]: the value is truncated; nothing is defined for an
    infinity, a NaN or a value whose truncation is not a [size_t]. *)
Definition to_size (x : float) : result N :=
  match x with
  | Fin neg q =>
      if neg
      then if Qle_bool 1 q then Raise FloatToInt else Ok 0%N
      else if Qle_bool (pow2 64) q then Raise FloatToInt
           else Ok (Z.to_N (Qfloor q))
  | Inf _ => Raise FloatToInt
  | NaN => Raise FloatToInt
  end.

(** [std::ceil(x)]. *)
Definition fceil (x : float) : float :=
  match x with
  | Fin neg q =>
      if neg then Fin true (inject_Z (Qfloor q))
      else Fin false (inject_Z (Qceiling q))
  | Inf s => Inf s
  | NaN => NaN
  end.

(** *** Powers of two *)
Lemma pow2_pos (e : Z) : 0 < pow2 e.
Proof. apply Qpower_0_lt. reflexivity. Qed.

Lemma pow2_add (a b : Z) : pow2 (a + b) == pow2 a * pow2 b.
Proof. apply Qpower_plus. discriminate. Qed.

Lemma pow2_le (a b : Z) : (a <= b)%Z -> pow2 a <= pow2 b.
Proof. intros H. apply Qpower_le_compat_l; [exact H | discriminate]. Qed.

Lemma pow2_lt (a b : Z) : (a < b)%Z -> pow2 a < pow2 b.
Proof. intros H. apply Qpower_lt_compat_l; [exact H | reflexivity]. Qed.

Lemma pow2_lt_inv (a b : Z) : pow2 a < pow2 b -> (a < b)%Z.
Proof. intros H. apply (Qpower_lt_compat_l_inv 2); [exact H | reflexivity]. Qed.

Lemma pow2_Z (n : Z) : (0 <= n)%Z -> pow2 n == inject_Z (2 ^ n).
Proof. intros H. unfold pow2. now rewrite Zpower_Qpower. Qed.

Lemma pow2_scale (x : Q) (e : Z) : x / pow2 e * pow2 e == x.
Proof. pose proof (pow2_pos e). field. lra. Qed.

(** *** The exponent *)
Lemma ilog2_spec (x : Q) :
  0 < x -> pow2 (ilog2 x) <= x /\ x < pow2 (ilog2 x + 1).
Proof.
  intros Hx. destruct x as [a b].
  assert (Ha : (0 < a)%Z).
  { unfold Qlt in Hx. simpl in Hx. lia. }
  unfold ilog2. cbn [Qnum Qden].
  set (la := Z.log2 a). set (lb := Z.log2 (Zpos b)).
  destruct (Z.log2_spec a Ha) as [Ha1 Ha2]. fold la in Ha1, Ha2.
  destruct (Z.log2_spec (Zpos b) (Pos2Z.is_pos b)) as [Hb1 Hb2].
  fold lb in Hb1, Hb2.
  assert (Hla : (0 <= la)%Z) by apply Z.log2_nonneg.
  assert (Hlb : (0 <= lb)%Z) by apply Z.log2_nonneg.
  assert (Hx' : a # b == inject_Z a / inject_Z (Zpos b)) by apply Qmake_Qdiv.
  assert (Hbpos : 0 < inject_Z (Zpos b)).
  { change 0 with (inject_Z 0). rewrite <- Zlt_Qlt. lia. }
  assert (Hlo : pow2 (la - lb - 1) <= a # b).
  { rewrite Hx'. apply Qle_shift_div_l; [exact Hbpos|].
    apply Qle_trans with (pow2 (la - lb - 1) * pow2 (lb + 1)).
    - apply Qmult_le_l; [apply pow2_pos|].
      rewrite pow2_Z by lia. rewrite <- Zle_Qle.
      replace (Z.succ lb) with (lb + 1)%Z in Hb2 by lia. lia.
    - rewrite <- pow2_add. replace (la - lb - 1 + (lb + 1))%Z with la by lia.
      rewrite pow2_Z by lia. now rewrite <- Zle_Qle. }
  assert (Hhi : a # b < pow2 (la - lb + 1)).
  { rewrite Hx'. apply Qlt_shift_div_r; [exact Hbpos|].
    apply Qlt_le_trans with (pow2 (la - lb + 1) * pow2 lb).
    - rewrite <- pow2_add. replace (la - lb + 1 + lb)%Z with (la + 1)%Z by lia.
      rewrite pow2_Z by lia. rewrite <- Zlt_Qlt.
      replace (Z.succ la) with (la + 1)%Z in Ha2 by lia. lia.
    - apply Qmult_le_l; [apply pow2_pos|].
      rewrite pow2_Z by lia. now rewrite <- Zle_Qle. }
  destruct (Qle_bool (pow2 (la - lb)) (a # b)) eqn:E.
  - apply Qle_bool_iff in E. split; [exact E | exact Hhi].
  - split; [exact Hlo|]. replace (la - lb - 1 + 1)%Z with (la - lb)%Z by lia.
    apply Qnot_le_lt. intros H. apply Qle_bool_iff in H. congruence.
Qed.

Lemma ilog2_unique (x : Q) (e : Z) :
  pow2 e <= x -> x < pow2 (e + 1) -> ilog2 x = e.
Proof.
  intros H1 H2.
  assert (Hx : 0 < x) by (pose proof (pow2_pos e); lra).
  destruct (ilog2_spec x Hx) as [H3 H4].
  assert (A : (e < ilog2 x + 1)%Z) by (apply pow2_lt_inv; lra).
  assert (B : (ilog2 x < e + 1)%Z) by (apply pow2_lt_inv; lra).
  lia.
Qed.

Lemma ilog2_mono (x y : Q) : 0 < x -> x <= y -> (ilog2 x <= ilog2 y)%Z.
Proof.
  intros Hx Hxy.
  destruct (ilog2_spec x Hx) as [H1 _].
  destruct (ilog2_spec y) as [_ H2]; [lra|].
  assert (A : (ilog2 x < ilog2 y + 1)%Z) by (apply pow2_lt_inv; lra).
  lia.
Qed.

(** *** Rounding to an integer *)
Lemma nearest_even_bounds (x : Q) :
  (Qfloor x <= nearest_even x <= Qfloor x + 1)%Z.
Proof.
  unfold nearest_even.
  destruct (Qcompare _ _); [destruct (Z.even _)| |]; lia.
Qed.

Lemma nearest_even_ge (x : Q) (k : Z) :
  inject_Z k <= x -> (k <= nearest_even x)%Z.
Proof.
  intros H. apply Qfloor_resp_le in H. rewrite Qfloor_Z in H.
  pose proof (nearest_even_bounds x). lia.
Qed.

Lemma nearest_even_le (x : Q) (k : Z) :
  x <= inject_Z k -> (nearest_even x <= k)%Z.
Proof.
  intros H. pose proof (Qfloor_le x) as Hf.
  assert (Hfk : (Qfloor x <= k)%Z).
  { apply Qfloor_resp_le in H. now rewrite Qfloor_Z in H. }
  unfold nearest_even.
  assert (Hup : 0 < x - inject_Z (Qfloor x) -> (Qfloor x + 1 <= k)%Z).
  { intros Hpos.
    assert (Hlt : inject_Z (Qfloor x) < inject_Z k) by lra.
    rewrite <- Zlt_Qlt in Hlt. lia. }
  destruct (Qcompare (x - inject_Z (Qfloor x)) (1 # 2)) eqn:E.
  - destruct (Z.even _); [exact Hfk|]. apply Hup.
    apply Qeq_alt in E. lra.
  - exact Hfk.
  - apply Hup. apply Qgt_alt in E. lra.
Qed.

Lemma nearest_even_mono (x y : Q) :
  x <= y -> (nearest_even x <= nearest_even y)%Z.
Proof.
  intros Hxy.
  pose proof (Qfloor_resp_le x y Hxy) as Hf.
  pose proof (nearest_even_bounds x) as Bx.
  pose proof (nearest_even_bounds y) as By.
  destruct (Z.eq_dec (Qfloor x) (Qfloor y)) as [Heq|Hne]; [|lia].
  unfold nearest_even. rewrite <- Heq.
  destruct (Qcompare (x - inject_Z (Qfloor x)) (1 # 2)) eqn:Ex;
    destruct (Qcompare (y - inject_Z (Qfloor x)) (1 # 2)) eqn:Ey;
    try (destruct (Z.even (Qfloor x))); try lia; exfalso;
    first [apply Qeq_alt in Ex | apply Qlt_alt in Ex | apply Qgt_alt in Ex];
    first [apply Qeq_alt in Ey | apply Qlt_alt in Ey | apply Qgt_alt in Ey];
    lra.
Qed.

(** *** The binary32 numbers *)
Definition representable (c : Q) : Prop :=
  exists m e : Z, (0 <= m < 2 ^ 24)%Z /\ (-149 <= e)%Z
                  /\ c == inject_Z m * pow2 e.

Lemma representable_nonneg (c : Q) : representable c -> 0 <= c.
Proof.
  intros (m & e & Hm & _ & ->). apply Qmult_le_0_compat.
  - change 0 with (inject_Z 0). rewrite <- Zle_Qle. lia.
  - apply Qlt_le_weak, pow2_pos.
Qed.

Lemma lsb_min (x : Q) : (-149 <= lsb x)%Z.
Proof. unfold lsb. lia. Qed.

Lemma lsb_hi (x : Q) : 0 < x -> x < pow2 (lsb x + 24).
Proof.
  intros Hx. destruct (ilog2_spec x Hx) as [_ H].
  apply Qlt_le_trans with (1 := H). apply pow2_le. unfold lsb. lia.
Qed.

Lemma lsb_lo (x : Q) : 0 < x -> (-149 < lsb x)%Z -> pow2 (lsb x + 23) <= x.
Proof.
  intros Hx He. destruct (ilog2_spec x Hx) as [H _].
  replace (lsb x + 23)%Z with (ilog2 x); [exact H|]. unfold lsb in *. lia.
Qed.

Lemma rnd_pos (x : Q) :
  0 < x -> rnd x == inject_Z (nearest_even (x / pow2 (lsb x))) * pow2 (lsb x).
Proof.
  intros Hx. unfold rnd. destruct (Qle_bool x 0) eqn:E.
  - apply Qle_bool_iff in E. lra.
  - apply Qred_correct.
Qed.

Lemma rnd_nonpos (x : Q) : x <= 0 -> rnd x = 0.
Proof.
  intros Hx. unfold rnd. destruct (Qle_bool x 0) eqn:E; [reflexivity|].
  apply Qle_bool_iff in Hx. congruence.
Qed.

(** A multiple of [2^e] for an exponent not below that of [x]'s last place
    is an integer multiple of the unit in the last place. *)
Lemma coarse_multiple (m e f : Z) :
  (f <= e)%Z -> inject_Z m * pow2 e == inject_Z (m * 2 ^ (e - f)) * pow2 f.
Proof.
  intros H. rewrite inject_Z_mult, <- pow2_Z by lia.
  rewrite <- Qmult_assoc, <- pow2_add. now replace (e - f + f)%Z with e by lia.
Qed.

Lemma fine_below (m e f : Z) :
  (0 <= m < 2 ^ 24)%Z -> (e < f)%Z -> inject_Z m * pow2 e < pow2 (f + 23).
Proof.
  intros Hm H.
  apply Qlt_le_trans with (pow2 24 * pow2 e).
  - apply Qmult_lt_compat_r; [apply pow2_pos|].
    rewrite pow2_Z by lia. rewrite <- Zlt_Qlt. lia.
  - rewrite <- pow2_add. apply pow2_le. lia.
Qed.

(** Rounding does not cross a binary32 number. *)
Lemma rnd_ge (c x : Q) : representable c -> c <= x -> c <= rnd x.
Proof.
  intros (m & e & Hm & He & Hc) Hcx.
  destruct (Qlt_le_dec 0 x) as [Hx|Hx].
  2:{ rewrite rnd_nonpos by exact Hx.
      pose proof (representable_nonneg c) as H. lra. }
  rewrite rnd_pos by exact Hx. set (f := lsb x) in *.
  pose proof (pow2_pos f) as Hf.
  destruct (Z_le_gt_dec f e) as [Hfe|Hfe].
  - rewrite Hc, (coarse_multiple m e f Hfe).
    apply Qmult_le_compat_r; [|lra]. rewrite <- Zle_Qle.
    apply nearest_even_ge. apply Qle_shift_div_l; [exact Hf|].
    rewrite <- (coarse_multiple m e f Hfe), <- Hc. exact Hcx.
  - apply Qle_trans with (pow2 (f + 23)).
    + rewrite Hc. apply Qlt_le_weak, fine_below; [exact Hm | lia].
    + rewrite pow2_add, Qmult_comm. apply Qmult_le_compat_r; [|lra].
      rewrite pow2_Z by lia. rewrite <- Zle_Qle. apply nearest_even_ge.
      rewrite <- pow2_Z by lia. apply Qle_shift_div_l; [exact Hf|].
      rewrite <- pow2_add, Z.add_comm. apply lsb_lo; [exact Hx | lia].
Qed.

Lemma rnd_le (c x : Q) : representable c -> x <= c -> rnd x <= c.
Proof.
  intros Hr Hxc. pose proof (representable_nonneg c Hr) as Hc0.
  destruct Hr as (m & e & Hm & He & Hc).
  destruct (Qlt_le_dec 0 x) as [Hx|Hx].
  2:{ now rewrite rnd_nonpos by exact Hx. }
  rewrite rnd_pos by exact Hx. set (f := lsb x) in *.
  pose proof (pow2_pos f) as Hf.
  destruct (Z_le_gt_dec f e) as [Hfe|Hfe].
  - rewrite Hc, (coarse_multiple m e f Hfe).
    apply Qmult_le_compat_r; [|lra]. rewrite <- Zle_Qle.
    apply nearest_even_le. apply Qle_shift_div_r; [exact Hf|].
    rewrite <- (coarse_multiple m e f Hfe), <- Hc. exact Hxc.
  - exfalso.
    assert (H1 : c < pow2 (f + 23)).
    { rewrite Hc. apply fine_below; [exact Hm | lia]. }
    assert (H2 : pow2 (f + 23) <= x) by (apply lsb_lo; [exact Hx | lia]).
    lra.
Qed.

Lemma rnd_exact (c : Q) : representable c -> rnd c == c.
Proof.
  intros H. apply Qle_antisym; [apply rnd_le | apply rnd_ge];
    (exact H || apply Qle_refl).
Qed.

Lemma rnd_nonneg (x : Q) : 0 <= rnd x.
Proof.
  destruct (Qlt_le_dec 0 x) as [Hx|Hx].
  - assert (H0 : representable 0).
    { exists 0%Z, 0%Z. split; [lia|]. split; [lia | reflexivity]. }
    apply Qle_trans with (2 := rnd_ge 0 x H0 ltac:(lra)). lra.
  - rewrite rnd_nonpos by exact Hx. lra.
Qed.

Lemma rnd_representable (x : Q) : representable (rnd x).
Proof.
  destruct (Qlt_le_dec 0 x) as [Hx|Hx].
  2:{ rewrite rnd_nonpos by exact Hx. exists 0%Z, 0%Z.
      split; [lia|]. split; [lia | reflexivity]. }
  set (f := lsb x). set (k := nearest_even (x / pow2 f)).
  pose proof (pow2_pos f) as Hf.
  assert (Hk0 : (0 <= k)%Z).
  { apply nearest_even_ge. apply Qle_shift_div_l; [exact Hf|].
    rewrite Qmult_0_l. lra. }
  assert (Hk1 : (k <= 2 ^ 24)%Z).
  { apply nearest_even_le. apply Qle_shift_div_r; [exact Hf|].
    rewrite <- pow2_Z by lia. rewrite <- pow2_add.
    apply Qlt_le_weak. rewrite Z.add_comm. now apply lsb_hi. }
  destruct (Z.eq_dec k (2 ^ 24)%Z) as [Hk|Hk].
  - exists (2 ^ 23)%Z, (f + 1)%Z. split; [lia|].
    split; [pose proof (lsb_min x); unfold f; lia|].
    rewrite rnd_pos by exact Hx. fold f k. rewrite Hk.
    rewrite <- !pow2_Z by lia. rewrite <- !pow2_add.
    now replace (24 + f)%Z with (23 + (f + 1))%Z by lia.
  - exists k, f. split; [lia|]. split; [apply lsb_min|].
    now rewrite rnd_pos by exact Hx.
Qed.

Lemma rnd_mono (x y : Q) : x <= y -> rnd x <= rnd y.
Proof.
  intros Hxy.
  destruct (Qlt_le_dec 0 x) as [Hx|Hx].
  2:{ rewrite (rnd_nonpos x) by exact Hx. apply rnd_nonneg. }
  assert (Hy : 0 < y) by lra.
  pose proof (ilog2_mono x y Hx Hxy) as Hlog.
  destruct (Z.eq_dec (lsb x) (lsb y)) as [Heq|Hne].
  - rewrite !rnd_pos by assumption. rewrite Heq.
    pose proof (pow2_pos (lsb y)) as Hf.
    apply Qmult_le_compat_r; [|lra]. rewrite <- Zle_Qle.
    apply nearest_even_mono. apply Qmult_le_compat_r; [exact Hxy|].
    apply Qlt_le_weak, Qinv_lt_0_compat, Hf.
  - assert (Hlt : (lsb x < lsb y)%Z) by (unfold lsb in *; lia).
    apply Qle_trans with (pow2 (lsb x + 24)).
    + apply rnd_le; [|apply Qlt_le_weak, lsb_hi, Hx].
      exists 1%Z, (lsb x + 24)%Z. split; [lia|].
      split; [pose proof (lsb_min x); lia|]. now rewrite Qmult_1_l.
    + apply Qle_trans with (pow2 (lsb y + 23)); [apply pow2_le; lia|].
      apply rnd_ge; [|apply lsb_lo; [exact Hy | pose proof (lsb_min x); lia]].
      exists 1%Z, (lsb y + 23)%Z. split; [lia|].
      split; [pose proof (lsb_min y); lia|]. now rewrite Qmult_1_l.
Qed.



Lemma Qof_le (a b : N) : (a <= b)%N <-> Qof a <= Qof b.
Proof. unfold Qof. rewrite <- Zle_Qle. lia. Qed.

Lemma Qof_lt (a b : N) : (a < b)%N <-> Qof a < Qof b.
Proof. unfold Qof. rewrite <- Zlt_Qlt. lia. Qed.


Lemma Qof_pow2 (k : N) : Qof (2 ^ k) == pow2 (Z.of_N k).
Proof. unfold Qof. rewrite N2Z.inj_pow, pow2_Z by lia. reflexivity. Qed.

(** *** Binary32 numbers *)
Lemma representable_pow2 (e : Z) : (-149 <= e)%Z -> representable (pow2 e).
Proof.
  intros He. exists 1%Z, e. split; [lia|]. split; [exact He|].
  now rewrite Qmult_1_l.
Qed.

(** An integer up to [2^24] has at most 24 bits. *)
Lemma representable_small (n : N) : (n <= 2 ^ 24)%N -> representable (Qof n).
Proof.
  intros Hn. destruct (N.eq_dec n (2 ^ 24)%N) as [-> |Hne].
  - exists 1%Z, 24%Z. split; [lia|]. split; [lia | reflexivity].
  - exists (Z.of_N n), 0%Z. split; [lia|]. split; [lia|].
    unfold Qof, pow2. simpl. now rewrite Qmult_1_r.
Qed.

Lemma representable_double (c : Q) : representable c -> representable (c * 2).
Proof.
  intros (m & e & Hm & He & Hc). exists m, (e + 1)%Z.
  split; [exact Hm|]. split; [lia|].
  rewrite Hc, pow2_add. unfold pow2 at 3. simpl. ring.
Qed.

Lemma representable_Qeq (c d : Q) :
  c == d -> representable c -> representable d.
Proof.
  intros E (m & e & Hm & He & Hc). exists m, e.
  split; [exact Hm|]. split; [exact He|]. now rewrite <- E.
Qed.

Lemma rnd_size_bound (n : N) : (n <= SizeT.max)%N -> rnd (Qof n) <= pow2 64.
Proof.
  intros Hn. apply rnd_le; [apply representable_pow2; lia|].
  rewrite pow2_Z by lia. unfold Qof. rewrite <- Zle_Qle.
  unfold SizeT.max in Hn. lia.
Qed.

(** Rounding a size takes off less than half of it. *)
Lemma rnd_half (n : N) : (1 <= n)%N -> Qof n < 2 * rnd (Qof n).
Proof.
  intros Hn. set (k := N.log2 n).
  destruct (N.log2_spec n) as [Hlo Hhi]; [lia|]. fold k in Hlo, Hhi.
  assert (H1 : pow2 (Z.of_N k) <= rnd (Qof n)).
  { apply rnd_ge; [apply representable_pow2; lia|].
    rewrite <- Qof_pow2. now apply Qof_le. }
  assert (H2 : Qof n < pow2 (Z.of_N k + 1)).
  { replace (Z.of_N k + 1)%Z with (Z.of_N (N.succ k)) by lia.
    rewrite <- Qof_pow2. now apply Qof_lt. }
  rewrite pow2_add in H2. unfold pow2 at 2 in H2. simpl in H2. lra.
Qed.

(** *** Floats that are not negative *)
Lemma rounded_fin (s : bool) (x : Q) :
  rnd x < pow2 128 -> rounded s x = Fin s (rnd x).
Proof.
  intros H. unfold rounded. destruct (Qle_bool (pow2 128) (rnd x)) eqn:E;
    [|reflexivity].
  apply Qle_bool_iff in E. lra.
Qed.

Lemma rounded_inf (s : bool) (x : Q) :
  pow2 128 <= rnd x -> rounded s x = Inf s.
Proof.
  intros H. unfold rounded. apply Qle_bool_iff in H. now rewrite H.
Qed.

Lemma rounded_cases (s : bool) (x : Q) :
  (rounded s x = Fin s (rnd x) /\ rnd x < pow2 128)
  \/ (rounded s x = Inf s /\ pow2 128 <= rnd x).
Proof.
  destruct (Qlt_le_dec (rnd x) (pow2 128)) as [H|H].
  - left. split; [now apply rounded_fin | exact H].
  - right. split; [now apply rounded_inf | exact H].
Qed.

Lemma pow2_64_128 : pow2 64 < pow2 128.
Proof. apply pow2_lt. lia. Qed.

Lemma of_size_fin (n : N) :
  (n <= SizeT.max)%N -> of_size n = Fin false (rnd (Qof n)).
Proof.
  intros Hn. apply rounded_fin. pose proof (rnd_size_bound n Hn).
  pose proof pow2_64_128. lra.
Qed.

Lemma flt_fin (a b : Q) : flt (Fin false a) (Fin false b) = true <-> a < b.
Proof.
  unfold flt, fcompare, signed. rewrite Qlt_alt.
  destruct (Qcompare a b); split; (reflexivity || discriminate).
Qed.

Lemma flt_fin_false (a b : Q) :
  flt (Fin false a) (Fin false b) = false <-> b <= a.
Proof.
  rewrite <- Bool.not_true_iff_false, flt_fin. split.
  - apply Qnot_lt_le.
  - intros H1 H2. lra.
Qed.

Lemma fle_fin (a b : Q) : fle (Fin false a) (Fin false b) = true <-> a <= b.
Proof.
  unfold fle, fcompare, signed. rewrite Qle_alt.
  destruct (Qcompare a b); split; (reflexivity || discriminate || congruence).
Qed.


(** A float that is finite and above 0. *)
Definition fpositive (x : float) : Prop := exists q, x = Fin false q /\ 0 < q.

Lemma fpositive_one : fpositive one.
Proof. exists 1. split; reflexivity. Qed.

Lemma fdiv_fin (a q : Q) :
  0 < q -> fdiv (Fin false a) (Fin false q) = rounded false (a / q).
Proof.
  intros Hq. unfold fdiv. destruct (Qeq_bool q 0) eqn:E; [|reflexivity].
  apply Qeq_bool_iff in E. lra.
Qed.

Local Close Scope Q_scope.

(** ** UnorderedMap *)
Section UnorderedMap.
Context {Key T : Type} `{!EqDecision Key}.
(** The [Hash] object [h]; [Key]'s [operator==] is decidable equality. *)
Variable h : Key -> N.
(** [T()]. *)
Variable T_default : T.
(** The address [operator new[]] returns for a bucket array of the given
    length.  No member function of the map looks at it. *)
Variable new_array : N -> N.

Definition pair : Type := Pair Key T.
Definition local_iterator : Type := FL.iterator pair.

Record UnorderedMap : Type := mkMap {
  A : Vec.Vector (FL.ForwardList pair);
  currentSize : N;
  _max_load_factor : float
}.

(** [map_iterator]: [bucket] is a position in the bucket array (its offset
    from [A.begin()]), [pos] a position in that bucket's chain.  The field
    [ref] is the map, which the member functions below take as argument. *)
Record map_iterator : Type := mkIter {
  bucket : N;
  pos : local_iterator
}.

Definition iterator_eq (it rhs : map_iterator) : bool :=
  FL.iterator_eq (pos it) (pos rhs) && (bucket it =? bucket rhs).

Definition iterator_ne (it rhs : map_iterator) : bool :=
  negb (iterator_eq it rhs).

Definition deref (it : map_iterator) : result pair := FL.deref (pos it).

Definition bucket_count (m : UnorderedMap) : N := Vec.size (A m).
Definition empty (m : UnorderedMap) : bool := currentSize m =? 0.
Definition size (m : UnorderedMap) : N := currentSize m.

Definition load_factor (m : UnorderedMap) : float :=
  fdiv (of_size (currentSize m)) (of_size (bucket_count m)).
Definition max_load_factor (m : UnorderedMap) : float := _max_load_factor m.
Definition set_max_load_factor (ml : float) (m : UnorderedMap)
  : UnorderedMap :=
  mkMap (A m) (currentSize m) ml.

Definition make_iterator (m : UnorderedMap) (ndx : N) (itr : local_iterator)
  : map_iterator :=
  mkIter (Vec.begin (A m) + ndx) itr.

(** [begin()]: [make_iterator(0, A[0].begin())]. *)
Definition begin (m : UnorderedMap) : result map_iterator :=
  b <- Vec.index (A m) 0 ;;
  Ok (make_iterator m 0 (FL.begin b)).

(** [end()]: [make_iterator(bucket_count())], the chain position is [NULL]. *)
Definition end_ (m : UnorderedMap) : map_iterator :=
  make_iterator m (bucket_count m) [].

(** The member initializers of [UnorderedMap(n)], with [len] the value of
    [nextPrime(n)]: a bucket array of [len] empty chains, no pair, maximum
    load factor 1.0. *)
Definition with_buckets (len : N) : UnorderedMap :=
  mkMap (Vec.ctor (new_array len) len FL.default) 0 one.

(** [UnorderedMap(n)] and the default constructor [UnorderedMap(1)]. *)
Definition ctor (n : N) : result UnorderedMap :=
  len <- nextPrime n ;;
  Ok (with_buckets len).
Definition default : result UnorderedMap := ctor 1.

(** [clear()]: [A.clear()], nothing else. *)
Definition clear (m : UnorderedMap) : UnorderedMap :=
  mkMap (Vec.clear (A m)) (currentSize m) (_max_load_factor m).

(** The loop [while (itr != end) { if (itr->first == k) ...; ++itr; }] that
    the const [find] and the subscript operator share: the position of the
    first entry with key [k], or the end position [NULL]. *)
Fixpoint scan (k : Key) (itr : local_iterator) : local_iterator :=
  match itr with
  | [] => []
  | p :: next => if bool_decide (first p = k) then itr else scan k next
  end.

(** [find(k) const]. *)
Definition find_const (k : Key) (m : UnorderedMap) : result map_iterator :=
  index <- modulo (h k) (bucket_count m) ;;
  b <- Vec.index (A m) index ;;
  match scan k (FL.begin b) with
  | [] => Ok (end_ m)
  | itr => Ok (make_iterator m index itr)
  end.

(** [count(k)]: [(find(k) != cend()) ? 1 : 0], with the const [find]. *)
Definition count (k : Key) (m : UnorderedMap) : result N :=
  it <- find_const k m ;;
  Ok (if iterator_ne it (end_ m) then 1 else 0).

(** The loop of the non-const [find]:
    [do { if (itr->first == k) break; ++itr; } while (itr != end(index));] *)
Fixpoint find_loop (k : Key) (itr : local_iterator) : result local_iterator :=
  match itr with
  | [] => Raise NullDeref
  | p :: next =>
      if bool_decide (first p = k) then Ok itr
      else match next with
           | [] => Ok []
           | _ :: _ => find_loop k next
           end
  end.

(** [find(k)]. *)
Definition find (k : Key) (m : UnorderedMap) : result map_iterator :=
  index <- modulo (h k) (bucket_count m) ;;
  b <- Vec.index (A m) index ;;
  itr <- find_loop k (FL.begin b) ;;
  Ok (make_iterator m index itr).

(** The loop of [rehash] that settles the bucket count:
    [while (n < currentSize / max_load_factor())
       n = (size_t)(currentSize / max_load_factor() * 2);] *)
Fixpoint grow (rounds : nat) (n cs : N) (ml : float) : result N :=
  if flt (of_size n) (fdiv (of_size cs) ml)
  then match rounds with
       | O => Raise NoProgress
       | S r =>
           n' <- to_size (fmul (fdiv (of_size cs) ml) two) ;;
           grow r n' cs ml
       end
  else Ok n.

(** The inner loop of [rehash] over one old chain:
    [temp[h(itr->first) % temp.size()].push_front(std::move( *itr))]. *)
Fixpoint move_chain (itr : local_iterator)
    (temp : Vec.Vector (FL.ForwardList pair))
  : result (Vec.Vector (FL.ForwardList pair)) :=
  match itr with
  | [] => Ok temp
  | p :: next =>
      index <- modulo (h (first p)) (Vec.size temp) ;;
      temp' <- Vec.update temp index (FL.push_front p) ;;
      move_chain next temp'
  end.

(** The outer loop of [rehash], [count] buckets from index [i] on. *)
Fixpoint move_buckets (count : nat) (i : N)
    (a temp : Vec.Vector (FL.ForwardList pair))
  : result (Vec.Vector (FL.ForwardList pair)) :=
  match count with
  | O => Ok temp
  | S c =>
      b <- Vec.index a i ;;
      temp' <- move_chain (FL.begin b) temp ;;
      move_buckets c (i + 1) a temp'
  end.

(** [rehash(n)].  The [while] loop is given two rounds: entered with
    [n >= 1] it never takes more ([grow_leaves] below), and one round is all
    it takes when it returns ([grow_one_round]). *)
Definition rehash (n : N) (m : UnorderedMap) : result UnorderedMap :=
  let n := if n =? 0 then 1 else n in
  n <- grow 2 n (currentSize m) (max_load_factor m) ;;
  len <- nextPrime n ;;
  let temp := Vec.ctor (new_array len) len FL.default in
  temp <- move_buckets (N.to_nat (Vec.size (A m))) 0 (A m) temp ;;
  Ok (mkMap (fst (Vec.move_assign (A m) temp))
            (currentSize m) (_max_load_factor m)).

(** The first statement of [insert] and of the subscript operator:
    [if (load_factor() >= max_load_factor()) rehash(currentSize * 2);] *)
Definition check_load (m : UnorderedMap) : result UnorderedMap :=
  if fge (load_factor m) (max_load_factor m)
  then rehash (SizeT.mul (currentSize m) 2) m
  else Ok m.

(** The loop [while (itr->first != p.first) ++itr;] of [insert]. *)
Fixpoint scan_key (k : Key) (itr : local_iterator) : result local_iterator :=
  match itr with
  | [] => Raise NullDeref
  | p :: next => if bool_decide (first p = k) then Ok itr else scan_key k next
  end.

(** [insert(p)]: the map afterwards and the returned [Pair<iterator, bool>]. *)
Definition insert (p : pair) (m : UnorderedMap)
  : result (UnorderedMap * Pair map_iterator bool) :=
  m <- check_load m ;;
  index <- modulo (h (first p)) (bucket_count m) ;;
  b <- Vec.index (A m) index ;;
  let itr := FL.begin b in
  c <- count (first p) m ;;
  if 0 <? c then
    itr <- scan_key (first p) itr ;;
    Ok (m, mkPair (make_iterator m index itr) false)
  else
    a <- Vec.update (A m) index (FL.push_front p) ;;
    let m' := mkMap a (SizeT.add (currentSize m) 1) (_max_load_factor m) in
    Ok (m', mkPair (make_iterator m' index itr) true).

(** The two places of the subscript operator that create an entry:
    [A[ndx].push_front(pair(k, T())); currentSize++;
     return A[ndx].front().second;] *)
Definition materialize (k : Key) (ndx : N) (m : UnorderedMap)
  : result (UnorderedMap * T) :=
  a <- Vec.update (A m) ndx (FL.push_front (mkPair k T_default)) ;;
  b <- Vec.index a ndx ;;
  p <- FL.front b ;;
  Ok (mkMap a (SizeT.add (currentSize m) 1) (_max_load_factor m), second p).

(** [operator[](k)]: the map afterwards and the value the returned
    reference designates. *)
Definition subscript (k : Key) (m : UnorderedMap) : result (UnorderedMap * T) :=
  m <- check_load m ;;
  ndx <- modulo (h k) (bucket_count m) ;;
  b <- Vec.index (A m) ndx ;;
  if FL.empty b then materialize k ndx m
  else match scan k (FL.begin b) with
       | [] => materialize k ndx m
       | p :: _ => Ok (m, second p)
       end.

(** The loop of [operator++]:
    [while (pos == bucket->end() && bucket != ref.A.end())
       { bucket++; pos = bucket->begin(); }]
    [rest] holds the cells of the bucket array after [bucket]; stepping onto
    a bucket that is not among them reads outside the buffer. *)
Fixpoint skip (rest : list (FL.ForwardList pair)) (bucket last : N)
    (pos : local_iterator) : result map_iterator :=
  if FL.iterator_eq pos [] && negb (bucket =? last)
  then match rest with
       | [] => Raise OutOfBounds
       | b :: rest' => skip rest' (bucket + 1) last (FL.begin b)
       end
  else Ok (mkIter bucket pos).

(** [operator++] of [map_iterator]. *)
Definition incr (m : UnorderedMap) (it : map_iterator) : result map_iterator :=
  pos' <- FL.incr (pos it) ;;
  it' <- skip (drop (S (N.to_nat (bucket it))) (Vec.cells (A m)))
              (bucket it) (Vec.end_ (A m)) pos' ;;
  if bucket it' =? Vec.end_ (A m)
  then Ok (mkIter (bucket it') [])
  else Ok it'.

(** ** The stored pairs and the state invariant *)

(** The chains of the live buckets, in bucket order. *)
Definition chains (v : Vec.Vector (FL.ForwardList pair)) : list (list pair) :=
  FL.head <$> take (N.to_nat (Vec.size v)) (Vec.cells v).

(** The pairs the map stores. *)
Definition pairs (m : UnorderedMap) : list pair := concat (chains (A m)).

(** A bucket array as the constructors build it: a buffer whose every cell
    is a live bucket. *)
Definition full (v : Vec.Vector (FL.ForwardList pair)) : Prop :=
  Vec._data v <> None
  /\ N.of_nat (length (Vec.cells v)) = Vec.size v
  /\ Vec.currentCapacity v = Vec.size v.

(** Every pair sits in the bucket its key hashes to. *)
Definition homed (v : Vec.Vector (FL.ForwardList pair)) : Prop :=
  forall (i : nat) (b : FL.ForwardList pair) (p : pair),
    Vec.cells v !! i = Some b -> p ∈ FL.head b ->
    h (first p) mod Vec.size v = N.of_nat i.

Record valid (m : UnorderedMap) : Prop := mkValid {
  valid_full : full (A m);
  valid_count : 1 <= bucket_count m;
  valid_load : fpositive (_max_load_factor m);
  valid_homed : homed (A m);
  valid_unique : NoDup (first <$> pairs m)
}.

(** [insert] called on each pair in turn. *)
Fixpoint insert_all (ps : list pair) (m : UnorderedMap) : result UnorderedMap :=
  match ps with
  | [] => Ok m
  | p :: ps' => r <- insert p m ;; insert_all ps' (fst r)
  end.

(** What a sequence of insertions is to store: a pair is added unless its
    key is there already. *)
Definition put (l : list pair) (p : pair) : list pair :=
  if decide (first p ∈ first <$> l) then l else p :: l.

(** The value that the first insertion of [k] in [ps] carries. *)
Fixpoint first_inserted (k : Key) (ps : list pair) : option T :=
  match ps with
  | [] => None
  | p :: ps' =>
      if decide (first p = k) then Some (second p) else first_inserted k ps'
  end.

Lemma modulo_Ok (a s : N) : 1 <= s -> modulo a s = Ok (a mod s) /\ a mod s < s.
Proof.
  intros Hs. unfold modulo. destruct (N.eqb_spec s 0); [lia|].
  split; [reflexivity | apply N.mod_lt; lia].
Qed.

Lemma index_Ok (v : Vec.Vector (FL.ForwardList pair)) (i : N)
    (b : FL.ForwardList pair) :
  Vec.index v i = Ok b -> Vec.cells v !! N.to_nat i = Some b.
Proof.
  unfold Vec.index. destruct (Vec._data v); [|discriminate].
  destruct (Vec.cells v !! N.to_nat i); [|discriminate]. congruence.
Qed.

Lemma index_full (v : Vec.Vector (FL.ForwardList pair)) (i : N) :
  full v -> i < Vec.size v ->
  exists b, Vec.cells v !! N.to_nat i = Some b /\ Vec.index v i = Ok b.
Proof.
  intros (Hd & Hlen & _) Hi.
  destruct (lookup_lt_is_Some_2 (Vec.cells v) (N.to_nat i)) as [b Hb]; [lia|].
  exists b. split; [exact Hb|]. unfold Vec.index.
  destruct (Vec._data v); [|congruence]. now rewrite Hb.
Qed.

Lemma update_full (v : Vec.Vector (FL.ForwardList pair)) (i : N)
    (f : FL.ForwardList pair -> FL.ForwardList pair) :
  full v -> i < Vec.size v ->
  exists b,
    Vec.cells v !! N.to_nat i = Some b
    /\ Vec.update v i f
       = Ok (Vec.mkVector (Vec._data v) (<[N.to_nat i := f b]> (Vec.cells v))
                          (Vec.currentSize v) (Vec.currentCapacity v)).
Proof.
  intros Hf Hi. destruct (index_full v i Hf Hi) as (b & Hb & Hidx).
  exists b. split; [exact Hb|]. unfold Vec.update. now rewrite Hidx.
Qed.

Lemma chains_full (v : Vec.Vector (FL.ForwardList pair)) :
  full v -> chains v = FL.head <$> Vec.cells v.
Proof.
  intros (_ & Hlen & _). unfold chains. rewrite take_ge; [reflexivity | lia].
Qed.

(** Pushing a pair onto one chain adds that pair to the stored pairs. *)
Lemma concat_push (l : list (FL.ForwardList pair)) (i : nat)
    (b : FL.ForwardList pair) (p : pair) :
  l !! i = Some b ->
  concat (FL.head <$> <[i := FL.push_front p b]> l)
  ≡ₚ p :: concat (FL.head <$> l).
Proof.
  revert i. induction l as [|c l IH]; intros [|i] Hl; simplify_eq/=.
  - reflexivity.
  - rewrite (IH i Hl). symmetry. apply Permutation_middle.
Qed.

Lemma homed_push (v : Vec.Vector (FL.ForwardList pair)) (i : N)
    (b : FL.ForwardList pair) (p : pair) :
  homed v -> Vec.cells v !! N.to_nat i = Some b ->
  h (first p) mod Vec.size v = i ->
  homed (Vec.mkVector (Vec._data v)
           (<[N.to_nat i := FL.push_front p b]> (Vec.cells v))
           (Vec.currentSize v) (Vec.currentCapacity v)).
Proof.
  intros Hh Hb Hp j c q. unfold Vec.size in *. simpl.
  destruct (decide (j = N.to_nat i)) as [-> |Hne].
  - rewrite list_lookup_insert_eq by (eapply lookup_lt_Some; exact Hb).
    intros [= <-]. simpl. rewrite elem_of_cons. intros [-> |Hq].
    + rewrite Hp. lia.
    + exact (Hh _ _ _ Hb Hq).
  - rewrite list_lookup_insert_ne by congruence. apply Hh.
Qed.

Lemma full_push (v : Vec.Vector (FL.ForwardList pair)) (i : nat)
    (c : FL.ForwardList pair) :
  full v ->
  full (Vec.mkVector (Vec._data v) (<[i := c]> (Vec.cells v))
          (Vec.currentSize v) (Vec.currentCapacity v)).
Proof.
  intros (Hd & Hlen & Hcap). unfold full, Vec.size in *. simpl.
  rewrite length_insert. auto.
Qed.

(** The inner loop of [rehash] moves every pair of the chain into the bucket
    of [temp] that its key hashes to. *)
Lemma move_chain_spec (l : list pair)
    (temp : Vec.Vector (FL.ForwardList pair)) :
  full temp -> 1 <= Vec.size temp -> homed temp ->
  exists temp',
    move_chain l temp = Ok temp'
    /\ full temp' /\ Vec.size temp' = Vec.size temp /\ homed temp'
    /\ concat (FL.head <$> Vec.cells temp')
       ≡ₚ l ++ concat (FL.head <$> Vec.cells temp).
Proof.
  revert temp. induction l as [|p l IH]; intros temp Hf Hs Hh; simpl.
  - exists temp. auto.
  - destruct (modulo_Ok (h (first p)) (Vec.size temp) Hs) as [-> Hlt]. simpl.
    destruct (update_full temp _ (FL.push_front p) Hf Hlt) as (b & Hb & ->).
    simpl.
    edestruct IH as (temp' & Hm & Hf' & Hs' & Hh' & Hperm);
      [apply full_push, Hf | exact Hs | apply homed_push; eauto |].
    exists temp'. split; [exact Hm|]. split; [exact Hf'|].
    split; [exact Hs'|]. split; [exact Hh'|].
    rewrite Hperm. simpl. rewrite (concat_push _ _ _ _ Hb).
    symmetry. apply Permutation_middle.
Qed.

(** The outer loop does so for [count] buckets from index [i] on. *)
Lemma move_buckets_spec (count : nat) (i : N)
    (a temp : Vec.Vector (FL.ForwardList pair)) :
  (count <> O -> Vec._data a <> None) ->
  (N.to_nat i + count <= length (Vec.cells a))%nat ->
  full temp -> 1 <= Vec.size temp -> homed temp ->
  exists temp',
    move_buckets count i a temp = Ok temp'
    /\ full temp' /\ Vec.size temp' = Vec.size temp /\ homed temp'
    /\ concat (FL.head <$> Vec.cells temp')
       ≡ₚ concat (FL.head <$> take count (drop (N.to_nat i) (Vec.cells a)))
          ++ concat (FL.head <$> Vec.cells temp).
Proof.
  revert i temp. induction count as [|c IH]; intros i temp Hd Hlen Hf Hs Hh.
  - exists temp. simpl. auto.
  - simpl. destruct (lookup_lt_is_Some_2 (Vec.cells a) (N.to_nat i))
      as [b Hb]; [lia|].
    unfold Vec.index at 1. destruct (Vec._data a) eqn:Hda; [|now destruct Hd].
    rewrite Hb. simpl.
    destruct (move_chain_spec (FL.begin b) temp Hf Hs Hh)
      as (t1 & -> & Hf1 & Hs1 & Hh1 & Hp1). simpl.
    destruct (IH (i + 1) t1) as (t2 & Hm & Hf2 & Hs2 & Hh2 & Hp2);
      [intros _; congruence | lia | exact Hf1 | lia | exact Hh1 |].
    exists t2. split; [exact Hm|]. split; [exact Hf2|].
    split; [congruence|]. split; [exact Hh2|].
    rewrite Hp2, Hp1. rewrite (drop_S _ _ _ Hb). simpl.
    replace (N.to_nat (i + 1)) with (S (N.to_nat i)) by lia.
    unfold FL.begin. rewrite <- !app_assoc.
    apply Permutation_app_swap_app.
Qed.

Lemma scan_absent (k : Key) (l : list pair) :
  k ∉ first <$> l -> scan k l = [].
Proof.
  induction l as [|p l IH]; simpl; [reflexivity|].
  rewrite not_elem_of_cons. intros [Hne Hl].
  rewrite bool_decide_eq_false_2 by congruence. exact (IH Hl).
Qed.

Lemma scan_present (k : Key) (l : list pair) :
  k ∈ first <$> l ->
  exists p rest, scan k l = p :: rest /\ first p = k /\ p ∈ l.
Proof.
  induction l as [|p l IH]; simpl.
  - intros H. now apply elem_of_nil in H.
  - intros H. destruct (decide (first p = k)) as [Heq|Hne].
    + rewrite bool_decide_eq_true_2 by exact Heq.
      exists p, l. split; [reflexivity|]. split; [exact Heq | left].
    + rewrite bool_decide_eq_false_2 by exact Hne.
      apply elem_of_cons in H as [H|H]; [congruence|].
      destruct (IH H) as (q & rest & Hs & Hq & Hin).
      exists q, rest. split; [exact Hs|]. split; [exact Hq | now right].
Qed.

(** On a chain that is not empty the [do ... while] loop of [find] ends
    where the [while] loop of the const [find] ends. *)
Lemma find_loop_scan (k : Key) (l : list pair) :
  l <> [] -> find_loop k l = Ok (scan k l).
Proof.
  induction l as [|p l IH]; [congruence|]. intros _. simpl.
  destruct (bool_decide (first p = k)); [reflexivity|].
  destruct l as [|q l]; [reflexivity|]. apply IH. discriminate.
Qed.

Lemma scan_key_scan (k : Key) (l : list pair) :
  k ∈ first <$> l -> scan_key k l = Ok (scan k l).
Proof.
  induction l as [|p l IH]; simpl.
  - intros H. now apply elem_of_nil in H.
  - intros H. destruct (decide (first p = k)) as [Heq|Hne].
    + now rewrite bool_decide_eq_true_2 by exact Heq.
    + rewrite bool_decide_eq_false_2 by exact Hne.
      apply elem_of_cons in H as [H|H]; [congruence | exact (IH H)].
Qed.

Lemma unique_key (l : list pair) (p q : pair) :
  NoDup (first <$> l) -> p ∈ l -> q ∈ l -> first p = first q -> p = q.
Proof.
  induction l as [|x l IH]; simpl.
  - intros _ H. now apply elem_of_nil in H.
  - rewrite NoDup_cons. intros [Hx Hl] Hp Hq Heq.
    apply elem_of_cons in Hp as [-> |Hp]; apply elem_of_cons in Hq as [-> |Hq].
    + reflexivity.
    + destruct Hx. rewrite Heq. now apply list_elem_of_fmap_2.
    + destruct Hx. rewrite <- Heq. now apply list_elem_of_fmap_2.
    + now apply IH.
Qed.

Lemma elem_of_concat_cells (l : list (FL.ForwardList pair)) (p : pair) :
  p ∈ concat (FL.head <$> l)
  <-> exists (i : nat) (b : FL.ForwardList pair),
        l !! i = Some b /\ p ∈ FL.head b.
Proof.
  rewrite list_elem_of_In, in_concat. split.
  - intros (c & Hc & Hp). apply list_elem_of_In in Hc, Hp.
    apply list_elem_of_fmap in Hc as (b & -> & Hb).
    apply list_elem_of_lookup in Hb as [i Hi]. eauto.
  - intros (i & b & Hi & Hp). exists (FL.head b).
    rewrite <- !list_elem_of_In. split; [|exact Hp].
    apply list_elem_of_fmap_2. eapply list_elem_of_lookup_2, Hi.
Qed.

Lemma elem_of_pairs (m : UnorderedMap) (p : pair) :
  full (A m) ->
  p ∈ pairs m
  <-> exists (i : nat) (b : FL.ForwardList pair),
        Vec.cells (A m) !! i = Some b /\ p ∈ FL.head b.
Proof.
  intros Hf. unfold pairs. rewrite (chains_full _ Hf).
  apply elem_of_concat_cells.
Qed.

(** A key is stored exactly when it is in the chain of the bucket it hashes
    to. *)
Lemma key_in_bucket (m : UnorderedMap) (k : Key) (b : FL.ForwardList pair) :
  full (A m) -> homed (A m) ->
  Vec.cells (A m) !! N.to_nat (h k mod bucket_count m) = Some b ->
  k ∈ first <$> pairs m <-> k ∈ first <$> FL.head b.
Proof.
  intros Hf Hh Hb. rewrite !list_elem_of_fmap. split.
  - intros (p & -> & Hp). exists p. split; [reflexivity|].
    apply (elem_of_pairs m p Hf) in Hp as (i & c & Hc & Hp).
    pose proof (Hh i c p Hc Hp) as Hi. unfold bucket_count in Hb.
    rewrite Hi, Nat2N.id in Hb. assert (c = b) by congruence. now subst.
  - intros (p & -> & Hp). exists p. split; [reflexivity|].
    apply (elem_of_pairs m p Hf). eauto.
Qed.

(** [find(k)] on a stored key: the position of the pair with that key, in
    the bucket the key hashes to. *)
Lemma find_stored (m : UnorderedMap) (k : Key) (v : T) :
  valid m -> mkPair k v ∈ pairs m ->
  exists rest,
    find k m = Ok (mkIter (h k mod bucket_count m) (mkPair k v :: rest)).
Proof.
  intros [Hf Hc Hl Hh Hu] Hp. unfold find.
  destruct (modulo_Ok (h k) (bucket_count m) Hc) as [-> Hlt]. simpl.
  destruct (index_full (A m) _ Hf Hlt) as (b & Hb & ->). simpl.
  assert (Hk : k ∈ first <$> FL.head b).
  { apply (key_in_bucket m k b Hf Hh Hb).
    now apply (list_elem_of_fmap_2 first) in Hp. }
  destruct (scan_present k _ Hk) as (q & rest & Hscan & Hq & Hin).
  unfold FL.begin. rewrite find_loop_scan.
  2:{ intros Hnil. rewrite Hnil in Hin. now apply elem_of_nil in Hin. }
  rewrite Hscan. simpl. exists rest. unfold make_iterator, Vec.begin.
  rewrite N.add_0_l. do 3 f_equal.
  apply (unique_key (pairs m)); [exact Hu | | exact Hp | exact Hq].
  apply (elem_of_pairs m q Hf). eauto.
Qed.

Lemma full_wf (v : Vec.Vector (FL.ForwardList pair)) : full v -> Vec.wf v.
Proof.
  intros (Hd & Hlen & Hcap). unfold Vec.wf, Vec.size in *.
  split; [lia|]. split; [lia|]. intros Hn. now destruct Hd.
Qed.

Lemma put_perm (l l' : list pair) (p : pair) :
  l ≡ₚ l' -> put l p ≡ₚ put l' p.
Proof.
  intros Hp. unfold put.
  destruct (decide (first p ∈ first <$> l)) as [Hin|Hout];
    destruct (decide (first p ∈ first <$> l')) as [Hin'|Hout'].
  - exact Hp.
  - destruct Hout'. now rewrite <- Hp.
  - destruct Hout. now rewrite Hp.
  - now rewrite Hp.
Qed.

Lemma foldl_put_perm (ps : list pair) (l l' : list pair) :
  l ≡ₚ l' -> foldl put l ps ≡ₚ foldl put l' ps.
Proof.
  revert l l'. induction ps as [|p ps IH]; intros l l' Hp; simpl.
  - exact Hp.
  - apply IH. now apply put_perm.
Qed.

Lemma foldl_put_elem (ps : list pair) (l : list pair) (k : Key) (v : T) :
  mkPair k v ∈ l
  \/ ((k ∉ first <$> l) /\ first_inserted k ps = Some v) ->
  mkPair k v ∈ foldl put l ps.
Proof.
  revert l. induction ps as [|p ps IH]; intros l; simpl.
  - intros [H|[_ H]]; [exact H | discriminate].
  - intros H. apply IH. unfold put.
    destruct (decide (first p ∈ first <$> l)) as [Hin|Hout].
    + destruct H as [H|[Hk H]]; [now left|].
      destruct (decide (first p = k)) as [Heq|Hne]; [congruence|].
      right. auto.
    + destruct H as [H|[Hk H]]; [left; apply elem_of_cons; now right|].
      destruct (decide (first p = k)) as [Heq|Hne].
      * left. apply elem_of_cons. left.
        destruct p as [pk pv]. simpl in *. congruence.
      * right. split; [|exact H]. simpl. rewrite not_elem_of_cons.
        split; [congruence | exact Hk].
Qed.

Lemma stored_in_home (m : UnorderedMap) (p : pair) :
  valid m -> p ∈ pairs m ->
  exists b,
    Vec.index (A m) (h (first p) mod bucket_count m) = Ok b
    /\ p ∈ FL.head b.
Proof.
  intros [Hf Hc Hl Hh Hu] Hp.
  apply (elem_of_pairs m p Hf) in Hp as (i & b & Hb & Hp).
  pose proof (Hh i b p Hb Hp) as Hi. exists b. split; [|exact Hp].
  unfold Vec.index, bucket_count. destruct Hf as (Hd & _).
  destruct (Vec._data (A m)); [|congruence].
  now rewrite Hi, Nat2N.id, Hb.
Qed.

(** ** The loop of [rehash] that settles the bucket count *)

(** The bucket count the loop asks for,
    [currentSize / max_load_factor() * 2]. *)
Definition request (cs : N) (ml : float) : float :=
  fmul (fdiv (of_size cs) ml) two.

(** The float [x] is a number from 0 to [n]. *)
Definition within (x : float) (n : N) : Prop :=
  exists q, x = Fin false q /\ (q <= Qof n)%Q.

(** [currentSize / max_load_factor()] for a positive maximum load factor
    [q], as a rational number, where it is finite. *)
Definition quotient (cs : N) (q : Q) : Q := rnd (rnd (Qof cs) / q).

Lemma quotient_representable (cs : N) (q : Q) : representable (quotient cs q).
Proof. apply rnd_representable. Qed.

Lemma quotient_mono (cs cs' : N) (q : Q) :
  (0 < q)%Q -> cs' <= cs -> (quotient cs' q <= quotient cs q)%Q.
Proof.
  intros Hq Hle. unfold quotient. apply rnd_mono.
  apply Qmult_le_compat_r; [|apply Qlt_le_weak, Qinv_lt_0_compat, Hq].
  apply rnd_mono. now apply Qof_le.
Qed.

Lemma rounded_Fin (s s' : bool) (x y : Q) :
  rounded s x = Fin s' y -> s' = s /\ y = rnd x /\ (rnd x < pow2 128)%Q.
Proof.
  destruct (rounded_cases s x) as [[-> H]|[-> _]]; [|discriminate].
  intros [= <- <-]. auto.
Qed.

Lemma rnd_double (a : Q) : representable a -> (rnd (a * 2) == a * 2)%Q.
Proof. intros H. apply rnd_exact. now apply representable_double. Qed.

(** A request that is a number: the size and the quotient are floats, and
    the request is twice the quotient. *)
Lemma request_Fin (cs : N) (q q2 : Q) (s : bool) :
  (0 < q)%Q -> request cs (Fin false q) = Fin s q2 ->
  s = false
  /\ of_size cs = Fin false (rnd (Qof cs))
  /\ fdiv (of_size cs) (Fin false q) = Fin false (quotient cs q)
  /\ (q2 == quotient cs q * 2)%Q.
Proof.
  intros Hq. unfold request, of_size.
  destruct (rounded_cases false (Qof cs)) as [[-> _]|[-> _]];
    [|discriminate].
  rewrite fdiv_fin by exact Hq. fold (quotient cs q).
  destruct (rounded_cases false (rnd (Qof cs) / q)) as [[-> _]|[-> _]];
    [|discriminate].
  simpl. intros H. apply rounded_Fin in H as (-> & -> & _).
  split; [reflexivity|]. split; [reflexivity|]. split; [reflexivity|].
  apply rnd_double, quotient_representable.
Qed.

Lemma request_within (cs n : N) (q : Q) :
  (0 < q)%Q -> within (request cs (Fin false q)) n ->
  (quotient cs q * 2 <= Qof n)%Q.
Proof.
  intros Hq (q2 & Hr & Hle).
  apply request_Fin in Hr as (_ & _ & _ & E); [|exact Hq]. now rewrite <- E.
Qed.

Lemma Qof_size_bound (n : N) : n <= SizeT.max -> (Qof n < pow2 64)%Q.
Proof.
  intros Hn. rewrite pow2_Z by lia. unfold Qof. rewrite <- Zlt_Qlt.
  unfold SizeT.max in Hn. lia.
Qed.

(** Sizes whose doubled quotient is a size give a request that is that
    number. *)
Lemma within_request (cs n : N) (q : Q) :
  (0 < q)%Q -> cs <= SizeT.max -> n <= SizeT.max ->
  (quotient cs q * 2 <= Qof n)%Q -> within (request cs (Fin false q)) n.
Proof.
  intros Hq Hcs Hn Hle. unfold request, within.
  pose proof (Qof_size_bound n Hn) as Hmax. pose proof pow2_64_128 as H64.
  pose proof (rnd_double _ (quotient_representable cs q)) as Hd.
  assert (Hq0 : (0 <= quotient cs q)%Q) by apply rnd_nonneg.
  rewrite of_size_fin, fdiv_fin by assumption. unfold quotient in *.
  rewrite rounded_fin by lra. simpl. rewrite rounded_fin by lra.
  eexists. split; [reflexivity | lra].
Qed.

(** A size that is at least 1 is at least 1 as a float. *)
Lemma of_size_ge_1 (n : N) :
  1 <= n -> of_size n = Inf false
            \/ exists a, of_size n = Fin false a /\ (1 <= a)%Q
                         /\ (Qof n < 2 * a)%Q /\ a = rnd (Qof n).
Proof.
  intros Hn. unfold of_size.
  destruct (rounded_cases false (Qof n)) as [[-> _]|[-> _]]; [right | now left].
  exists (rnd (Qof n)). split; [reflexivity|]. split.
  - apply (rnd_ge 1); [apply (representable_pow2 0); lia|].
    change 1%Q with (Qof 1). now apply Qof_le.
  - split; [now apply rnd_half | reflexivity].
Qed.

(** Once [n], as a float, is not below the quotient the loop is left. *)
Lemma grow_settled (r : nat) (n cs : N) (ml : float) :
  flt (of_size n) (fdiv (of_size cs) ml) = false -> grow r n cs ml = Ok n.
Proof. intros H. destruct r; simpl; now rewrite H. Qed.

(** The count the loop takes when it runs: it is above [n] and, as a
    float, not below the quotient [a]. *)
Lemma grow_step (n : N) (a r : Q) :
  1 <= n -> representable a -> (r == a * 2)%Q -> (r < pow2 64)%Q ->
  flt (of_size n) (Fin false a) = true ->
  let n' := Z.to_N (Qfloor r) in
  n <= n' /\ n' <= SizeT.max /\ (Qof n' <= r)%Q
  /\ flt (of_size n') (Fin false a) = false.
Proof.
  intros Hn Ha Hr Hmax Hlt n'.
  destruct (of_size_ge_1 n Hn) as [E|(b & E & Hb1 & Hb2 & _)];
    rewrite E in Hlt; [discriminate|].
  apply flt_fin in Hlt.
  assert (Hfl : (Z.of_N n <= Qfloor r)%Z).
  { rewrite <- (Qfloor_Z (Z.of_N n)). apply Qfloor_resp_le.
    fold (Qof n). lra. }
  assert (Hn' : Qof n' = inject_Z (Qfloor r)).
  { unfold Qof, n'. rewrite Z2N.id by lia. reflexivity. }
  pose proof (Qfloor_le r) as Hle. pose proof (Qlt_floor r) as Hgt.
  rewrite inject_Z_plus in Hgt. change (inject_Z 1) with 1%Q in Hgt.
  assert (Hsz : n' <= SizeT.max).
  { assert (H : (Qfloor r < 2 ^ 64)%Z).
    { rewrite Zlt_Qlt, <- pow2_Z by lia. lra. }
    unfold n', SizeT.max. lia. }
  split; [unfold n'; lia|]. split; [exact Hsz|].
  split; [rewrite Hn'; exact Hle|].
  rewrite of_size_fin by exact Hsz. apply flt_fin_false.
  apply rnd_ge; [exact Ha|]. rewrite Hn'. lra.
Qed.

(** With a positive maximum load factor, [n >= 1] and a request that
    converts to [size_t], the loop is left after at most one round, with a
    count that, as a float, is not below the quotient
    [currentSize / max_load_factor]. *)
Lemma grow_one_round (r : nat) (n cs : N) (q q2 : Q) :
  (0 < q)%Q -> 1 <= n ->
  request cs (Fin false q) = Fin false q2 -> (q2 < pow2 64)%Q ->
  exists n',
    grow (S r) n cs (Fin false q) = Ok n' /\ n <= n'
    /\ flt (of_size n') (fdiv (of_size cs) (Fin false q)) = false
    /\ (n' = n \/ (Qof n' <= q2)%Q).
Proof.
  intros Hq Hn Hreq Hmax.
  pose proof Hreq as Hreq'. unfold request in Hreq'.
  destruct (request_Fin cs q q2 false Hq Hreq) as (_ & _ & Hdiv & Hq2).
  cbn [grow]. rewrite Hdiv in *.
  destruct (flt (of_size n) (Fin false (quotient cs q))) eqn:E.
  - rewrite Hreq'. cbn [to_size].
    destruct (Qle_bool (pow2 64) q2) eqn:E2;
      [apply Qle_bool_iff in E2; lra|].
    cbn [bind].
    destruct (grow_step n (quotient cs q) q2 Hn
                (quotient_representable cs q) Hq2 Hmax E)
      as (H1 & H2 & H3 & H4).
    exists (Z.to_N (Qfloor q2)).
    split; [apply grow_settled; now rewrite Hdiv|].
    split; [exact H1|]. split; [exact H4 | now right].
  - exists n. split; [reflexivity|]. split; [lia|]. split; [exact E | now left].
Qed.

(** What a division gives is a binary32 number, when it is a number. *)
Lemma fdiv_representable (x y : float) (s : bool) (a : Q) :
  fdiv x y = Fin s a -> representable a.
Proof.
  assert (H0 : representable 0).
  { exists 0%Z, 0%Z. split; [lia|]. split; [lia | reflexivity]. }
  destruct x as [|sx|sx ax], y as [|sy|sy ay]; simpl; try discriminate.
  - intros [= _ <-]. exact H0.
  - destruct (Qeq_bool ay 0); [destruct (Qeq_bool ax 0); discriminate|].
    intros H. apply rounded_Fin in H as (_ & -> & _). apply rnd_representable.
Qed.

(** For [n >= 1] the two rounds allotted to the loop are enough, whatever
    the maximum load factor: it returns, or the conversion to [size_t] is
    not defined. *)
Lemma grow_leaves (n cs : N) (ml : float) :
  1 <= n ->
  (exists n', grow 2 n cs ml = Ok n') \/ grow 2 n cs ml = Raise FloatToInt.
Proof.
  intros Hn. cbn [grow].
  destruct (flt (of_size n) (fdiv (of_size cs) ml)) eqn:E;
    [|left; now exists n].
  destruct (fdiv (of_size cs) ml) as [|s|s a] eqn:Ed.
  - destruct (of_size n); discriminate.
  - destruct s.
    + destruct (of_size n) as [|[]|]; discriminate.
    + right. reflexivity.
  - pose proof (fdiv_representable _ _ _ _ Ed) as Ha.
    destruct s.
    { (* a quotient that is not above 0 *)
      exfalso. pose proof (representable_nonneg a Ha) as Ha0.
      destruct (of_size_ge_1 n Hn) as [E1|(b & E1 & Hb1 & _)];
        rewrite E1 in E; [discriminate|].
      unfold flt, fcompare, signed in E.
      destruct (Qcompare b (- a)) eqn:Ec; try discriminate.
      apply Qlt_alt in Ec. lra. }
    cbn [fmul two xorb].
    destruct (rounded_cases false (a * 2)) as [[-> Hfin]|[-> _]];
      [|now right].
    cbn [to_size].
    destruct (Qle_bool (pow2 64) (rnd (a * 2))) eqn:E2; [now right|].
    cbn [bind].
    assert (Hmax : (rnd (a * 2) < pow2 64)%Q).
    { apply Qnot_le_lt. intros H. apply Qle_bool_iff in H. congruence. }
    destruct (grow_step n a (rnd (a * 2)) Hn Ha (rnd_double a Ha) Hmax E)
      as (_ & _ & _ & H4).
    rewrite H4. left. eauto.
Qed.

(** ** rehash *)

Lemma ctor_full (a s : N) :
  1 <= s -> full (Vec.ctor a s FL.default)
  /\ Vec.size (Vec.ctor a s (@FL.default pair)) = s
  /\ homed (Vec.ctor a s FL.default)
  /\ concat (FL.head <$> Vec.cells (Vec.ctor a s (@FL.default pair))) = [].
Proof.
  intros Hs. unfold full, homed, Vec.ctor, Vec.size. simpl.
  destruct (N.eqb_spec s 0); [lia|]. rewrite length_replicate.
  split; [split; [discriminate | split; [lia | reflexivity]]|].
  split; [reflexivity|]. split.
  - intros i b p Hb. apply lookup_replicate in Hb as [-> _]. simpl.
    intros Hp. now apply elem_of_nil in Hp.
  - induction (N.to_nat s) as [|k IH]; simpl; [reflexivity | exact IH].
Qed.

(** Into a bucket array of length 0 nothing can be moved: the index
    [h(k) % 0] is not defined. *)
Lemma move_chain_none (l : list pair)
    (temp t : Vec.Vector (FL.ForwardList pair)) :
  Vec.size temp = 0 -> move_chain l temp = Ok t -> l = [] /\ t = temp.
Proof.
  intros Hs. destruct l as [|p l]; simpl.
  - intros [= <-]. auto.
  - rewrite Hs. discriminate.
Qed.

Lemma move_buckets_none (count : nat) (i : N)
    (a temp t : Vec.Vector (FL.ForwardList pair)) :
  Vec.size temp = 0 -> move_buckets count i a temp = Ok t ->
  t = temp
  /\ concat (FL.head <$> take count (drop (N.to_nat i) (Vec.cells a))) = [].
Proof.
  intros Hs. revert i. induction count as [|c IH]; intros i; simpl.
  - intros [= <-]. auto.
  - destruct (Vec.index a i) as [b|e] eqn:Hb; [|discriminate]. simpl.
    apply index_Ok in Hb.
    destruct (move_chain (FL.begin b) temp) as [t'|e] eqn:Hm; [|discriminate].
    simpl. apply move_chain_none in Hm as [Hnil ->]; [|exact Hs].
    intros H. apply IH in H as [-> Hc]. split; [reflexivity|].
    rewrite (drop_S _ _ _ Hb). simpl. unfold FL.begin in Hnil. rewrite Hnil.
    replace (S (N.to_nat i)) with (N.to_nat (i + 1)) by lia. exact Hc.
Qed.

(** [rehash(n)], when it returns: the pairs stored are those that were
    stored, each once, each in the bucket its key hashes to; [currentSize]
    and the maximum load factor are as before.  The new bucket array is built
    as the constructors build one unless [nextPrime] has returned 0. *)
Lemma rehash_returned (n : N) (m m' : UnorderedMap) :
  Vec.wf (A m) -> rehash n m = Ok m' ->
  pairs m' ≡ₚ pairs m
  /\ homed (A m')
  /\ currentSize m' = currentSize m
  /\ _max_load_factor m' = _max_load_factor m
  /\ (1 <= bucket_count m' -> full (A m')).
Proof.
  intros (Hlen & Hcap & Hnull). unfold rehash.
  destruct (grow 2 _ _ _) as [n'|e]; [|discriminate]. simpl.
  destruct (nextPrime n') as [len|e]; [|discriminate]. simpl.
  assert (Hd : N.to_nat (Vec.size (A m)) <> O -> Vec._data (A m) <> None).
  { intros Hc0 Hd. specialize (Hnull Hd). unfold Vec.size in *. lia. }
  assert (Heq : forall t : Vec.Vector (FL.ForwardList pair),
             Vec.mkVector (Vec._data t) (Vec.cells t) (Vec.currentSize t)
               (Vec.currentCapacity t) = t) by (now intros []).
  destruct (N.eq_dec len 0) as [-> |Hlen0].
  - destruct (move_buckets _ _ _ _) as [t|e] eqn:Hm; [|discriminate].
    apply move_buckets_none in Hm as [-> Hc]; [|reflexivity].
    simpl. intros [= <-]. unfold pairs, chains, bucket_count. simpl.
    change (drop (N.to_nat 0) (Vec.cells (A m))) with (Vec.cells (A m)) in Hc.
    rewrite Hc.
    split; [reflexivity|]. split.
    { intros i b p Hb. simpl in Hb. try rewrite lookup_nil in Hb.
      discriminate. }
    split; [reflexivity|]. split; [reflexivity|]. unfold Vec.size. simpl. lia.
  - destruct (ctor_full (new_array len) len) as (Hf & Hs & Hh & Hc); [lia|].
    destruct (move_buckets_spec (N.to_nat (Vec.size (A m))) 0 (A m)
                (Vec.ctor (new_array len) len (@FL.default pair)))
      as (t & -> & Hft & Hst & Hht & Hp);
      [exact Hd | unfold Vec.size; lia | exact Hf | lia | exact Hh |].
    simpl. intros [= <-]. simpl. rewrite Heq.
    split; [|auto].
    unfold pairs. simpl. rewrite (chains_full t Hft), Hp, Hc, app_nil_r.
    reflexivity.
Qed.

(** A bucket count on which the test of the loop is false stays so when it
    goes up. *)
Lemma settled_mono (n n' : N) (x : float) :
  n <= n' -> n' <= SizeT.max ->
  flt (of_size n) x = false -> flt (of_size n') x = false.
Proof.
  intros Hle Hmax. assert (Hn : n <= SizeT.max) by lia.
  rewrite !of_size_fin by assumption.
  apply Qof_le, rnd_mono in Hle. revert Hle.
  generalize (rnd (Qof n)) (rnd (Qof n')). intros b b' Hle.
  destruct x as [|s|s a]; [reflexivity | now destruct s |].
  unfold flt, fcompare. simpl signed.
  destruct (Qcompare b (signed s a)) eqn:E1; try discriminate; intros _;
    destruct (Qcompare b' (signed s a)) eqn:E2; try reflexivity; exfalso;
    apply Qlt_alt in E2;
    first [apply Qeq_alt in E1 | apply Qgt_alt in E1]; lra.
Qed.

(** [rehash(n)] past the loop that has settled on [n']: it returns when
    [n'] is in the range of [nextPrime]. *)
Lemma rehash_settled (n n' : N) (m : UnorderedMap) :
  Vec.wf (A m) ->
  grow 2 (if n =? 0 then 1 else n) (currentSize m) (_max_load_factor m)
  = Ok n' ->
  N.max n 1 <= n' -> n' <= prime_max ->
  flt (of_size n')
      (fdiv (of_size (currentSize m)) (_max_load_factor m)) = false ->
  exists m',
    rehash n m = Ok m'
    /\ is_prime (bucket_count m') /\ N.max n 1 <= bucket_count m'
    /\ bucket_count m' <= prime_max
    /\ flt (of_size (bucket_count m'))
           (fdiv (of_size (currentSize m)) (_max_load_factor m)) = false.
Proof.
  intros Hwf Hgrow Hn' Hn'max Hqn. pose proof Hwf as (Hlen & Hcap & Hnull).
  unfold rehash, max_load_factor. rewrite Hgrow. simpl.
  destruct (nextPrime_in_range n' prime_max prime_max_prime Hn'max)
    as (len & -> & Hpr & Hlenb & _); [unfold prime_max, trial_max; lia|].
  simpl.
  destruct (ctor_full (new_array len) len) as (Hf & Hs & Hh & Hc); [lia|].
  destruct (move_buckets_spec (N.to_nat (Vec.size (A m))) 0 (A m)
              (Vec.ctor (new_array len) len (@FL.default pair)))
    as (t & -> & Hft & Hst & Hht & Hp);
    [| unfold Vec.size; lia | exact Hf | lia | exact Hh |].
  { intros Hc0 Hd. specialize (Hnull Hd). unfold Vec.size in *. lia. }
  simpl. eexists. split; [reflexivity|].
  unfold bucket_count. simpl. fold (Vec.size t). rewrite Hst, Hs.
  split; [exact Hpr|]. split; [lia|]. split; [lia|].
  apply (settled_mono n'); [lia | | exact Hqn].
  unfold prime_max, SizeT.max in *. lia.
Qed.

(** [rehash(n)] returns when [n] and the request
    [currentSize / max_load_factor() * 2], as the float it is, are within
    the range of [nextPrime]; the new bucket array has a prime length that is
    at least [max(n, 1)] and on which the test of the loop is false. *)
Lemma rehash_returns (n : N) (m : UnorderedMap) :
  Vec.wf (A m) -> fpositive (_max_load_factor m) ->
  n <= prime_max ->
  within (request (currentSize m) (_max_load_factor m)) prime_max ->
  exists m',
    rehash n m = Ok m'
    /\ is_prime (bucket_count m') /\ N.max n 1 <= bucket_count m'
    /\ bucket_count m' <= prime_max
    /\ flt (of_size (bucket_count m'))
           (fdiv (of_size (currentSize m)) (_max_load_factor m)) = false.
Proof.
  intros Hwf (q & Eml & Hml) Hn (q2 & Hreq & Hq2).
  set (n0 := if n =? 0 then 1 else n).
  assert (Hn0 : 1 <= n0 /\ n <= n0 <= prime_max).
  { unfold n0, prime_max in *. destruct (N.eqb_spec n 0); lia. }
  assert (Hpm : prime_max <= SizeT.max)
    by (unfold prime_max, SizeT.max; lia).
  rewrite Eml in Hreq.
  destruct (grow_one_round 1 n0 (currentSize m) q q2 Hml (proj1 Hn0) Hreq)
    as (n' & Hgrow & Hn' & Hqn & Hcase).
  { pose proof (Qof_size_bound prime_max Hpm). lra. }
  apply (rehash_settled n n'); [exact Hwf | now rewrite Eml | lia | |
                                now rewrite Eml].
  destruct Hcase as [-> |Hle]; [lia|]. apply Qof_le. lra.
Qed.

(** With a maximum load factor of 1 or more, the loop of
    [rehash(currentSize * 2)] is not entered. *)
Lemma doubled_settles (cs : N) (q : Q) :
  (1 <= q)%Q -> cs * 2 <= SizeT.max ->
  flt (of_size (if cs * 2 =? 0 then 1 else cs * 2))
      (fdiv (of_size cs) (Fin false q)) = false.
Proof.
  intros Hq Hcs. set (n0 := if cs * 2 =? 0 then 1 else cs * 2).
  assert (Hn0 : cs <= n0 <= SizeT.max).
  { unfold n0, SizeT.max in *. destruct (N.eqb_spec (cs * 2) 0); lia. }
  rewrite (of_size_fin n0), (of_size_fin cs), fdiv_fin by (lia || lra).
  pose proof (rnd_nonneg (Qof cs)) as H0.
  assert (Hle : (rnd (rnd (Qof cs) / q) <= rnd (Qof cs))%Q).
  { apply rnd_le; [apply rnd_representable|].
    apply Qle_shift_div_r; [lra|].
    apply Qle_trans with (rnd (Qof cs) * 1)%Q; [lra|].
    rewrite !(Qmult_comm (rnd (Qof cs))). apply Qmult_le_compat_r; lra. }
  pose proof (rnd_size_bound cs ltac:(lia)) as Hb.
  pose proof pow2_64_128 as H64.
  rewrite rounded_fin by lra. apply flt_fin_false.
  apply Qle_trans with (rnd (Qof cs)); [exact Hle|].
  apply rnd_mono, Qof_le. lia.
Qed.

(** ** The invariant along the member functions *)

(** The numbers of pairs with which the [rehash(currentSize * 2)] of an
    insertion is within the range of [nextPrime]: twice the number [k] is at
    most [prime_max], and so is the float [k / max_load_factor() * 2] that
    the loop of [rehash] computes, unless the maximum load factor is 1 or
    more, with which that loop is not entered. *)
Definition roomy (k : N) (ml : float) : Prop :=
  k * 2 <= prime_max
  /\ (fle one ml = true \/ within (request k ml) prime_max).

Lemma roomy_le (k k' : N) (ml : float) :
  fpositive ml -> k' <= k -> roomy k ml -> roomy k' ml.
Proof.
  intros (q & -> & Hq) Hk [H1 [H2|H2]]; (split; [lia|]); [now left | right].
  apply request_within in H2; [|exact Hq].
  pose proof (quotient_mono k k' q Hq Hk).
  apply within_request; try (unfold prime_max, SizeT.max in *; lia);
    [exact Hq | lra].
Qed.

Lemma with_buckets_valid (len : N) :
  1 <= len -> valid (with_buckets len) /\ pairs (with_buckets len) = []
  /\ bucket_count (with_buckets len) = len.
Proof.
  intros Hlen.
  destruct (ctor_full (new_array len) len) as (Hf & Hs & Hh & Hc); [lia|].
  assert (Hp : pairs (with_buckets len) = []).
  { unfold pairs. simpl. now rewrite (chains_full _ Hf). }
  split; [|split; [exact Hp | exact Hs]]. split; simpl; try assumption.
  - apply fpositive_one.
  - rewrite Hp. constructor.
Qed.

(** [UnorderedMap(n)] returns for [n] in the range of [nextPrime]. *)
Lemma ctor_returns (n : N) :
  n <= prime_max ->
  exists m,
    ctor n = Ok m /\ valid m /\ pairs m = []
    /\ is_prime (bucket_count m) /\ N.max n 2 <= bucket_count m.
Proof.
  intros Hn. unfold ctor.
  destruct (nextPrime_in_range n prime_max prime_max_prime Hn)
    as (len & -> & Hpr & Hlenb & _); [unfold prime_max, trial_max; lia|].
  simpl. pose proof Hpr as [H2 _].
  destruct (with_buckets_valid len) as (Hv & Hp & Hbc); [lia|].
  exists (with_buckets len). rewrite Hbc. repeat (split; [done|]). lia.
Qed.

Lemma rehash_valid_returned (n : N) (m m' : UnorderedMap) :
  valid m -> rehash n m = Ok m' ->
  pairs m' ≡ₚ pairs m
  /\ currentSize m' = currentSize m
  /\ _max_load_factor m' = _max_load_factor m
  /\ (1 <= bucket_count m' -> valid m').
Proof.
  intros [Hf Hc Hl Hh Hu] Hr.
  destruct (rehash_returned n m m' (full_wf _ Hf) Hr)
    as (Hp & Hh' & Hcs & Hml & Hf').
  split; [exact Hp|]. split; [exact Hcs|]. split; [exact Hml|].
  intros Hbc. split; [auto | exact Hbc | now rewrite Hml | exact Hh'
                     | now rewrite Hp].
Qed.

Lemma rehash_valid_returns (n : N) (m : UnorderedMap) :
  valid m -> n <= prime_max ->
  within (request (currentSize m) (_max_load_factor m)) prime_max ->
  exists m',
    rehash n m = Ok m' /\ valid m'
    /\ is_prime (bucket_count m') /\ N.max n 1 <= bucket_count m'.
Proof.
  intros Hv Hn Hq. pose proof Hv as [Hf Hc Hl Hh Hu].
  destruct (rehash_returns n m (full_wf _ Hf) Hl Hn Hq)
    as (m' & Hr & Hpr & Hge & _).
  exists m'. split; [exact Hr|].
  destruct (rehash_valid_returned n m m' Hv Hr) as (_ & _ & _ & Hv').
  split; [apply Hv'; lia | auto].
Qed.

(** The [rehash(currentSize * 2)] of an insertion returns when the number
    of pairs is [roomy]. *)
Lemma rehash_doubled_returns (m : UnorderedMap) :
  Vec.wf (A m) -> fpositive (_max_load_factor m) ->
  roomy (currentSize m) (_max_load_factor m) ->
  exists m',
    rehash (currentSize m * 2) m = Ok m'
    /\ is_prime (bucket_count m')
    /\ N.max (currentSize m * 2) 1 <= bucket_count m'.
Proof.
  intros Hwf Hl [Hr1 [Hr2|Hr2]].
  - destruct Hl as (q & Eml & Hq). rewrite Eml in Hr2.
    apply fle_fin in Hr2.
    assert (Hs : currentSize m * 2 <= SizeT.max)
      by (unfold prime_max, SizeT.max in *; lia).
    pose proof (doubled_settles (currentSize m) q Hr2 Hs) as Hset.
    rewrite <- Eml in Hset.
    destruct (rehash_settled (currentSize m * 2) _ m Hwf
                (grow_settled 2 _ _ _ Hset)) as (m' & Hr & Hpr & Hge & _);
      [destruct (N.eqb_spec (currentSize m * 2) 0); lia
      |unfold prime_max in *; destruct (N.eqb_spec (currentSize m * 2) 0); lia
      |exact Hset|].
    eauto.
  - destruct (rehash_returns _ m Hwf Hl Hr1 Hr2) as (m' & Hr & Hpr & Hge & _).
    eauto.
Qed.

(** The capacity check that opens [insert] and the subscript operator, when
    it returns. *)
Lemma check_load_returned (m m1 : UnorderedMap) :
  valid m -> check_load m = Ok m1 ->
  pairs m1 ≡ₚ pairs m
  /\ currentSize m1 = currentSize m
  /\ _max_load_factor m1 = _max_load_factor m
  /\ (1 <= bucket_count m1 -> valid m1).
Proof.
  intros Hv. unfold check_load.
  destruct (fge (load_factor m) (max_load_factor m)).
  - apply rehash_valid_returned. exact Hv.
  - intros [= <-]. auto.
Qed.

(** The capacity check returns when the number of pairs is [roomy]. *)
Lemma check_load_returns (m : UnorderedMap) :
  valid m -> roomy (currentSize m) (_max_load_factor m) ->
  exists m1,
    check_load m = Ok m1 /\ valid m1
    /\ ((fge (load_factor m) (max_load_factor m) = false /\ m1 = m)
        \/ (fge (load_factor m) (max_load_factor m) = true
            /\ is_prime (bucket_count m1)
            /\ N.max (currentSize m * 2) 1 <= bucket_count m1)).
Proof.
  intros Hv Hr. pose proof Hv as [Hf Hc Hl Hh Hu]. unfold check_load.
  destruct (fge (load_factor m) (max_load_factor m)) eqn:E.
  - rewrite SizeT.mul_small
      by (destruct Hr as [Hr _]; unfold SizeT.max, prime_max in *; lia).
    destruct (rehash_doubled_returns m (full_wf _ Hf) Hl Hr)
      as (m1 & Hre & Hpr & Hge).
    exists m1. split; [exact Hre|].
    destruct (rehash_valid_returned _ m m1 Hv Hre) as (_ & _ & _ & Hv1).
    split; [apply Hv1; lia|]. right. auto.
  - exists m. split; [reflexivity|]. split; [exact Hv|]. left. auto.
Qed.

Lemma push_valid (m : UnorderedMap) (p : pair) (b : FL.ForwardList pair) :
  valid m -> first p ∉ first <$> pairs m ->
  Vec.cells (A m) !! N.to_nat (h (first p) mod bucket_count m) = Some b ->
  let a := Vec.mkVector (Vec._data (A m))
             (<[N.to_nat (h (first p) mod bucket_count m)
                := FL.push_front p b]> (Vec.cells (A m)))
             (Vec.currentSize (A m)) (Vec.currentCapacity (A m)) in
  let m' := mkMap a (SizeT.add (currentSize m) 1) (_max_load_factor m) in
  valid m' /\ pairs m' ≡ₚ p :: pairs m
  /\ bucket_count m' = bucket_count m.
Proof.
  intros [Hf Hc Hl Hh Hu] Hk Hb a m'.
  assert (Hf' : full a) by apply full_push, Hf.
  assert (Hp : pairs m' ≡ₚ p :: pairs m).
  { unfold pairs, m'. simpl.
    rewrite (chains_full a Hf'), (chains_full _ Hf). now apply concat_push. }
  split; [|split; [exact Hp | reflexivity]].
  split; simpl; try assumption.
  - apply homed_push; [exact Hh | exact Hb | reflexivity].
  - rewrite Hp. simpl. apply NoDup_cons. split; assumption.
Qed.

(** [insert(p)] past a capacity check that has left a valid map [m1].  With
    the key stored already, nothing is stored anew and the count stays; the
    returned position is that of the stored entry.  With a new key, the pair
    is pushed to the front of the chain its key hashes to and the count goes
    up by one; the returned position is the one the chain began with before
    the push, that is the node after the new one. *)
Lemma insert_checked (p : pair) (m m1 : UnorderedMap) :
  check_load m = Ok m1 -> valid m1 ->
  exists (m' : UnorderedMap) (it : map_iterator) (ret : bool),
    insert p m = Ok (m', mkPair it ret)
    /\ valid m'
    /\ _max_load_factor m' = _max_load_factor m1
    /\ bucket_count m' = bucket_count m1
    /\ bucket it = h (first p) mod bucket_count m'
    /\ ((first p ∈ first <$> pairs m1 /\ ret = false
         /\ m' = m1
         /\ exists q rest,
              pos it = q :: rest /\ first q = first p /\ q ∈ pairs m1)
        \/ ((first p ∉ first <$> pairs m1) /\ ret = true
            /\ pairs m' ≡ₚ p :: pairs m1
            /\ currentSize m' = SizeT.add (currentSize m1) 1
            /\ exists c,
                 Vec.index (A m') (bucket it) = Ok c
                 /\ FL.begin c = p :: pos it)).
Proof.
  intros Hck Hv1. unfold insert. rewrite Hck. simpl.
  pose proof Hv1 as [Hf Hc Hl Hh Hu].
  destruct (modulo_Ok (h (first p)) (bucket_count m1) Hc) as [Hmod Hlt].
  rewrite Hmod. simpl.
  destruct (index_full (A m1) _ Hf Hlt) as (b & Hb & Hidx).
  rewrite Hidx. simpl. unfold count, find_const. rewrite Hmod. simpl.
  rewrite Hidx. simpl.
  pose proof (key_in_bucket m1 (first p) b Hf Hh Hb) as Hkb.
  destruct (decide (first p ∈ first <$> FL.head b)) as [Hin|Hout].
  - destruct (scan_present _ _ Hin) as (q & rest & Hscan & Hq & Hqb).
    unfold FL.begin. rewrite Hscan. simpl.
    rewrite (scan_key_scan _ _ Hin), Hscan. simpl.
    eexists m1, _, false. split; [reflexivity|]. split; [exact Hv1|].
    split; [reflexivity|]. split; [reflexivity|].
    split; [apply N.add_0_l|]. left.
    split; [now apply Hkb|]. split; [reflexivity|]. split; [reflexivity|].
    exists q, rest. split; [reflexivity|]. split; [exact Hq|].
    apply (elem_of_pairs m1 q Hf). eauto.
  - unfold FL.begin. rewrite (scan_absent _ _ Hout). simpl.
    unfold iterator_ne, iterator_eq, FL.iterator_eq. simpl.
    rewrite N.eqb_refl. simpl.
    destruct (update_full (A m1) _ (FL.push_front p) Hf Hlt) as (b' & Hb' & ->).
    assert (b' = b) by congruence. subst b'. simpl.
    assert (Hk1 : first p ∉ first <$> pairs m1) by now rewrite Hkb.
    destruct (push_valid m1 p b Hv1 Hk1 Hb) as (Hv' & Hp' & Hbc').
    eexists _, _, true. split; [reflexivity|]. split; [exact Hv'|].
    split; [reflexivity|]. split; [exact Hbc'|].
    split; [apply N.add_0_l|]. right.
    split; [exact Hk1|]. split; [reflexivity|].
    split; [exact Hp'|]. split; [reflexivity|].
    exists (FL.push_front p b). split; [|reflexivity].
    unfold Vec.index, Vec.begin. simpl.
    destruct Hf as (Hd & _). destruct (Vec._data (A m1)); [|congruence].
    rewrite N.add_0_l, list_lookup_insert_eq; [reflexivity|].
    eapply lookup_lt_Some, Hb.
Qed.

(** [insert(p)], when it returns, has left a valid map that stores what
    [put] prescribes. *)
Lemma insert_returned (p : pair) (m m' : UnorderedMap)
    (r : Pair map_iterator bool) :
  valid m -> insert p m = Ok (m', r) ->
  valid m'
  /\ _max_load_factor m' = _max_load_factor m
  /\ pairs m' ≡ₚ put (pairs m) p
  /\ (second r = false <-> first p ∈ first <$> pairs m).
Proof.
  intros Hv Hins.
  destruct (check_load m) as [m1|e] eqn:Hck;
    [|unfold insert in Hins; rewrite Hck in Hins; discriminate].
  destruct (check_load_returned m m1 Hv Hck) as (Hp1 & Hcs1 & Hml1 & Hv1).
  destruct (N.eq_dec (bucket_count m1) 0) as [Hz|Hnz].
  { unfold insert in Hins. rewrite Hck in Hins. simpl in Hins.
    unfold modulo in Hins. rewrite Hz in Hins. discriminate. }
  assert (Hval1 : valid m1) by (apply Hv1; lia).
  destruct (insert_checked p m m1 Hck Hval1)
    as (m'' & it & ret & Hins' & Hv' & Hml' & _ & _ & Hcase).
  rewrite Hins in Hins'. injection Hins' as -> ->.
  split; [exact Hv'|]. split; [congruence|]. unfold put. simpl.
  destruct Hcase as [(Hin & -> & -> & _)|(Hout & -> & Hp & _)].
  - rewrite Hp1 in Hin. rewrite decide_True by exact Hin.
    split; [exact Hp1|]. split; auto.
  - rewrite Hp1 in Hout. rewrite decide_False by exact Hout.
    split; [now rewrite Hp, Hp1|]. split; [discriminate | contradiction].
Qed.

(** [insert(p)] returns when the number of pairs is [roomy]. *)
Lemma insert_returns (p : pair) (m : UnorderedMap) :
  valid m -> roomy (currentSize m) (_max_load_factor m) ->
  exists m' r,
    insert p m = Ok (m', r)
    /\ (currentSize m' = currentSize m
        \/ currentSize m' = SizeT.add (currentSize m) 1).
Proof.
  intros Hv Hr.
  destruct (check_load_returns m Hv Hr) as (m1 & Hck & Hv1 & _).
  destruct (check_load_returned m m1 Hv Hck) as (_ & Hcs1 & _).
  destruct (insert_checked p m m1 Hck Hv1)
    as (m' & it & ret & Hins & _ & _ & _ & _ & Hcase).
  exists m', (mkPair it ret). split; [exact Hins|].
  destruct Hcase as [(_ & _ & -> & _)|(_ & _ & _ & -> & _)];
    [left | right]; congruence.
Qed.

(** A sequence of insertions, when it returns, has left a valid map that
    stores what [put] prescribes. *)
Lemma insert_all_returned (ps : list pair) (m m' : UnorderedMap) :
  valid m -> insert_all ps m = Ok m' ->
  valid m' /\ pairs m' ≡ₚ foldl put (pairs m) ps.
Proof.
  revert m. induction ps as [|p ps IH]; intros m Hv; simpl.
  - intros [= <-]. auto.
  - destruct (insert p m) as [[m2 r]|e] eqn:Hins; [|discriminate]. simpl.
    destruct (insert_returned p m m2 r Hv Hins) as (Hv2 & _ & Hp2 & _).
    intros H. destruct (IH m2 Hv2 H) as [Hv' Hp'].
    split; [exact Hv'|]. rewrite Hp'. now apply foldl_put_perm.
Qed.

(** It returns when the number of pairs it can reach is [roomy]. *)
Lemma insert_all_returns (ps : list pair) (m : UnorderedMap) :
  valid m ->
  roomy (currentSize m + N.of_nat (length ps)) (_max_load_factor m) ->
  exists m', insert_all ps m = Ok m'.
Proof.
  revert m. induction ps as [|p ps IH]; intros m Hv Hr; simpl.
  - now exists m.
  - pose proof (valid_load m Hv) as Hml.
    destruct (insert_returns p m Hv) as (m2 & r & Hins & Hcs).
    { apply (roomy_le _ _ _ Hml) with (2 := Hr). lia. }
    rewrite Hins. simpl.
    destruct (insert_returned p m m2 r Hv Hins) as (Hv2 & Hml2 & _).
    apply (IH m2 Hv2). rewrite Hml2.
    apply (roomy_le _ _ _ Hml) with (2 := Hr).
    assert (currentSize m + 1 <= SizeT.max).
    { destruct Hr as [Hr _]. unfold prime_max, SizeT.max in *.
      simpl length in Hr. lia. }
    destruct Hcs as [-> | ->]; [|rewrite SizeT.add_small by assumption];
      simpl length; lia.
Qed.

Lemma no_bucket_no_pair (m : UnorderedMap) :
  bucket_count m = 0 -> pairs m = [].
Proof.
  unfold pairs, chains, bucket_count. intros ->. reflexivity.
Qed.

(** C1.  On every valid map, whenever [rehash(n)] returns, the pairs stored
    afterwards are the pairs stored before, none dropped and none twice,
    each in the bucket [hash(key) mod bucket_count] of the new bucket array,
    and [currentSize] is unchanged; it returns whenever [n] and the float
    [currentSize / max_load_factor() * 2] that the loop computes are at most
    2^33 - 9, the range of [nextPrime].  Whenever a sequence of insertions
    returns,
    whatever rehashes it has run into, the map stores what [put] prescribes
    and [find] locates every stored pair: every pair the map held before and,
    for a key that was new, the pair of its first insertion; the sequence
    returns as long as the number of pairs stays [roomy]. *)
Theorem rehash_keeps_pairs_and_find_locates (m : UnorderedMap)
    (Hv : valid m) :
  (forall (n : N) (m' : UnorderedMap),
     rehash n m = Ok m' ->
     pairs m' ≡ₚ pairs m
     /\ (forall p, p ∈ pairs m ->
           exists b,
             Vec.index (A m') (h (first p) mod bucket_count m') = Ok b
             /\ p ∈ FL.head b)
     /\ currentSize m' = currentSize m /\ size m' = size m)
  /\ (forall n : N,
        n <= prime_max ->
        within (request (currentSize m) (max_load_factor m)) prime_max ->
        exists m',
          rehash n m = Ok m' /\ valid m' /\ is_prime (bucket_count m'))
  /\ (forall (ps : list pair) (m' : UnorderedMap),
        insert_all ps m = Ok m' ->
        valid m'
        /\ pairs m' ≡ₚ foldl put (pairs m) ps
        /\ forall (k : Key) (v : T),
             mkPair k v ∈ pairs m
             \/ ((k ∉ first <$> pairs m) /\ first_inserted k ps = Some v) ->
             exists it,
               find k m' = Ok it /\ deref it = Ok (mkPair k v)
               /\ bucket it = h k mod bucket_count m')
  /\ (forall ps : list pair,
        roomy (currentSize m + N.of_nat (length ps)) (max_load_factor m) ->
        exists m', insert_all ps m = Ok m').
Proof.
  split; [|split; [|split]].
  - intros n m' Hr.
    destruct (rehash_valid_returned n m m' Hv Hr) as (Hp & Hcs & _ & Hv').
    split; [exact Hp|]. split; [|split; exact Hcs].
    intros p Hin. apply stored_in_home; [|now rewrite Hp].
    apply Hv'. destruct (N.eq_dec (bucket_count m') 0) as [Hz|?]; [|lia].
    apply no_bucket_no_pair in Hz. rewrite <- Hp, Hz in Hin.
    now apply elem_of_nil in Hin.
  - intros n Hn Hq.
    destruct (rehash_valid_returns n m Hv Hn Hq) as (m' & Hr & Hv' & Hpr & _).
    eauto.
  - intros ps m' Hm'.
    destruct (insert_all_returned ps m m' Hv Hm') as [Hv' Hp].
    split; [exact Hv'|]. split; [exact Hp|]. intros k v Hkv.
    assert (Hin : mkPair k v ∈ pairs m').
    { rewrite Hp. now apply foldl_put_elem. }
    destruct (find_stored m' k v Hv' Hin) as [rest Hfind].
    eexists. split; [exact Hfind|]. split; reflexivity.
  - intros ps Hr. now apply insert_all_returns.
Qed.

(** ** The subscript operator *)

Lemma materialize_spec (m : UnorderedMap) (k : Key) (b : FL.ForwardList pair) :
  valid m -> k ∉ first <$> pairs m ->
  Vec.cells (A m) !! N.to_nat (h k mod bucket_count m) = Some b ->
  exists m',
    materialize k (h k mod bucket_count m) m = Ok (m', T_default)
    /\ valid m' /\ pairs m' ≡ₚ mkPair k T_default :: pairs m
    /\ bucket_count m' = bucket_count m
    /\ currentSize m' = SizeT.add (currentSize m) 1
    /\ _max_load_factor m' = _max_load_factor m.
Proof.
  intros Hv Hk Hb. pose proof Hv as [Hf Hc Hl Hh Hu].
  assert (Hlt : h k mod bucket_count m < bucket_count m)
    by (apply N.mod_lt; lia).
  unfold materialize.
  destruct (update_full (A m) _ (FL.push_front (mkPair k T_default)) Hf Hlt)
    as (b' & Hb' & ->).
  assert (b' = b) by congruence. subst b'. simpl.
  destruct (push_valid m (mkPair k T_default) b Hv Hk Hb) as (Hv' & Hp' & Hbc').
  unfold Vec.index at 1. simpl. destruct Hf as (Hd & _).
  destruct (Vec._data (A m)); [|congruence].
  rewrite list_lookup_insert_eq by (eapply lookup_lt_Some, Hb). simpl.
  eexists. split; [reflexivity|]. split; [exact Hv'|]. split; [exact Hp'|].
  split; [exact Hbc'|]. split; reflexivity.
Qed.

(** The subscript operator past a capacity check that has left a valid map
    [m1]: the value stored for the key, or, after creating the entry,
    [T()]. *)
Lemma subscript_checked (k : Key) (m m1 : UnorderedMap) :
  check_load m = Ok m1 -> valid m1 ->
  exists (m' : UnorderedMap) (v : T),
    subscript k m = Ok (m', v)
    /\ valid m'
    /\ _max_load_factor m' = _max_load_factor m1
    /\ bucket_count m' = bucket_count m1
    /\ ((k ∈ first <$> pairs m1 /\ m' = m1 /\ mkPair k v ∈ pairs m1)
        \/ ((k ∉ first <$> pairs m1) /\ v = T_default
            /\ pairs m' ≡ₚ mkPair k T_default :: pairs m1
            /\ currentSize m' = SizeT.add (currentSize m1) 1)).
Proof.
  intros Hck Hv1. unfold subscript. rewrite Hck. simpl.
  pose proof Hv1 as [Hf Hc Hl Hh Hu].
  destruct (modulo_Ok (h k) (bucket_count m1) Hc) as [Hmod Hlt].
  rewrite Hmod. simpl.
  destruct (index_full (A m1) _ Hf Hlt) as (b & Hb & Hidx).
  rewrite Hidx. simpl.
  pose proof (key_in_bucket m1 k b Hf Hh Hb) as Hkb.
  assert (Hnew : (k ∉ first <$> FL.head b) ->
    exists m' v,
      materialize k (h k mod bucket_count m1) m1 = Ok (m', v)
      /\ valid m' /\ _max_load_factor m' = _max_load_factor m1
      /\ bucket_count m' = bucket_count m1
      /\ ((k ∈ first <$> pairs m1 /\ m' = m1 /\ mkPair k v ∈ pairs m1)
          \/ ((k ∉ first <$> pairs m1) /\ v = T_default
              /\ pairs m' ≡ₚ mkPair k T_default :: pairs m1
              /\ currentSize m' = SizeT.add (currentSize m1) 1))).
  { intros Hout. assert (Hk1 : k ∉ first <$> pairs m1) by now rewrite Hkb.
    destruct (materialize_spec m1 k b Hv1 Hk1 Hb)
      as (m' & Hm & Hv' & Hp' & Hbc' & Hcs' & Hml').
    exists m', T_default. split; [exact Hm|].
    split; [exact Hv'|]. split; [exact Hml'|]. split; [exact Hbc'|]. right.
    auto. }
  unfold FL.empty, FL.begin. destruct (FL.head b) as [|q0 l0] eqn:Hhd.
  - apply Hnew. apply not_elem_of_nil.
  - destruct (decide (k ∈ first <$> q0 :: l0)) as [Hin|Hout].
    + destruct (scan_present _ _ Hin) as (q & rest & -> & Hq & Hqb).
      exists m1, (second q). split; [reflexivity|].
      split; [exact Hv1|]. split; [reflexivity|]. split; [reflexivity|]. left.
      split; [now apply Hkb|]. split; [reflexivity|].
      apply (elem_of_pairs m1 _ Hf).
      exists (N.to_nat (h k mod bucket_count m1)), b.
      split; [exact Hb|]. rewrite Hhd. destruct q as [qk qv]. simpl in *.
      now subst qk.
    + rewrite (scan_absent _ _ Hout). now apply Hnew.
Qed.

(** ** The load factor after an insertion *)

(** The float of a size up to 2^24 is that size. *)
Lemma of_size_small (n : N) :
  n <= 2 ^ 24 -> exists a, of_size n = Fin false a /\ (a == Qof n)%Q.
Proof.
  intros Hn. exists (rnd (Qof n)). split.
  - apply of_size_fin. unfold SizeT.max. lia.
  - apply rnd_exact, representable_small, Hn.
Qed.










(** ** The bucket count *)

(** The bucket count stays prime along the member functions that build or
    rebuild the bucket array, within the range of [nextPrime]. *)
Lemma bucket_count_prime_kept (m : UnorderedMap) :
  valid m -> is_prime (bucket_count m) ->
  roomy (currentSize m) (_max_load_factor m) ->
  (forall n, n <= prime_max ->
     exists m0, ctor n = Ok m0 /\ is_prime (bucket_count m0))
  /\ (forall n, n <= prime_max ->
        within (request (currentSize m) (_max_load_factor m)) prime_max ->
        exists m', rehash n m = Ok m' /\ is_prime (bucket_count m'))
  /\ (forall p, exists m' r,
        insert p m = Ok (m', r) /\ is_prime (bucket_count m'))
  /\ (forall k, exists m' v,
        subscript k m = Ok (m', v) /\ is_prime (bucket_count m')).
Proof.
  intros Hv Hpr Hr.
  destruct (check_load_returns m Hv Hr) as (m1 & Hck & Hv1 & Hcase).
  assert (Hpr1 : is_prime (bucket_count m1)).
  { destruct Hcase as [[_ ->]|(_ & H & _)]; assumption. }
  split; [|split; [|split]].
  - intros n Hn. destruct (ctor_returns n Hn) as (m0 & Hm0 & _ & _ & H & _).
    eauto.
  - intros n Hn Hq.
    destruct (rehash_valid_returns n m Hv Hn Hq) as (m' & Hm' & _ & H & _).
    eauto.
  - intros p. destruct (insert_checked p m m1 Hck Hv1)
      as (m' & it & ret & Hins & _ & _ & Hbc & _).
    exists m', (mkPair it ret). split; [exact Hins|]. now rewrite Hbc.
  - intros k. destruct (subscript_checked k m m1 Hck Hv1)
      as (m' & v & Hsub & _ & _ & Hbc & _).
    exists m', v. split; [exact Hsub|]. now rewrite Hbc.
Qed.

(** ** The non-const find on keys that are not stored *)

(** [find] on a map whose target bucket is empty reads through the null
    head of that bucket. *)
Lemma find_empty_bucket (m : UnorderedMap) (k : Key) :
  valid m ->
  Vec.index (A m) (h k mod bucket_count m) = Ok FL.default ->
  find k m = Raise NullDeref.
Proof.
  intros Hv Hb. unfold find.
  destruct (modulo_Ok (h k) (bucket_count m) (valid_count m Hv)) as [-> _].
  simpl. now rewrite Hb.
Qed.

(** [find] on a key that is not stored, with a target bucket that is not
    empty: the returned position names that bucket, not [end()]. *)
Lemma find_absent_not_end (m : UnorderedMap) (k : Key)
    (b : FL.ForwardList pair) :
  valid m -> k ∉ first <$> pairs m ->
  Vec.index (A m) (h k mod bucket_count m) = Ok b -> FL.head b <> [] ->
  find k m = Ok (mkIter (h k mod bucket_count m) [])
  /\ iterator_eq (mkIter (h k mod bucket_count m) []) (end_ m) = false.
Proof.
  intros Hv Hk Hb Hne. pose proof Hv as [Hf Hc Hl Hh Hu]. unfold find.
  destruct (modulo_Ok (h k) (bucket_count m) Hc) as [-> Hlt]. simpl.
  rewrite Hb. simpl. unfold FL.begin. rewrite find_loop_scan by exact Hne.
  rewrite scan_absent.
  2:{ rewrite <- (key_in_bucket m k b Hf Hh); [exact Hk|]. now apply index_Ok. }
  simpl. unfold make_iterator, Vec.begin. rewrite N.add_0_l.
  split; [reflexivity|]. unfold iterator_eq, end_, make_iterator. simpl.
  apply N.eqb_neq. unfold Vec.begin. lia.
Qed.

(** ** The const find, count and the constructor *)

(** The const [find] and [count] on a key that is stored. *)
Lemma find_const_stored (m : UnorderedMap) (k : Key) (v : T) :
  valid m -> mkPair k v ∈ pairs m ->
  (exists rest,
     find_const k m
     = Ok (mkIter (h k mod bucket_count m) (mkPair k v :: rest)))
  /\ count k m = Ok 1.
Proof.
  intros [Hf Hc Hl Hh Hu] Hp.
  destruct (modulo_Ok (h k) (bucket_count m) Hc) as [Hmod Hlt].
  destruct (index_full (A m) _ Hf Hlt) as (b & Hb & Hidx).
  assert (Hk : k ∈ first <$> FL.head b).
  { apply (key_in_bucket m k b Hf Hh Hb).
    now apply (list_elem_of_fmap_2 first) in Hp. }
  destruct (scan_present k _ Hk) as (q & rest & Hscan & Hq & Hin).
  assert (Hqv : q = mkPair k v).
  { apply (unique_key (pairs m)); [exact Hu | | exact Hp | exact Hq].
    apply (elem_of_pairs m q Hf). eauto. }
  subst q.
  assert (Hfc : find_const k m
                = Ok (mkIter (h k mod bucket_count m) (mkPair k v :: rest))).
  { unfold find_const. rewrite Hmod. simpl. rewrite Hidx. simpl.
    unfold FL.begin. rewrite Hscan. unfold make_iterator, Vec.begin.
    now rewrite N.add_0_l. }
  split; [now exists rest|]. unfold count. rewrite Hfc. reflexivity.
Qed.

(** The const [find] and [count] on a key that is not stored. *)
Lemma find_const_absent (m : UnorderedMap) (k : Key) :
  valid m -> k ∉ first <$> pairs m ->
  find_const k m = Ok (end_ m) /\ count k m = Ok 0.
Proof.
  intros [Hf Hc Hl Hh Hu] Hk.
  destruct (modulo_Ok (h k) (bucket_count m) Hc) as [Hmod Hlt].
  destruct (index_full (A m) _ Hf Hlt) as (b & Hb & Hidx).
  assert (Hfc : find_const k m = Ok (end_ m)).
  { unfold find_const. rewrite Hmod. simpl. rewrite Hidx. simpl.
    unfold FL.begin. rewrite scan_absent; [reflexivity|].
    now rewrite <- (key_in_bucket m k b Hf Hh Hb). }
  split; [exact Hfc|]. unfold count. rewrite Hfc. simpl.
  unfold iterator_ne, iterator_eq, FL.iterator_eq. simpl.
  now rewrite N.eqb_refl.
Qed.

(** X16.  On a valid map the const [find] and [count] decide whether a key
    is stored: for a stored key the returned position is in the bucket the
    key hashes to and designates the stored pair, and [count] is 1; for any
    other key the const [find] returns [end()] and [count] is 0. *)
Theorem find_const_decides (m : UnorderedMap) (k : Key) (Hv : valid m) :
  (forall v : T,
     mkPair k v ∈ pairs m ->
     (exists rest,
        find_const k m
        = Ok (mkIter (h k mod bucket_count m) (mkPair k v :: rest)))
     /\ count k m = Ok 1)
  /\ ((k ∉ first <$> pairs m) ->
      find_const k m = Ok (end_ m) /\ count k m = Ok 0).
Proof.
  split.
  - intros v Hp. now apply find_const_stored.
  - intros Hk. now apply find_const_absent.
Qed.

(** X17.  [UnorderedMap(n)] for a request up to 2^33 - 9 builds a valid map
    without pairs: the bucket count is the smallest prime that is not below
    [n] (and at least 2), the size is 0, the maximum load factor is 1, and
    no key is found. *)
Theorem ctor_builds_an_empty_map (n : N) (Hn : n <= prime_max) :
  exists m,
    ctor n = Ok m
    /\ valid m
    /\ pairs m = []
    /\ size m = 0 /\ empty m = true
    /\ is_prime (bucket_count m)
    /\ n <= bucket_count m
    /\ (forall q, is_prime q -> n <= q -> bucket_count m <= q)
    /\ max_load_factor m = one
    /\ forall k, find_const k m = Ok (end_ m) /\ count k m = Ok 0.
Proof.
  destruct (nextPrime_in_range n prime_max prime_max_prime Hn)
    as (p & Hnp & Hp & Hpb & Hmin); [unfold prime_max, trial_max; lia|].
  unfold ctor. rewrite Hnp. simpl.
  destruct (with_buckets_valid p) as (Hv & Hps & Hbc); [destruct Hp; lia|].
  exists (with_buckets p). rewrite Hbc.
  split; [reflexivity|]. split; [exact Hv|]. split; [exact Hps|].
  split; [reflexivity|]. split; [reflexivity|]. split; [exact Hp|].
  split; [lia|]. split; [exact Hmin|]. split; [reflexivity|].
  intros k. apply (find_const_absent (with_buckets p) k Hv).
  rewrite Hps. simpl. apply not_elem_of_nil.
Qed.

(** ** The subscript operator on a valid map *)

(** X18.  [m[k]] on a valid map whose number of pairs is [roomy] (twice
    the number is at most 2^33 - 9, and so is the float
    [currentSize / max_load_factor() * 2] unless the maximum load factor is
    1 or more): when [k] is stored, the stored value is returned and nothing
    is stored anew; otherwise the pair of [k] and [T()] is stored, the size
    goes up by one, and [T()] is returned.  Either way the map is valid
    afterwards and [find(k)] locates the pair of [k] and the returned
    value. *)
Theorem subscript_finds_or_creates (k : Key) (m : UnorderedMap)
    (Hv : valid m) (Hr : roomy (currentSize m) (_max_load_factor m)) :
  exists (m' : UnorderedMap) (v : T),
    subscript k m = Ok (m', v)
    /\ valid m'
    /\ ((mkPair k v ∈ pairs m /\ pairs m' ≡ₚ pairs m /\ size m' = size m)
        \/ ((k ∉ first <$> pairs m) /\ v = T_default
            /\ pairs m' ≡ₚ mkPair k T_default :: pairs m
            /\ size m' = SizeT.add (size m) 1))
    /\ exists rest,
         find k m'
         = Ok (mkIter (h k mod bucket_count m') (mkPair k v :: rest)).
Proof.
  destruct (check_load_returns m Hv Hr) as (m1 & Hck & Hv1 & _).
  destruct (check_load_returned m m1 Hv Hck) as (Hp1 & Hcs1 & _ & _).
  destruct (subscript_checked k m m1 Hck Hv1)
    as (m' & v & Hsub & Hv' & _ & _ & Hcase).
  exists m', v. split; [exact Hsub|]. split; [exact Hv'|]. unfold size.
  assert (Hin : mkPair k v ∈ pairs m').
  { destruct Hcase as [(_ & -> & Hin)|(_ & -> & Hp' & _)]; [exact Hin|].
    rewrite Hp'. apply elem_of_cons. now left. }
  split; [|exact (find_stored m' k v Hv' Hin)].
  destruct Hcase as [(Hk & -> & Hkv)|(Hk & -> & Hp' & Hcs')].
  - left. split; [now rewrite <- Hp1|]. split; [exact Hp1 | exact Hcs1].
  - right. split; [now rewrite <- Hp1|]. split; [reflexivity|].
    split; [now rewrite Hp', Hp1 | now rewrite Hcs', Hcs1].
Qed.

(** ** The size and the stored pairs *)

(** [size()] is the number of stored pairs. *)
Definition sized (m : UnorderedMap) : Prop :=
  currentSize m = N.of_nat (length (pairs m)).

(** [insert], when it returns, has kept [size()] at the number of stored
    pairs. *)
Lemma insert_sized (p : pair) (m m' : UnorderedMap)
    (r : Pair map_iterator bool) :
  valid m -> sized m -> currentSize m < SizeT.max ->
  insert p m = Ok (m', r) ->
  sized m'
  /\ currentSize m'
     = (if second r then currentSize m + 1 else currentSize m).
Proof.
  unfold sized. intros Hv Hs Hmax Hins.
  destruct (check_load m) as [m1|e] eqn:Hck;
    [|unfold insert in Hins; rewrite Hck in Hins; discriminate].
  destruct (N.eq_dec (bucket_count m1) 0) as [Hz|Hnz].
  { unfold insert in Hins. rewrite Hck in Hins. simpl in Hins.
    unfold modulo in Hins. rewrite Hz in Hins. discriminate. }
  destruct (check_load_returned m m1 Hv Hck) as (Hp1 & Hcs1 & _ & Hv1).
  assert (Hval1 : valid m1) by (apply Hv1; lia).
  destruct (insert_checked p m m1 Hck Hval1)
    as (m'' & it & ret & Hins' & _ & _ & _ & _ & Hcase).
  rewrite Hins in Hins'. injection Hins' as -> ->. simpl.
  destruct Hcase as [(_ & -> & -> & _)|(_ & -> & Hp & Hcs & _)].
  - rewrite Hp1. split; [lia | exact Hcs1].
  - rewrite Hcs, Hcs1, SizeT.add_small by lia. rewrite Hp, Hp1. simpl.
    split; lia.
Qed.

(** X19.  [insert], the subscript operator and [rehash] keep [size()] at
    the number of stored pairs: an insertion that reports [true] has added
    one pair, one that reports [false] none.  [empty()] then says whether
    the map stores a pair. *)
Theorem size_counts_the_pairs (m : UnorderedMap) (Hv : valid m)
    (Hs : sized m) (Hmax : currentSize m < SizeT.max) :
  (forall p m' r,
     insert p m = Ok (m', r) ->
     sized m'
     /\ size m' = (if second r then size m + 1 else size m))
  /\ (forall k m' v, subscript k m = Ok (m', v) -> sized m')
  /\ (forall n m', rehash n m = Ok m' -> sized m')
  /\ (empty m = true <-> pairs m = []).
Proof.
  split; [|split; [|split]].
  - intros p m' r Hins. exact (insert_sized p m m' r Hv Hs Hmax Hins).
  - unfold sized in *. intros k m' v Hsub.
    destruct (check_load m) as [m1|e] eqn:Hck;
      [|unfold subscript in Hsub; rewrite Hck in Hsub; discriminate].
    destruct (N.eq_dec (bucket_count m1) 0) as [Hz|Hnz].
    { unfold subscript in Hsub. rewrite Hck in Hsub. simpl in Hsub.
      unfold modulo in Hsub. rewrite Hz in Hsub. discriminate. }
    destruct (check_load_returned m m1 Hv Hck) as (Hp1 & Hcs1 & _ & Hv1).
    assert (Hval1 : valid m1) by (apply Hv1; lia).
    destruct (subscript_checked k m m1 Hck Hval1)
      as (m'' & v' & Hsub' & _ & _ & _ & Hcase).
    rewrite Hsub in Hsub'. injection Hsub' as -> ->.
    destruct Hcase as [(_ & -> & _)|(_ & _ & Hp & Hcs)].
    + rewrite Hp1. lia.
    + rewrite Hcs, Hcs1, SizeT.add_small by lia. rewrite Hp, Hp1. simpl. lia.
  - unfold sized in *. intros n m' Hre.
    destruct (rehash_valid_returned n m m' Hv Hre) as (Hp & Hcs & _).
    rewrite Hcs, Hp. exact Hs.
  - unfold sized, empty in *. rewrite Hs. split; intros H; [|now rewrite H].
    apply N.eqb_eq in H. destruct (pairs m); [reflexivity|simpl in H; lia].
Qed.

(** ** A sequence of insertions into a new map *)

(** The keys [put] leaves are the keys there were and the keys put. *)
Lemma foldl_put_keys (ps l : list pair) (k : Key) :
  k ∈ first <$> foldl put l ps
  <-> k ∈ first <$> l \/ k ∈ first <$> ps.
Proof.
  revert l. induction ps as [|p ps IH]; intros l; simpl.
  - rewrite elem_of_nil. tauto.
  - rewrite IH, elem_of_cons. unfold put.
    destruct (decide (first p ∈ first <$> l)) as [Hin|Hout]; simpl.
    + split; [tauto|]. intros [?|[-> |?]]; tauto.
    + rewrite elem_of_cons. tauto.
Qed.

Lemma insert_all_sized (ps : list pair) (m m' : UnorderedMap) :
  valid m -> sized m ->
  currentSize m + N.of_nat (length ps) < SizeT.max ->
  insert_all ps m = Ok m' -> sized m'.
Proof.
  revert m. induction ps as [|p ps IH]; intros m Hv Hs Hmax Hall; simpl in *.
  - now injection Hall as <-.
  - destruct (insert p m) as [[m1 r]|e] eqn:Hins; [|discriminate].
    simpl in Hall.
    destruct (insert_sized p m m1 r Hv Hs) as [Hs1 Hcs1]; [lia | exact Hins|].
    destruct (insert_returned p m m1 r Hv Hins) as (Hv1 & _).
    apply (IH m1 Hv1 Hs1); [|exact Hall].
    rewrite Hcs1. destruct (second r); lia.
Qed.

(** X20.  A map constructed with [UnorderedMap(n)] and filled by [insert]
    with a list of pairs, as long as the requests stay within the range of
    [nextPrime]: [count(k)] is 1 for the keys of the list and 0 for every
    other key, [size()] is the number of distinct keys of the list, and the
    const [find] locates every key of the list with the value of its first
    insertion. *)
Theorem inserts_into_a_new_map (n : N) (ps : list pair)
    (Hn : n <= prime_max) (Hr : roomy (N.of_nat (length ps)) one) :
  exists m0 m',
    ctor n = Ok m0
    /\ insert_all ps m0 = Ok m'
    /\ valid m'
    /\ size m' = N.of_nat (length (remove_dups (first <$> ps)))
    /\ (forall k,
          count k m' = Ok (if decide (k ∈ first <$> ps) then 1 else 0))
    /\ (forall k v,
          first_inserted k ps = Some v ->
          exists rest,
            find_const k m'
            = Ok (mkIter (h k mod bucket_count m') (mkPair k v :: rest))).
Proof.
  destruct (nextPrime_in_range n prime_max prime_max_prime Hn)
    as (p & Hnp & Hp & _ & _); [unfold prime_max, trial_max; lia|].
  destruct (with_buckets_valid p) as (Hv0 & Hps0 & _); [destruct Hp; lia|].
  set (m0 := with_buckets p) in *.
  destruct (insert_all_returns ps m0 Hv0) as [m' Hall]; [exact Hr|].
  destruct (insert_all_returned ps m0 m' Hv0 Hall) as [Hv' Hperm].
  rewrite Hps0 in Hperm.
  assert (Hsized : sized m').
  { apply (insert_all_sized ps m0 m' Hv0); [now unfold sized; rewrite Hps0| |
      exact Hall].
    destruct Hr as [Hr _]. unfold prime_max, SizeT.max in *. simpl. lia. }
  assert (Hkeys : forall k, k ∈ first <$> pairs m' <-> k ∈ first <$> ps).
  { intros k. rewrite Hperm, foldl_put_keys. simpl. rewrite elem_of_nil.
    tauto. }
  exists m0, m'. unfold ctor. rewrite Hnp. simpl.
  split; [reflexivity|]. split; [exact Hall|]. split; [exact Hv'|].
  split; [|split].
  - unfold size. rewrite Hsized. f_equal.
    transitivity (length (first <$> pairs m'));
      [symmetry; apply length_fmap|]. apply Permutation_length.
    apply NoDup_Permutation.
    + exact (valid_unique m' Hv').
    + apply NoDup_remove_dups.
    + intros k. rewrite Hkeys. symmetry. apply elem_of_remove_dups.
  - intros k. destruct (decide (k ∈ first <$> ps)) as [Hin|Hout].
    + apply Hkeys in Hin. apply list_elem_of_fmap in Hin.
      destruct Hin as ([k' v] & -> & Hin). simpl.
      exact (proj2 (find_const_stored m' k' v Hv' Hin)).
    + apply find_const_absent; [exact Hv'|]. now rewrite Hkeys.
  - intros k v Hfirst. apply find_const_stored; [exact Hv'|].
    rewrite Hperm. apply foldl_put_elem. right.
    split; [apply not_elem_of_nil | exact Hfirst].
Qed.

(** ** Traversal *)

(** The pairs from a position on, in the order of the buckets: the rest of
    the chain the position is in, then the chains of the later buckets. *)
Definition remaining (m : UnorderedMap) (it : map_iterator) : list pair :=
  pos it
  ++ concat (FL.head <$> drop (S (N.to_nat (bucket it))) (Vec.cells (A m))).

Lemma skip_stops (rest : list (FL.ForwardList pair)) (b last : N)
    (q : pair) (s : list pair) :
  skip rest b last (q :: s) = Ok (mkIter b (q :: s)).
Proof. destruct rest; reflexivity. Qed.

Lemma skip_steps (c : FL.ForwardList pair)
    (rest : list (FL.ForwardList pair)) (b last : N) :
  b <> last -> skip (c :: rest) b last [] = skip rest (b + 1) last (FL.head c).
Proof.
  intros Hne. simpl. now rewrite (proj2 (N.eqb_neq b last) Hne).
Qed.

Lemma skip_reads_past (b last : N) :
  b <> last -> skip [] b last [] = Raise OutOfBounds.
Proof.
  intros Hne. simpl. now rewrite (proj2 (N.eqb_neq b last) Hne).
Qed.

(** The loop of [operator++] from bucket [b] of a bucket array in which
    every cell is a live bucket: it stops at the first pair there is from the
    position on, and reads the bucket after the last one when there is
    none. *)
Lemma skip_reaches (cells : list (FL.ForwardList pair)) (k : nat) :
  forall (b : nat) (s R : list pair),
    (S b + k = length cells)%nat ->
    s ++ concat (FL.head <$> drop (S b) cells) = R ->
    match R with
    | [] =>
        skip (drop (S b) cells) (N.of_nat b) (N.of_nat (length cells)) s
        = Raise OutOfBounds
    | q :: R' =>
        exists (b' : nat) (s' : list pair),
          skip (drop (S b) cells) (N.of_nat b) (N.of_nat (length cells)) s
          = Ok (mkIter (N.of_nat b') (q :: s'))
          /\ (b <= b' < length cells)%nat
          /\ s' ++ concat (FL.head <$> drop (S b') cells) = R'
    end.
Proof.
  induction k as [|k IH]; intros b s R Hk HR.
  - rewrite drop_ge in * by lia. simpl in HR. rewrite app_nil_r in HR.
    subst R. destruct s as [|q s0].
    + apply skip_reads_past. lia.
    + exists b, s0. rewrite skip_stops. split; [reflexivity|].
      split; [lia|]. rewrite drop_ge by lia. apply app_nil_r.
  - destruct (lookup_lt_is_Some_2 cells (S b)) as [c Hc]; [lia|].
    rewrite (drop_S _ c _ Hc) in *. destruct s as [|q s0].
    + rewrite skip_steps by lia.
      replace (N.of_nat b + 1) with (N.of_nat (S b)) by lia.
      specialize (IH (S b) (FL.head c) R).
      destruct R as [|q R']; [apply IH; [lia | exact HR]|].
      destruct IH as (b' & s' & Hs & Hb & HR'); [lia | exact HR|].
      exists b', s'. split; [exact Hs|]. split; [lia | exact HR'].
    + subst R. rewrite <- app_comm_cons. exists b, s0. rewrite skip_stops.
      split; [reflexivity|]. split; [lia|].
      now rewrite (drop_S _ c _ Hc).
Qed.

(** X21.  [operator++] on a position that designates a pair moves to the
    next pair in bucket order: the next one of the same chain, or else the
    first one of the next bucket that is not empty.  On the last pair of the
    last bucket that is not empty it reads the head of a bucket after the
    bucket array. *)
Theorem incr_moves_to_next_pair (m : UnorderedMap) (it : map_iterator)
    (p : pair) (rest : list pair) (Hf : full (A m))
    (Hb : bucket it < bucket_count m) (Hpos : pos it <> [])
    (Hrem : remaining m it = p :: rest) :
  deref it = Ok p
  /\ match rest with
     | [] => incr m it = Raise OutOfBounds
     | q :: _ =>
         exists it',
           incr m it = Ok it'
           /\ deref it' = Ok q
           /\ remaining m it' = rest
           /\ bucket it <= bucket it' < bucket_count m
     end.
Proof.
  destruct Hf as (_ & Hlen & _). unfold bucket_count in *.
  destruct it as [b s]. unfold remaining, deref, incr in *. simpl in *.
  destruct s as [|p0 s]; [contradiction|]. simpl in Hrem.
  injection Hrem as -> Hrest. split; [reflexivity|].
  unfold Vec.end_. fold (Vec.size (A m)). rewrite <- Hlen.
  pose proof (skip_reaches (Vec.cells (A m))
                (length (Vec.cells (A m)) - S (N.to_nat b)) (N.to_nat b) s
                rest) as Hskip.
  rewrite N2Nat.id in Hskip. cbn [FL.incr bind].
  destruct rest as [|q R].
  - rewrite Hskip by (lia || exact Hrest). reflexivity.
  - destruct Hskip as (b' & s' & -> & Hb' & HR); [lia | exact Hrest|]. simpl.
    replace (N.of_nat b' =? N.of_nat (length (Vec.cells (A m)))) with false
      by (symmetry; apply N.eqb_neq; lia).
    eexists. split; [reflexivity|]. simpl. split; [reflexivity|].
    rewrite Nat2N.id. split; [now rewrite HR | lia].
Qed.

(** ** Copying and moving a map *)

(** [UnorderedMap(const UnorderedMap& other)], the member-wise copy: the
    bucket array is copied by [Vector]'s copy constructor, which assigns the
    chains one by one. *)
Definition copy_ctor (other : UnorderedMap) : result UnorderedMap :=
  a <- Vec.copy_ctor (new_array (bucket_count other)) (A other) ;;
  Ok (mkMap a (currentSize other) (_max_load_factor other)).

(** [operator=(const UnorderedMap& other)]: [clear()] when the map is not
    empty, then the members are assigned; the bucket array by [Vector]'s
    copy assignment, which releases the buffer the map had. *)
Definition copy_assign (this other : UnorderedMap) : result UnorderedMap :=
  let this := if empty this then this else clear this in
  a <- Vec.copy_assign (new_array (bucket_count other)) (A this) (A other) ;;
  Ok (mkMap a (currentSize other) (_max_load_factor other)).

(** [operator=(UnorderedMap&& other)]: the map afterwards and what is left
    of [other], whose [currentSize] is read and not reset. *)
Definition move_assign (this other : UnorderedMap)
  : UnorderedMap * UnorderedMap :=
  let this := if empty this then this else clear this in
  let '(a, moved) := Vec.move_assign (A this) (A other) in
  (mkMap a (currentSize other) (_max_load_factor other),
   mkMap moved (currentSize other) (_max_load_factor other)).

Lemma concat_rev_perm (l : list (list pair)) :
  concat (@rev pair <$> l) ≡ₚ concat l.
Proof.
  induction l as [|c l IH]; simpl; [reflexivity|].
  rewrite IH. apply Permutation_app_tail. symmetry. apply Permutation_rev.
Qed.

Lemma copy_assign_head (c : FL.ForwardList pair) :
  FL.head (FL.copy_assign FL.default c) = rev (FL.head c).
Proof.
  unfold FL.copy_assign, FL.begin. simpl. rewrite FL.push_all_head.
  apply app_nil_r.
Qed.

(** X22.  A copy of a valid map, by the copy constructor or by the copy
    assignment, is a valid map with the same bucket count, size and maximum
    load factor that stores the same pairs; the chain of every bucket is in
    reverse order.  [find] locates in the copy every pair of the source. *)
Theorem copy_keeps_the_pairs (this other : UnorderedMap)
    (Hv : valid other) :
  exists m,
    copy_ctor other = Ok m
    /\ copy_assign this other = Ok m
    /\ valid m
    /\ chains (A m) = @rev pair <$> chains (A other)
    /\ pairs m ≡ₚ pairs other
    /\ size m = size other
    /\ bucket_count m = bucket_count other
    /\ max_load_factor m = max_load_factor other
    /\ forall (k : Key) (v : T),
         mkPair k v ∈ pairs other ->
         exists rest,
           find k m = Ok (mkIter (h k mod bucket_count m) (mkPair k v :: rest)).
Proof.
  pose proof Hv as [Hf Hc Hl Hh Hu]. pose proof Hf as (Hd & Hlen & Hcap).
  unfold bucket_count in *.
  assert (Hcells : Vec.copy_cells (A other) (Vec.size (A other))
                   = Ok (Vec.cells (A other))).
  { unfold Vec.copy_cells.
    destruct (N.eqb_spec (Vec.size (A other)) 0) as [?|_]; [lia|].
    destruct (Vec._data (A other)); [|congruence].
    destruct (N.leb_spec (Vec.size (A other))
                (N.of_nat (length (Vec.cells (A other))))) as [_|?]; [|lia].
    rewrite take_ge by lia. reflexivity. }
  set (a := Vec.mkVector (Some (new_array (Vec.size (A other))))
              (FL.copy_assign FL.default <$> Vec.cells (A other))
              (Vec.size (A other)) (Vec.size (A other))).
  assert (Hcopy : Vec.copy_ctor (new_array (Vec.size (A other))) (A other)
                  = Ok a).
  { unfold Vec.copy_ctor. rewrite Hcells. simpl.
    destruct (N.eqb_spec (Vec.size (A other)) 0) as [?|_]; [lia|].
    reflexivity. }
  set (m := mkMap a (currentSize other) (_max_load_factor other)).
  assert (Hfa : full a).
  { unfold full, a, Vec.size. simpl. rewrite length_fmap.
    split; [discriminate|]. split; [exact Hlen | reflexivity]. }
  assert (Hch : chains a = @rev pair <$> chains (A other)).
  { rewrite !chains_full by assumption. unfold a. simpl.
    rewrite <- !list_fmap_compose. apply list_fmap_ext.
    intros i c _. apply copy_assign_head. }
  assert (Hp : pairs m ≡ₚ pairs other).
  { unfold pairs. simpl. rewrite Hch. apply concat_rev_perm. }
  assert (Hvm : valid m).
  { split; simpl.
    - exact Hfa.
    - exact Hc.
    - exact Hl.
    - intros i b p Hb Hin. unfold a in Hb. simpl in Hb.
      rewrite list_lookup_fmap in Hb.
      destruct (Vec.cells (A other) !! i) as [c|] eqn:Ec; [|discriminate].
      injection Hb as <-. rewrite copy_assign_head in Hin.
      apply list_elem_of_In, in_rev, list_elem_of_In in Hin.
      exact (Hh i c p Ec Hin).
    - now rewrite Hp. }
  exists m. unfold copy_ctor, copy_assign, Vec.copy_assign, bucket_count.
  rewrite Hcopy.
  split; [reflexivity|]. split; [reflexivity|]. split; [exact Hvm|].
  split; [exact Hch|]. split; [exact Hp|]. split; [reflexivity|].
  split; [reflexivity|]. split; [reflexivity|].
  intros k v Hin. apply (find_stored m k v Hvm). now rewrite Hp.
Qed.

(** The load factor of a map without buckets: [0 / 0] is a NaN, and a
    number of pairs that is not 0, divided by 0, is the infinity. *)
Lemma load_without_buckets (cs : N) :
  fdiv (of_size cs) (of_size 0) = if cs =? 0 then NaN else Inf false.
Proof.
  destruct (N.eqb_spec cs 0) as [-> |Hcs]; [reflexivity|].
  change (of_size 0) with (Fin false 0).
  destruct (of_size_ge_1 cs) as [-> |(a & -> & Ha & _)]; [lia | reflexivity|].
  simpl. destruct (Qeq_bool a 0) eqn:E; [|reflexivity].
  apply Qeq_bool_iff in E. lra.
Qed.

(** A map whose bucket array has length 0, as [clear()] and a move leave
    it, with a size counter that is not 0: [insert] finds an infinite load
    factor, rehashes into a new bucket array, and stores its pair there. *)
Lemma insert_without_buckets (p : pair) (m : UnorderedMap) :
  Vec.wf (A m) -> bucket_count m = 0 -> fpositive (_max_load_factor m) ->
  1 <= currentSize m -> roomy (currentSize m) (_max_load_factor m) ->
  exists m' it,
    insert p m = Ok (m', mkPair it true)
    /\ valid m'
    /\ pairs m' = [p]
    /\ currentSize m' = currentSize m + 1.
Proof.
  intros Hwf Hbc Hml Hcs Hr.
  assert (Hps : pairs m = []).
  { unfold pairs, chains. unfold bucket_count in Hbc. now rewrite Hbc. }
  assert (Hload : fge (load_factor m) (max_load_factor m) = true).
  { unfold load_factor. rewrite Hbc, load_without_buckets.
    destruct (N.eqb_spec (currentSize m) 0); [lia|].
    unfold max_load_factor. destruct Hml as (q & -> & _). reflexivity. }
  assert (Hmul : SizeT.mul (currentSize m) 2 = currentSize m * 2).
  { apply SizeT.mul_small. destruct Hr as [Hr _].
    unfold prime_max, SizeT.max in *. lia. }
  destruct (rehash_doubled_returns m Hwf Hml Hr) as (m1 & Hre & Hpr & Hge).
  destruct (rehash_returned _ m m1 Hwf Hre) as (Hp1 & Hh1 & Hcs1 & Hml1 & Hf1).
  assert (Hck : check_load m = Ok m1).
  { unfold check_load. now rewrite Hload, Hmul. }
  assert (Hps1 : pairs m1 = []).
  { apply Permutation_nil. now rewrite Hp1, Hps. }
  assert (Hv1 : valid m1).
  { split.
    - apply Hf1. lia.
    - lia.
    - now rewrite Hml1.
    - exact Hh1.
    - rewrite Hps1. constructor. }
  destruct (insert_checked p m m1 Hck Hv1)
    as (m' & it & ret & Hins & Hv' & _ & _ & _ & Hcase).
  destruct Hcase as [(Hin & _)|(_ & -> & Hp' & Hcs' & _)].
  { rewrite Hps1 in Hin. now apply elem_of_nil in Hin. }
  exists m', it. split; [exact Hins|]. split; [exact Hv'|]. split.
  - rewrite Hps1 in Hp'. symmetry in Hp'.
    now apply Permutation_singleton_l in Hp'.
  - rewrite Hcs', Hcs1. apply SizeT.add_small. destruct Hr as [Hr _].
    unfold prime_max, SizeT.max in *. lia.
Qed.

(** A map whose bucket array has length 0 and whose size counter is 0, as
    a move leaves a source without pairs: the load factor is a NaN, the
    capacity check does not rehash, and [insert] and the subscript operator
    compute [h(k) % 0]. *)
Lemma insert_without_buckets_nor_pairs (p : pair) (m : UnorderedMap) :
  bucket_count m = 0 -> currentSize m = 0 ->
  insert p m = Raise DivByZero
  /\ subscript (first p) m = Raise DivByZero.
Proof.
  intros Hbc Hcs.
  assert (Hck : check_load m = Ok m).
  { unfold check_load, load_factor. rewrite Hbc, Hcs, load_without_buckets.
    simpl. unfold fge, fle, fcompare, max_load_factor.
    now destruct (_max_load_factor m). }
  unfold insert, subscript. rewrite Hck. simpl. rewrite Hbc. split; reflexivity.
Qed.

(** X23.  After [clear()] on a map that stores pairs, the map has no bucket
    and no pair, and [size()] still reports the old count.  The next
    [insert] rebuilds a bucket array and stores its pair, as long as the
    old count is [roomy]: twice the count is at most 2^33 - 9, and so is the
    float [currentSize / max_load_factor() * 2] unless the maximum load
    factor is 1 or more.  The map then holds that one pair, and [size()] is
    the old count plus one. *)
Theorem insert_after_clear (p : pair) (m : UnorderedMap) (Hv : valid m)
    (Hcs : 1 <= currentSize m)
    (Hr : roomy (currentSize m) (_max_load_factor m)) :
  bucket_count (clear m) = 0
  /\ pairs (clear m) = []
  /\ size (clear m) = size m
  /\ exists m' it,
       insert p (clear m) = Ok (m', mkPair it true)
       /\ valid m'
       /\ pairs m' = [p]
       /\ size m' = size m + 1.
Proof.
  split; [reflexivity|]. split; [reflexivity|]. split; [reflexivity|].
  destruct Hv as [(Hd & Hlen & Hcap) _ Hl _ _].
  apply (insert_without_buckets p (clear m)); try assumption.
  - unfold Vec.wf, clear, Vec.clear, Vec.size in *. simpl.
    split; [lia|]. split; [lia | intros H; now destruct Hd].
  - reflexivity.
Qed.

(** X24.  The move assignment hands the bucket array over: the map assigned
    to is what the source was, and the source is left without buckets but
    with its old [size()]; [find] on it divides by zero and [begin()] reads
    through the null buffer.  [insert] on a source that held no pair
    divides by zero too: its load factor [0 / 0] is a NaN and nothing is
    rehashed.  On a source that held pairs, [insert] rebuilds a bucket
    array as after [clear()], as long as the old count is [roomy]. *)
Theorem move_assign_empties_the_source (this other : UnorderedMap)
    (p : pair) (Hv : valid other) :
  fst (move_assign this other) = other
  /\ bucket_count (snd (move_assign this other)) = 0
  /\ size (snd (move_assign this other)) = size other
  /\ (forall k,
        find k (snd (move_assign this other)) = Raise DivByZero
        /\ find_const k (snd (move_assign this other)) = Raise DivByZero)
  /\ begin (snd (move_assign this other)) = Raise NullDeref
  /\ (currentSize other = 0 ->
      insert p (snd (move_assign this other)) = Raise DivByZero
      /\ subscript (first p) (snd (move_assign this other))
         = Raise DivByZero)
  /\ (1 <= currentSize other ->
      roomy (currentSize other) (_max_load_factor other) ->
      exists m' it,
        insert p (snd (move_assign this other)) = Ok (m', mkPair it true)
        /\ pairs m' = [p]
        /\ size m' = size other + 1).
Proof.
  unfold move_assign, Vec.move_assign. simpl.
  split; [destruct other as [[d c s cp] cs ml]; reflexivity|].
  split; [reflexivity|]. split; [reflexivity|].
  split; [intros k; split; reflexivity|]. split; [reflexivity|].
  destruct Hv as [_ _ Hl _ _]. split.
  - intros Hcs. now apply insert_without_buckets_nor_pairs.
  - intros Hcs Hr.
    destruct (insert_without_buckets p
                (mkMap (Vec.mkVector Vec.nullptr [] 0 0) (currentSize other)
                   (_max_load_factor other)))
      as (m' & it & Hins & _ & Hp & Hs); try assumption.
    + unfold Vec.wf. simpl. split; [reflexivity|]. split; [lia | reflexivity].
    + reflexivity.
    + exists m', it. split; [exact Hins|]. split; [exact Hp | exact Hs].
Qed.

(** ** rehash and the load factor *)

(** With the maximum load factor 1.0, a bucket count on which the test of
    the loop of [rehash] is false gives a load factor that is not above the
    maximum. *)
Lemma settled_load (cs bc : N) :
  1 <= bc -> bc <= SizeT.max ->
  flt (of_size bc) (fdiv (of_size cs) one) = false ->
  fle (fdiv (of_size cs) (of_size bc)) one = true.
Proof.
  intros Hbc Hmax. rewrite (of_size_fin bc) by assumption. unfold one, of_size.
  destruct (rounded_cases false (Qof cs)) as [[-> Hb]|[-> _]];
    [|discriminate].
  rewrite fdiv_fin by reflexivity.
  pose proof (rnd_representable (Qof cs)) as Hrep.
  pose proof (rnd_nonneg (Qof cs)) as H0.
  assert (Hex : (rnd (rnd (Qof cs) / 1) == rnd (Qof cs))%Q).
  { rewrite rnd_exact; [field|].
    apply (representable_Qeq (rnd (Qof cs))); [field | exact Hrep]. }
  rewrite rounded_fin by lra. intros Hset. apply flt_fin_false in Hset.
  assert (Hb1 : (1 <= rnd (Qof bc))%Q).
  { apply (rnd_ge 1); [apply (representable_pow2 0); lia|].
    change 1%Q with (Qof 1). now apply Qof_le. }
  rewrite fdiv_fin by lra.
  assert (Hq : (rnd (Qof cs) / rnd (Qof bc) <= 1)%Q)
    by (apply Qle_shift_div_r; lra).
  pose proof (rnd_le 1 _ (representable_pow2 0 ltac:(lia)) Hq) as Hle.
  assert (H1 : (1 < pow2 128)%Q) by (apply (pow2_lt 0 128); lia).
  rewrite rounded_fin by lra. now apply fle_fin.
Qed.

(** X25.  [rehash(n)] on a valid map, whatever its positive maximum load
    factor, when [n] and the float [currentSize / max_load_factor() * 2] are
    at most 2^33 - 9: the new bucket count is a prime that is not below [n]
    and, as a float, not below the float [currentSize / max_load_factor()],
    which is the test that ends the loop of [rehash]; with the maximum load
    factor 1.0 the load factor afterwards is within the maximum. *)
Theorem rehash_restores_the_load_factor (n : N) (m : UnorderedMap)
    (Hv : valid m) (Hn : n <= prime_max)
    (Hcs : within (request (currentSize m) (max_load_factor m)) prime_max) :
  exists m',
    rehash n m = Ok m'
    /\ valid m'
    /\ is_prime (bucket_count m')
    /\ n <= bucket_count m'
    /\ max_load_factor m' = max_load_factor m
    /\ flt (of_size (bucket_count m'))
           (fdiv (of_size (currentSize m')) (max_load_factor m')) = false
    /\ (max_load_factor m = one ->
        fle (load_factor m') (max_load_factor m') = true).
Proof.
  pose proof Hv as [Hf _ Hl _ _]. unfold max_load_factor in *.
  destruct (rehash_returns n m (full_wf _ Hf) Hl Hn Hcs)
    as (m' & Hre & Hpr & Hge & Hmax & Hq).
  destruct (rehash_valid_returned n m m' Hv Hre) as (_ & Hs & Hml & Hv').
  assert (Hval : valid m') by (apply Hv'; lia).
  exists m'. split; [exact Hre|]. split; [exact Hval|]. split; [exact Hpr|].
  split; [lia|]. split; [exact Hml|]. rewrite Hs, Hml.
  split; [exact Hq|]. intros Hone. rewrite Hone in *. unfold load_factor.
  rewrite Hs.
  apply settled_load; [lia | unfold prime_max, SizeT.max in *; lia | exact Hq].
Qed.

(** ** reserve *)

(** [reserve(n)]: [rehash(std::ceil(n / max_load_factor()))]; the argument
    of [rehash] is converted to [size_t]. *)
Definition reserve (n : N) (m : UnorderedMap) : result UnorderedMap :=
  n' <- to_size (fceil (fdiv (of_size n) (max_load_factor m))) ;;
  rehash n' m.

(** X26.  [reserve(n)] on a valid map, when the floats
    [n / max_load_factor()] and [currentSize / max_load_factor() * 2] are at
    most 2^33 - 9, rehashes into a prime number of buckets that, as a
    float, is not below the float [n / max_load_factor()]; the stored pairs
    and the size are as before.  With the maximum load factor 1.0 and [n]
    up to 2^24 the bucket count is not below [n]. *)
Theorem reserve_makes_room (n : N) (m : UnorderedMap) (Hv : valid m)
    (Hn : within (fdiv (of_size n) (max_load_factor m)) prime_max)
    (Hcs : within (request (currentSize m) (max_load_factor m)) prime_max) :
  exists m',
    reserve n m = Ok m'
    /\ valid m'
    /\ pairs m' ≡ₚ pairs m
    /\ size m' = size m
    /\ max_load_factor m' = max_load_factor m
    /\ is_prime (bucket_count m')
    /\ fle (fdiv (of_size n) (max_load_factor m))
           (of_size (bucket_count m')) = true
    /\ (max_load_factor m = one -> n <= 2 ^ 24 -> n <= bucket_count m').
Proof.
  pose proof Hv as [Hf _ Hl _ _]. unfold max_load_factor, size in *.
  destruct Hn as (q & Hdiv & Hq).
  pose proof (fdiv_representable _ _ _ _ Hdiv) as Hrep.
  pose proof (representable_nonneg q Hrep) as Hq0.
  assert (Hc0 : (0 <= Qceiling q)%Z).
  { change 0%Z with (Qceiling 0). now apply Qceiling_resp_le. }
  assert (Hcmax : (Qceiling q <= Z.of_N prime_max)%Z).
  { rewrite <- (Qceiling_Z (Z.of_N prime_max)). now apply Qceiling_resp_le. }
  assert (Hto : to_size (fceil (fdiv (of_size n) (_max_load_factor m)))
                = Ok (Z.to_N (Qceiling q))).
  { rewrite Hdiv. unfold fceil, to_size.
    destruct (Qle_bool (pow2 64) (inject_Z (Qceiling q))) eqn:E2.
    { apply Qle_bool_iff in E2. rewrite pow2_Z in E2 by lia.
      rewrite <- Zle_Qle in E2. unfold prime_max in *. lia. }
    now rewrite Qfloor_Z. }
  unfold reserve, max_load_factor. rewrite Hto. simpl.
  destruct (rehash_returns (Z.to_N (Qceiling q)) m (full_wf _ Hf) Hl)
    as (m' & Hre & Hpr & Hge & Hmax & _); [lia | exact Hcs|].
  destruct (rehash_valid_returned _ m m' Hv Hre) as (Hp & Hs & Hml & Hv').
  exists m'. split; [exact Hre|]. split; [apply Hv'; lia|].
  split; [exact Hp|].
  split; [exact Hs|]. split; [exact Hml|]. split; [exact Hpr|].
  assert (Hqb : (q <= Qof (bucket_count m'))%Q).
  { apply Qle_trans with (inject_Z (Qceiling q)); [apply Qle_ceiling|].
    unfold Qof. rewrite <- Zle_Qle. lia. }
  split.
  - rewrite Hdiv, of_size_fin by (unfold prime_max, SizeT.max in *; lia).
    apply fle_fin. now apply rnd_ge.
  - intros Hone Hn24. rewrite Hone in Hdiv.
    destruct (of_size_small n Hn24) as (a & Ea & Ha).
    rewrite Ea in Hdiv. unfold one in Hdiv.
    rewrite fdiv_fin in Hdiv by reflexivity.
    apply rounded_Fin in Hdiv as (_ & -> & _).
    assert (Hex : (rnd (a / 1) == Qof n)%Q).
    { rewrite rnd_exact; [rewrite Ha; field|].
      apply (representable_Qeq (Qof n));
        [rewrite Ha; field | now apply representable_small]. }
    rewrite Hex in Hge. unfold Qof in Hge. rewrite Qceiling_Z in Hge. lia.
Qed.

End UnorderedMap.

Arguments pair Key T : clear implicits.
Arguments local_iterator Key T : clear implicits.
Arguments UnorderedMap Key T : clear implicits.
Arguments map_iterator Key T : clear implicits.

(** ** The map on numbers
    Keys and values are numbers and the hash of a key is the key, which is
    what the standard hash does on integers. *)
Definition int_hash (k : N) : N := k.

(** Every bucket array is put at address 1. *)
Definition at_address (n : N) : N := 1.

(** [UnorderedMap<size_t, size_t> m;]: [nextPrime(1)] is 2. *)
Definition empty_map : UnorderedMap N N := with_buckets at_address 2.

Lemma default_empty_map : default at_address = Ok empty_map.
Proof. reflexivity. Qed.

Lemma empty_map_valid : valid int_hash empty_map.
Proof. apply with_buckets_valid. lia. Qed.

(** [m.insert(p)] for each pair in turn, as a method of the instance. *)
Definition inserts (ps : list (pair N N)) (m : UnorderedMap N N)
  : result (UnorderedMap N N) :=
  insert_all int_hash at_address ps m.

(** The scenario of the specification: one initial bucket requested, keys
    1, 2 and 3 inserted in order.  The third insertion rehashes from 2 to 5
    buckets; every key is found with its value. *)
Example scenario_three_keys :
  exists m,
    inserts [mkPair 1 10; mkPair 2 20; mkPair 3 30] empty_map = Ok m
    /\ size m = 3 /\ bucket_count empty_map = 2
    /\ bucket_count m = 5
    /\ (it <- find int_hash 1 m ;; deref it) = Ok (mkPair 1 10)
    /\ (it <- find int_hash 2 m ;; deref it) = Ok (mkPair 2 20)
    /\ (it <- find int_hash 3 m ;; deref it) = Ok (mkPair 3 30).
Proof. eexists. split; [vm_compute; reflexivity|]. repeat split. Qed.

(** ** A map with two pairs
    The default-constructed map after [insert({1, 10})] and
    [insert({3, 30})]: both keys hash to bucket 1 of the two buckets, and
    the load factor has reached the maximum load factor 1.0. *)
Definition two_pairs : UnorderedMap N N :=
  Eval vm_compute in
    match inserts [mkPair 1 10; mkPair 3 30] empty_map with
    | Ok m => m
    | Raise _ => empty_map
    end.

Lemma two_pairs_inserted :
  inserts [mkPair 1 10; mkPair 3 30] empty_map = Ok two_pairs.
Proof. vm_compute. reflexivity. Qed.

Lemma two_pairs_valid : valid int_hash two_pairs.
Proof.
  exact (proj1 (insert_all_returned int_hash at_address _ empty_map two_pairs
                  empty_map_valid two_pairs_inserted)).
Qed.

Lemma two_pairs_roomy :
  roomy (currentSize two_pairs) (_max_load_factor two_pairs).
Proof. split; [unfold prime_max; simpl; lia | left; reflexivity]. Qed.

Lemma two_pairs_request :
  within (request (currentSize two_pairs) (max_load_factor two_pairs))
         prime_max.
Proof.
  eexists. split; [vm_compute; reflexivity | vm_compute; discriminate].
Qed.

(** Counterexample for C1 as stated for every [n]: on the valid map that
    holds the pair (1,10), [rehash(SIZE_MAX)] gets 0 from [nextPrime],
    builds a bucket array of length 0 and divides by that length when it
    moves the pair. *)
Lemma rehash_fails_beyond_range :
  exists m,
    inserts [mkPair 1 10] empty_map = Ok m
    /\ valid int_hash m
    /\ pairs m = [mkPair 1 10]
    /\ nextPrime SizeT.max = Ok 0
    /\ rehash int_hash at_address SizeT.max m = Raise DivByZero.
Proof.
  eexists. split; [vm_compute; reflexivity|]. split.
  - refine (proj1 (insert_all_returned int_hash at_address
                     [mkPair 1 10] empty_map _ empty_map_valid _)).
    vm_compute. reflexivity.
  - split; [reflexivity|]. split; vm_compute; reflexivity.
Qed.

(** [rehash(10)] on the map with two pairs moves both pairs out of bucket 1
    of 2 buckets: into buckets 1 and 3 of 11 buckets. *)
Example rehash_moves_two_pairs :
  exists m',
    rehash int_hash at_address 10 two_pairs = Ok m'
    /\ pairs two_pairs = [mkPair 3 30; mkPair 1 10]
    /\ bucket_count two_pairs = 2
    /\ bucket_count m' = 11
    /\ (b <- Vec.index (A m') 1 ;; Ok (FL.begin b)) = Ok [mkPair 1 10]
    /\ (b <- Vec.index (A m') 3 ;; Ok (FL.begin b)) = Ok [mkPair 3 30]
    /\ size m' = 2.
Proof. eexists. split; [vm_compute; reflexivity|]. repeat split. Qed.

(** Witness for C1: the map with two pairs, on which every insertion of a
    new key begins with a rehash. *)
Lemma rehash_keeps_pairs_and_find_locates_witness :
  valid int_hash two_pairs
  /\ pairs two_pairs = [mkPair 3 30; mkPair 1 10]
  /\ fge (load_factor two_pairs) (max_load_factor two_pairs) = true
  /\ (forall (n : N) (m' : UnorderedMap N N),
        rehash int_hash at_address n two_pairs = Ok m' ->
        pairs m' ≡ₚ pairs two_pairs
        /\ (forall p, p ∈ pairs two_pairs ->
              exists b,
                Vec.index (A m') (int_hash (first p) mod bucket_count m')
                = Ok b
                /\ p ∈ FL.head b)
        /\ currentSize m' = currentSize two_pairs
        /\ size m' = size two_pairs)
  /\ (forall n : N,
        n <= prime_max ->
        within (request (currentSize two_pairs) (max_load_factor two_pairs))
               prime_max ->
        exists m',
          rehash int_hash at_address n two_pairs = Ok m'
          /\ valid int_hash m' /\ is_prime (bucket_count m'))
  /\ (forall (ps : list (pair N N)) (m' : UnorderedMap N N),
        inserts ps two_pairs = Ok m' ->
        valid int_hash m'
        /\ pairs m' ≡ₚ foldl put (pairs two_pairs) ps
        /\ forall k v : N,
             mkPair k v ∈ pairs two_pairs
             \/ ((k ∉ first <$> pairs two_pairs)
                 /\ first_inserted k ps = Some v) ->
             exists it,
               find int_hash k m' = Ok it /\ deref it = Ok (mkPair k v)
               /\ bucket it = int_hash k mod bucket_count m')
  /\ (forall ps : list (pair N N),
        roomy (currentSize two_pairs + N.of_nat (length ps))
              (max_load_factor two_pairs) ->
        exists m', inserts ps two_pairs = Ok m').
Proof.
  split; [exact two_pairs_valid|]. split; [reflexivity|].
  split; [reflexivity|].
  exact (rehash_keeps_pairs_and_find_locates int_hash at_address two_pairs
           two_pairs_valid).
Defined.



(** C2.  The non-const [find] on a key that is not stored does not return
    [end()].  When the bucket the key hashes to is empty, the loop body runs
    before any test and reads through the null head.  When that bucket holds
    other keys, the loop ends at the chain's end and the returned position
    names that bucket with a null chain position, which is not [end()].  The
    const [find] returns the end position in both cases. *)
Theorem find_absent_key_is_not_end :
  find int_hash 0 empty_map = Raise NullDeref
  /\ find_const int_hash 0 empty_map = Ok (end_ empty_map)
  /\ exists m,
       inserts [mkPair 1 10] empty_map = Ok m
       /\ find int_hash 3 m = Ok (mkIter 1 [])
       /\ end_ m = mkIter 2 []
       /\ iterator_eq (mkIter 1 []) (end_ m) = false
       /\ find_const int_hash 3 m = Ok (end_ m)
       /\ find int_hash 0 m = Raise NullDeref.
Proof.
  split; [reflexivity|]. split; [reflexivity|].
  eexists. split; [vm_compute; reflexivity|]. repeat split.
Qed.

(** C3.  [insert] of a new key returns the position the chain began with
    before the push, not the position of the new pair: a null position when
    the bucket was empty, the former head otherwise.  (The rest of the claim
    holds: [insert_checked].) *)
Theorem insert_returns_position_before_push :
  exists m1 m2 m3 it1 it2 it3,
    insert int_hash at_address (mkPair 1 10) empty_map
    = Ok (m1, mkPair it1 true)
    /\ it1 = mkIter 1 []
    /\ deref it1 = Raise NullDeref
    /\ (b <- Vec.index (A m1) 1 ;; Ok (FL.begin b)) = Ok [mkPair 1 10]
    /\ insert int_hash at_address (mkPair 3 30) m1 = Ok (m2, mkPair it2 true)
    /\ (b <- Vec.index (A m2) 1 ;; Ok (FL.begin b))
       = Ok [mkPair 3 30; mkPair 1 10]
    /\ it2 = mkIter 1 [mkPair 1 10]
    /\ deref it2 = Ok (mkPair 1 10)
    /\ insert int_hash at_address (mkPair 1 99) m2 = Ok (m3, mkPair it3 false)
    /\ size m3 = size m2
    /\ deref it3 = Ok (mkPair 1 10).
Proof.
  eexists _, _, _, _, _, _. split; [vm_compute; reflexivity|].
  split; [reflexivity|]. split; [reflexivity|]. split; [reflexivity|].
  split; [vm_compute; reflexivity|]. split; [reflexivity|].
  split; [reflexivity|]. split; [reflexivity|].
  split; [vm_compute; reflexivity|]. split; reflexivity.
Qed.

(** C5.  [begin()] is the head of bucket 0 whether or not that bucket holds
    a pair.  On the empty map, and on a map whose only key sits in bucket 1,
    [begin()] is a null position in bucket 0: it is not [end()], it cannot
    be dereferenced, and incrementing it reads through the null pointer.
    When bucket 0 does hold a pair, the traversal visits the pairs, and the
    increment that leaves the last bucket reads the head of a bucket one
    past the bucket array. *)
Theorem begin_does_not_skip_empty_bucket :
  begin empty_map = Ok (mkIter 0 [])
  /\ end_ empty_map = mkIter 2 []
  /\ iterator_ne (mkIter 0 []) (end_ empty_map) = true
  /\ (exists m,
        inserts [mkPair 1 10] empty_map = Ok m
        /\ begin m = Ok (mkIter 0 [])
        /\ iterator_ne (mkIter 0 []) (end_ m) = true
        /\ deref (@mkIter N N 0 []) = Raise NullDeref
        /\ incr m (mkIter 0 []) = Raise NullDeref)
  /\ (exists m,
        inserts [mkPair 0 5; mkPair 1 10] empty_map = Ok m
        /\ begin m = Ok (mkIter 0 [mkPair 0 5])
        /\ incr m (mkIter 0 [mkPair 0 5]) = Ok (mkIter 1 [mkPair 1 10])
        /\ incr m (mkIter 1 [mkPair 1 10]) = Raise OutOfBounds).
Proof.
  split; [reflexivity|]. split; [reflexivity|]. split; [reflexivity|].
  split; eexists; (split; [vm_compute; reflexivity|]); repeat split.
Qed.

(** C6.  [clear()] sets the length of the bucket array to 0 and leaves
    [currentSize] as it was: afterwards [bucket_count()] is 0, and the next
    [insert] or [find] divides by it. *)
Theorem clear_leaves_no_bucket :
  bucket_count empty_map = 2
  /\ bucket_count (clear empty_map) = 0
  /\ insert int_hash at_address (mkPair 1 10) (clear empty_map)
     = Raise DivByZero
  /\ find int_hash 1 (clear empty_map) = Raise DivByZero
  /\ exists m,
       inserts [mkPair 1 10; mkPair 2 20] empty_map = Ok m
       /\ size m = 2 /\ bucket_count m = 2
       /\ size (clear m) = 2 /\ bucket_count (clear m) = 0.
Proof.
  split; [reflexivity|]. split; [reflexivity|]. split; [reflexivity|].
  split; [reflexivity|]. eexists. split; [vm_compute; reflexivity|].
  repeat split.
Qed.

(** ** nextPrime on every input *)

(** A number below 2^64 without a divisor below 2^32 is prime. *)
Lemma no_small_divisor_prime (c : N) :
  2 <= c <= SizeT.max ->
  (forall d, 2 <= d < UInt.modulus -> c mod d <> 0) -> is_prime c.
Proof.
  unfold SizeT.max, UInt.modulus. intros Hc Hnd. split; [lia|].
  intros d Hd [k Hk].
  destruct (N.lt_ge_cases d 4294967296) as [Hlt|Hge].
  - apply (Hnd d); [lia|]. rewrite Hk. apply N.Div0.mod_mul.
  - apply (Hnd k); [nia|]. rewrite Hk, N.mul_comm. apply N.Div0.mod_mul.
Qed.

(** The [while] loop from a candidate on, whatever lies ahead. *)
Lemma rounds_on_every_input (k : nat) (num : N) :
  2 <= num <= SizeT.max -> SizeT.max - num + 1 < N.of_nat k ->
  match iter_nat k round num with
  | inr (Ok p) =>
      (is_prime p /\ num <= p /\ forall c, num <= c < p -> ~ is_prime c)
      \/ (p = 0 /\ forall c, num <= c <= SizeT.max -> ~ is_prime c)
  | inr (Raise e) =>
      e = DivByZero
      /\ exists q,
           is_prime q /\ num <= q <= SizeT.max /\ trial_max < q
           /\ forall c, num <= c < q -> ~ is_prime c
  | inl _ => False
  end.
Proof.
  revert num. induction k as [|k IH]; intros num Hnum Hk; [lia|].
  cbn [iter_nat]. unfold round at 1. pose proof (trial_spec num) as Hspec.
  destruct (trial num) as [[|]|e] eqn:Ht.
  - assert (Hc : ~ is_prime num) by (apply trial_composite; [lia | exact Ht]).
    destruct (N.eq_dec num SizeT.max) as [-> |Hne].
    + change (SizeT.add SizeT.max 1) with 0.
      destruct k as [|k]; [lia|]. cbn [iter_nat]. rewrite round_zero.
      right. split; [reflexivity|]. intros c Hcr.
      replace c with SizeT.max by lia. exact Hc.
    + rewrite SizeT.add_small by lia.
      specialize (IH (num + 1)).
      destruct (iter_nat k round (num + 1)) as [s|[p|e]].
      * apply IH; lia.
      * destruct IH as [(Hp & Hle & Hmin)|(-> & Hnone)]; [lia | lia | |].
        -- left. split; [exact Hp|]. split; [lia|]. intros c Hcr.
           destruct (N.eq_dec c num) as [-> |?]; [exact Hc | apply Hmin; lia].
        -- right. split; [reflexivity|]. intros c Hcr.
           destruct (N.eq_dec c num) as [-> |?]; [exact Hc | apply Hnone; lia].
      * destruct IH as (-> & q & Hq & Hqr & Hqt & Hmin); [lia | lia|].
        split; [reflexivity|]. exists q. split; [exact Hq|]. split; [lia|].
        split; [exact Hqt|]. intros c Hcr.
        destruct (N.eq_dec c num) as [-> |?]; [exact Hc | apply Hmin; lia].
  - left. split; [apply trial_prime; [lia | exact Ht]|]. split; [lia|].
    intros c Hcr. lia.
  - destruct Hspec as (-> & Hnd & Hhalf). split; [reflexivity|].
    exists num. split; [now apply no_small_divisor_prime|]. split; [lia|].
    split; [|intros c Hcr; lia].
    unfold trial_max, UInt.modulus in *.
    destruct (N.le_gt_cases num 8589934589) as [Hle|Hgt]; [|exact Hgt].
    assert (num / 2 <= 8589934589 / 2) by (apply N.Div0.div_le_mono; lia).
    change (8589934589 / 2) with 4294967294 in *. lia.
Qed.

(** X27.  [nextPrime] ends on every 64-bit input, in one of three ways.  It
    returns the smallest prime that is not below the input; or the smallest
    such prime is above 2^33 - 3, and the 32-bit counter of the trial
    division wraps to 0 on it and divides by zero; or there is no prime from
    the input up to [SIZE_MAX], the candidate wraps to 0, and 0 is
    returned. *)
Theorem nextPrime_on_every_input (n : N) (Hn : n <= SizeT.max) :
  match nextPrime n with
  | Ok p =>
      (is_prime p /\ n <= p /\ forall q, is_prime q -> n <= q -> p <= q)
      \/ (p = 0 /\ forall c, n <= c <= SizeT.max -> ~ is_prime c)
  | Raise e =>
      e = DivByZero
      /\ exists q,
           is_prime q /\ n <= q <= SizeT.max /\ trial_max < q
           /\ forall c, n <= c < q -> ~ is_prime c
  end.
Proof.
  unfold nextPrime. destruct (N.leb_spec n 1) as [Hle|Hgt].
  - left. split; [exact is_prime_2|]. split; [lia|].
    intros q [Hq _] _. exact Hq.
  - rewrite iterate_iter_nat.
    pose proof (rounds_on_every_input (Pos.to_nat 18446744073709551616) n)
      as H.
    rewrite positive_nat_N in H.
    destruct (iter_nat (Pos.to_nat 18446744073709551616) round n)
      as [s|[p|e]].
    + destruct H; unfold SizeT.max in *; lia.
    + destruct H as [(Hp & Hle & Hmin)|Hzero];
        [lia | unfold SizeT.max in *; lia | |].
      * left. split; [exact Hp|]. split; [exact Hle|]. intros q Hq Hnq.
        destruct (N.le_gt_cases p q) as [?|Hlt]; [assumption|].
        destruct (Hmin q); [lia | exact Hq].
      * right. exact Hzero.
    + apply H; unfold SizeT.max in *; lia.
Qed.

(** Witness for X16: the key 3 in the map with two pairs. *)
Lemma find_const_decides_witness :
  valid int_hash two_pairs
  /\ (forall v : N,
        mkPair 3 v ∈ pairs two_pairs ->
        (exists rest,
           find_const int_hash 3 two_pairs
           = Ok (mkIter (int_hash 3 mod bucket_count two_pairs)
                   (mkPair 3 v :: rest)))
        /\ count int_hash 3 two_pairs = Ok 1)
  /\ ((3 ∉ first <$> pairs two_pairs) ->
      find_const int_hash 3 two_pairs = Ok (end_ two_pairs)
      /\ count int_hash 3 two_pairs = Ok 0).
Proof.
  split; [exact two_pairs_valid|].
  exact (find_const_decides int_hash two_pairs 3 two_pairs_valid).
Defined.

(** Witness for X17: [UnorderedMap<size_t, size_t> m(10)]. *)
Lemma ctor_builds_an_empty_map_witness :
  10 <= prime_max
  /\ exists m : UnorderedMap N N,
       ctor at_address 10 = Ok m
       /\ valid int_hash m
       /\ pairs m = []
       /\ size m = 0 /\ empty m = true
       /\ is_prime (bucket_count m)
       /\ 10 <= bucket_count m
       /\ (forall q, is_prime q -> 10 <= q -> bucket_count m <= q)
       /\ max_load_factor m = one
       /\ forall k,
            find_const int_hash k m = Ok (end_ m)
            /\ count int_hash k m = Ok 0.
Proof.
  assert (H : 10 <= prime_max) by (unfold prime_max; lia).
  split; [exact H|].
  exact (ctor_builds_an_empty_map int_hash at_address 10 H).
Defined.

(** Witness for X18: [m[5]] on the map with two pairs. *)
Lemma subscript_finds_or_creates_witness :
  valid int_hash two_pairs
  /\ roomy (currentSize two_pairs) (_max_load_factor two_pairs)
  /\ exists (m' : UnorderedMap N N) (v : N),
       subscript int_hash 0 at_address 5 two_pairs = Ok (m', v)
       /\ valid int_hash m'
       /\ ((mkPair 5 v ∈ pairs two_pairs /\ pairs m' ≡ₚ pairs two_pairs
            /\ size m' = size two_pairs)
           \/ ((5 ∉ first <$> pairs two_pairs) /\ v = 0
               /\ pairs m' ≡ₚ mkPair 5 0 :: pairs two_pairs
               /\ size m' = SizeT.add (size two_pairs) 1))
       /\ exists rest,
            find int_hash 5 m'
            = Ok (mkIter (int_hash 5 mod bucket_count m') (mkPair 5 v :: rest)).
Proof.
  split; [exact two_pairs_valid|]. split; [exact two_pairs_roomy|].
  exact (subscript_finds_or_creates int_hash 0 at_address 5 two_pairs
           two_pairs_valid two_pairs_roomy).
Defined.

(** Witness for X19: the map with two pairs. *)
Lemma size_counts_the_pairs_witness :
  valid int_hash two_pairs
  /\ sized two_pairs
  /\ currentSize two_pairs < SizeT.max
  /\ (forall p m' r,
        insert int_hash at_address p two_pairs = Ok (m', r) ->
        sized m'
        /\ size m' = (if second r then size two_pairs + 1 else size two_pairs))
  /\ (forall k m' v,
        subscript int_hash 0 at_address k two_pairs = Ok (m', v) -> sized m')
  /\ (forall n m', rehash int_hash at_address n two_pairs = Ok m' -> sized m')
  /\ (empty two_pairs = true <-> pairs two_pairs = []).
Proof.
  assert (H1 : sized two_pairs) by reflexivity.
  assert (H2 : currentSize two_pairs < SizeT.max)
    by (unfold SizeT.max; simpl; lia).
  split; [exact two_pairs_valid|]. split; [exact H1|]. split; [exact H2|].
  exact (size_counts_the_pairs int_hash 0 at_address two_pairs
           two_pairs_valid H1 H2).
Defined.

(** Witness for X21: the position of the pair (3, 30), which is followed by
    the pair (1, 10) in the chain of bucket 1. *)
Lemma incr_moves_to_next_pair_witness :
  full (A two_pairs)
  /\ bucket (mkIter 1 [mkPair 3 30; mkPair 1 10]) < bucket_count two_pairs
  /\ pos (mkIter 1 [mkPair 3 30; mkPair 1 10]) <> []
  /\ remaining two_pairs (mkIter 1 [mkPair 3 30; mkPair 1 10])
     = mkPair 3 30 :: [mkPair 1 10]
  /\ deref (mkIter 1 [mkPair 3 30; mkPair 1 10]) = Ok (mkPair 3 30)
  /\ exists it',
       incr two_pairs (mkIter 1 [mkPair 3 30; mkPair 1 10]) = Ok it'
       /\ deref it' = Ok (mkPair 1 10)
       /\ remaining two_pairs it' = [mkPair 1 10]
       /\ bucket (mkIter 1 [mkPair 3 30; mkPair 1 10]) <= bucket it'
          < bucket_count two_pairs.
Proof.
  assert (H1 : full (A two_pairs)) by exact (valid_full _ _ two_pairs_valid).
  assert (H2 : bucket (mkIter 1 [mkPair 3 30; mkPair 1 10])
               < bucket_count two_pairs) by (vm_compute; reflexivity).
  assert (H3 : pos (mkIter 1 [mkPair 3 30; mkPair 1 10]) <> [])
    by (simpl; discriminate).
  assert (H4 : remaining two_pairs (mkIter 1 [mkPair 3 30; mkPair 1 10])
               = mkPair 3 30 :: [mkPair 1 10]) by reflexivity.
  split; [exact H1|]. split; [exact H2|]. split; [exact H3|].
  split; [exact H4|].
  exact (incr_moves_to_next_pair two_pairs
           (mkIter 1 [mkPair 3 30; mkPair 1 10]) (mkPair 3 30) [mkPair 1 10]
           H1 H2 H3 H4).
Defined.

(** Witness for X22: the map with two pairs copied into an empty map. *)
Lemma copy_keeps_the_pairs_witness :
  valid int_hash two_pairs
  /\ exists m,
       copy_ctor at_address two_pairs = Ok m
       /\ copy_assign at_address empty_map two_pairs = Ok m
       /\ valid int_hash m
       /\ chains (A m) = @rev (pair N N) <$> chains (A two_pairs)
       /\ pairs m ≡ₚ pairs two_pairs
       /\ size m = size two_pairs
       /\ bucket_count m = bucket_count two_pairs
       /\ max_load_factor m = max_load_factor two_pairs
       /\ forall k v : N,
            mkPair k v ∈ pairs two_pairs ->
            exists rest,
              find int_hash k m
              = Ok (mkIter (int_hash k mod bucket_count m)
                      (mkPair k v :: rest)).
Proof.
  split; [exact two_pairs_valid|].
  exact (copy_keeps_the_pairs int_hash at_address empty_map two_pairs
           two_pairs_valid).
Defined.

(** Witness for X23: [clear()] and [insert({5, 50})] on the map with two
    pairs. *)
Lemma insert_after_clear_witness :
  valid int_hash two_pairs
  /\ 1 <= currentSize two_pairs
  /\ roomy (currentSize two_pairs) (_max_load_factor two_pairs)
  /\ bucket_count (clear two_pairs) = 0
  /\ pairs (clear two_pairs) = []
  /\ size (clear two_pairs) = size two_pairs
  /\ exists m' it,
       insert int_hash at_address (mkPair 5 50) (clear two_pairs)
       = Ok (m', mkPair it true)
       /\ valid int_hash m'
       /\ pairs m' = [mkPair 5 50]
       /\ size m' = size two_pairs + 1.
Proof.
  assert (H : 1 <= currentSize two_pairs) by (simpl; lia).
  split; [exact two_pairs_valid|]. split; [exact H|].
  split; [exact two_pairs_roomy|].
  exact (insert_after_clear int_hash at_address (mkPair 5 50) two_pairs
           two_pairs_valid H two_pairs_roomy).
Defined.

(** Witness for X24: the map with two pairs moved into an empty map. *)
Lemma move_assign_empties_the_source_witness :
  valid int_hash two_pairs
  /\ fst (move_assign empty_map two_pairs) = two_pairs
  /\ bucket_count (snd (move_assign empty_map two_pairs)) = 0
  /\ size (snd (move_assign empty_map two_pairs)) = size two_pairs
  /\ (forall k,
        find int_hash k (snd (move_assign empty_map two_pairs))
        = Raise DivByZero
        /\ find_const int_hash k (snd (move_assign empty_map two_pairs))
           = Raise DivByZero)
  /\ begin (snd (move_assign empty_map two_pairs)) = Raise NullDeref
  /\ (currentSize two_pairs = 0 ->
      insert int_hash at_address (mkPair 5 50)
        (snd (move_assign empty_map two_pairs)) = Raise DivByZero
      /\ subscript int_hash 0 at_address (first (mkPair 5 50))
           (snd (move_assign empty_map two_pairs)) = Raise DivByZero)
  /\ (1 <= currentSize two_pairs ->
      roomy (currentSize two_pairs) (_max_load_factor two_pairs) ->
      exists m' it,
        insert int_hash at_address (mkPair 5 50)
          (snd (move_assign empty_map two_pairs))
        = Ok (m', mkPair it true)
        /\ pairs m' = [mkPair 5 50]
        /\ size m' = size two_pairs + 1).
Proof.
  split; [exact two_pairs_valid|].
  exact (move_assign_empties_the_source int_hash 0 at_address empty_map
           two_pairs (mkPair 5 50) two_pairs_valid).
Defined.

(** The move assignment from a map without pairs, and the insertion
    after it. *)
Example insert_into_moved_from_empty_map :
  insert int_hash at_address (mkPair 5 50)
    (snd (move_assign empty_map empty_map)) = Raise DivByZero.
Proof. reflexivity. Qed.

(** Witness for X26: [reserve(10)] on the map with two pairs. *)
Lemma reserve_makes_room_witness :
  valid int_hash two_pairs
  /\ within (fdiv (of_size 10) (max_load_factor two_pairs)) prime_max
  /\ within (request (currentSize two_pairs) (max_load_factor two_pairs))
            prime_max
  /\ exists m',
       reserve int_hash at_address 10 two_pairs = Ok m'
       /\ valid int_hash m'
       /\ pairs m' ≡ₚ pairs two_pairs
       /\ size m' = size two_pairs
       /\ max_load_factor m' = max_load_factor two_pairs
       /\ is_prime (bucket_count m')
       /\ fle (fdiv (of_size 10) (max_load_factor two_pairs))
              (of_size (bucket_count m')) = true
       /\ (max_load_factor two_pairs = one -> 10 <= 2 ^ 24 ->
           10 <= bucket_count m').
Proof.
  assert (H1 : within (fdiv (of_size 10) (max_load_factor two_pairs))
                 prime_max).
  { eexists. split; [vm_compute; reflexivity | vm_compute; discriminate]. }
  split; [exact two_pairs_valid|]. split; [exact H1|].
  split; [exact two_pairs_request|].
  exact (reserve_makes_room int_hash at_address 10 two_pairs
           two_pairs_valid H1 two_pairs_request).
Defined.

(** Witness for X27: the input 25. *)
Lemma nextPrime_on_every_input_witness :
  25 <= SizeT.max
  /\ match nextPrime 25 with
     | Ok p =>
         (is_prime p /\ 25 <= p /\ forall q, is_prime q -> 25 <= q -> p <= q)
         \/ (p = 0 /\ forall c, 25 <= c <= SizeT.max -> ~ is_prime c)
     | Raise e =>
         e = DivByZero
         /\ exists q,
              is_prime q /\ 25 <= q <= SizeT.max /\ trial_max < q
              /\ forall c, 25 <= c < q -> ~ is_prime c
     end.
Proof.
  assert (H : 25 <= SizeT.max) by (unfold SizeT.max; lia).
  split; [exact H|]. exact (nextPrime_on_every_input 25 H).
Defined.

(** Witness for X25: [rehash(10)] on the map with two pairs. *)
Lemma rehash_restores_the_load_factor_witness :
  valid int_hash two_pairs
  /\ 10 <= prime_max
  /\ within (request (currentSize two_pairs) (max_load_factor two_pairs))
            prime_max
  /\ exists m',
       rehash int_hash at_address 10 two_pairs = Ok m'
       /\ valid int_hash m'
       /\ is_prime (bucket_count m')
       /\ 10 <= bucket_count m'
       /\ max_load_factor m' = max_load_factor two_pairs
       /\ flt (of_size (bucket_count m'))
              (fdiv (of_size (currentSize m')) (max_load_factor m')) = false
       /\ (max_load_factor two_pairs = one ->
           fle (load_factor m') (max_load_factor m') = true).
Proof.
  assert (H1 : 10 <= prime_max) by (unfold prime_max; lia).
  split; [exact two_pairs_valid|]. split; [exact H1|].
  split; [exact two_pairs_request|].
  exact (rehash_restores_the_load_factor int_hash at_address 10 two_pairs
           two_pairs_valid H1 two_pairs_request).
Defined.

(** Witness for X20: the keys 1, 2, 3 and again 1 inserted into
    [UnorderedMap<size_t, size_t> m(1)]. *)
Lemma inserts_into_a_new_map_witness :
  let ps := [mkPair 1 10; mkPair 2 20; mkPair 3 30; mkPair 1 99] in
  1 <= prime_max
  /\ roomy (N.of_nat (length ps)) one
  /\ exists m0 m',
       ctor at_address 1 = Ok m0
       /\ insert_all int_hash at_address ps m0 = Ok m'
       /\ valid int_hash m'
       /\ size m' = N.of_nat (length (remove_dups (first <$> ps)))
       /\ (forall k,
             count int_hash k m'
             = Ok (if decide (k ∈ first <$> ps) then 1 else 0))
       /\ (forall k v,
             first_inserted k ps = Some v ->
             exists rest,
               find_const int_hash k m'
               = Ok (mkIter (int_hash k mod bucket_count m')
                       (mkPair k v :: rest))).
Proof.
  intros ps.
  assert (H1 : 1 <= prime_max) by (unfold prime_max; lia).
  assert (H2 : roomy (N.of_nat (length ps)) one)
    by (split; [unfold prime_max; simpl; lia | left; reflexivity]).
  split; [exact H1|]. split; [exact H2|].
  exact (inserts_into_a_new_map int_hash at_address 1 ps H1 H2).
Defined.

(** ** The float arithmetic of the map at some sizes *)

(** From 2^24 on a size need not be a float.  With 5592407 buckets and the
    maximum load factor 3.0, the load factor of 16777221 pairs is below 3
    as a float, so that the capacity check does not rehash, and that of
    16777222 pairs is above 3. *)
Example load_factor_rounds :
  fdiv (of_size 16777221) (of_size 5592407)
  = Fin false (12582911 # 4194304)
  /\ fge (fdiv (of_size 16777221) (of_size 5592407)) (Fin false 3) = false
  /\ fdiv (of_size 16777222) (of_size 5592407)
     = Fin false (12582913 # 4194304)
  /\ fle (fdiv (of_size 16777222) (of_size 5592407)) (Fin false 3) = false.
Proof. repeat split; vm_compute; reflexivity. Qed.

(** The float of 2^32 - 5 is 2^32: the bucket count the loop of [rehash]
    asks for with that many pairs and the maximum load factor 1.0 is 2^33,
    beyond the range of [nextPrime]; so it is with 2^30 - 32 pairs and the
    maximum load factor 0.25. *)
Example request_rounds_up :
  of_size 4294967291 = Fin false 4294967296
  /\ request 4294967291 one = Fin false 8589934592
  /\ request 1073741792 (Fin false (1 # 4)) = Fin false 8589934592
  /\ ~ within (request 4294967291 one) prime_max.
Proof.
  split; [vm_compute; reflexivity|]. split; [vm_compute; reflexivity|].
  split; [vm_compute; reflexivity|].
  intros (q & Hq & Hle). vm_compute in Hq. injection Hq as <-.
  vm_compute in Hle. now apply Hle.
Qed.

(** The float nearest to a third is the load factor of one pair in three
    buckets: with that maximum load factor the capacity check rehashes. *)
Example third_is_reached :
  exists m0 m,
    ctor at_address 3 = Ok m0
    /\ inserts [mkPair 1 10] m0 = Ok m
    /\ bucket_count m = 3 /\ size m = 1
    /\ let m' := set_max_load_factor (fdiv (of_size 1) (of_size 3)) m in
       max_load_factor m' = Fin false (11184811 # 33554432)
       /\ load_factor m' = Fin false (11184811 # 33554432)
       /\ fge (load_factor m') (max_load_factor m') = true.
Proof.
  eexists _, _. split; [vm_compute; reflexivity|].
  split; [vm_compute; reflexivity|]. repeat split.
Qed.

(** The map with the keys 1 to 5 and the float next below 5/11 as its
    maximum load factor: the float [5 / max_load_factor()] is 11, so that
    [rehash(11)] and [reserve(5)] build 11 buckets, on which the load factor
    is above the maximum. *)
Example rehash_leaves_load_above_maximum :
  exists m m1 m2,
    inserts [mkPair 1 10; mkPair 2 20; mkPair 3 30; mkPair 4 40; mkPair 5 50]
      empty_map = Ok m
    /\ fdiv (of_size 5) (Fin false (15252014 # 33554432)) = Fin false 11
    /\ rehash int_hash at_address 11
         (set_max_load_factor (Fin false (15252014 # 33554432)) m) = Ok m1
    /\ reserve int_hash at_address 5
         (set_max_load_factor (Fin false (15252014 # 33554432)) m) = Ok m2
    /\ bucket_count m1 = 11 /\ bucket_count m2 = 11
    /\ load_factor m1 = Fin false (15252015 # 33554432)
    /\ fle (load_factor m1) (max_load_factor m1) = false
    /\ fle (load_factor m2) (max_load_factor m2) = false.
Proof.
  eexists _, _, _. split; [vm_compute; reflexivity|].
  split; [vm_compute; reflexivity|]. split; [vm_compute; reflexivity|].
  split; [vm_compute; reflexivity|]. repeat split.
Qed.

(** ** Agreement with the Standard Library's IEEE 754 operations
    [SpecFloat] specifies the operations of the primitive floats; with a
    precision of 24 bits and the maximal exponent 128 they are those of
    binary32.  The conversion of a size, the division and the
    multiplication above give the same floats on the operands below. *)
Definition of_spec (x : spec_float) : float :=
  match x with
  | S754_zero s => Fin s 0
  | S754_infinity s => Inf s
  | S754_nan => NaN
  | S754_finite s m e => Fin s (Qred (inject_Z (Zpos m) * pow2 e))
  end.

Definition same_float (x y : float) : bool :=
  match x, y with
  | NaN, NaN => true
  | Inf s, Inf t => Bool.eqb s t
  | Fin s a, Fin t b => Bool.eqb s t && Qeq_bool a b
  | _, _ => false
  end.

(** [(float)n] by [SpecFloat]. *)
Definition spec_size (n : N) : spec_float :=
  binary_normalize 24 128 (Z.of_N n) 0 false.

Definition sizes : list N :=
  [0; 1; 2; 3; 5; 11; 16777215; 16777216; 16777217; 16777219; 16777221;
   16777222; 5592407; 1073741792; 4294967291; 4294967168; 4294967167;
   8589934583; 18446744073709551615].

Example of_size_agrees :
  forallb (fun n => same_float (of_spec (spec_size n)) (of_size n)) sizes
  = true.
Proof. vm_compute. reflexivity. Qed.

(** [a / b], [c / (a / b)] and [c / (a / b) * 2] for sizes [a], [b] and
    [c]: the load factor, the quotient and the request with the maximum
    load factor [a / b]. *)
Definition agree (a b c : N) : bool :=
  let x := SFdiv 24 128 (spec_size a) (spec_size b) in
  let y := SFdiv 24 128 (spec_size c) x in
  let z := SFmul 24 128 y (spec_size 2) in
  let x' := fdiv (of_size a) (of_size b) in
  let y' := fdiv (of_size c) x' in
  let z' := fmul y' two in
  same_float (of_spec x) x' && same_float (of_spec y) y'
  && same_float (of_spec z) z'.

Example operations_agree :
  forallb (fun a => forallb (fun b => forallb (agree a b) sizes) sizes) sizes
  = true.
Proof. vm_compute. reflexivity. Qed.

End HashMap_h.
